(** * CSP engine: AC-3 propagation and backtracking search with forward checking

    Shallow embedding of [csp_ac3.py] and [csp_backtracking.py].

    Python dictionaries are finite maps ([gmap]); a missing key raises
    [KeyError], [list.remove] of an absent element and [min] of an empty
    sequence raise [ValueError].  Both programs mutate their CSP in place, so
    every operation is a computation over the mutable store which also
    survives an exception: [M S A := S -> outcome A * S].

    The domains are Python lists, changed in place by [remove], [append]
    and [sort].  [AC3] and [Backtracking] give every key of the domain
    dictionary a list of its own; [AC3Objects] and [BacktrackingObjects]
    keep the lists as objects in the store, so that two keys may hold one
    list.  With a list to each key the two pairs agree
    ([AC3ObjectsTheory.ac3_flat], [BacktrackingObjectsTheory.backtrack_flat]). *)

From Stdlib Require Import ZArith Lia.
From stdpp Require Import base option list sorting gmap strings.

Local Open Scope Z_scope.
Local Open Scope nat_scope.

(** ** Outcomes and the state-and-exception monad *)

Inductive exn := KeyError | ValueError.

Inductive outcome (A : Type) :=
  | Ret (a : A)
  | Raise (e : exn)
  | Timeout.
Arguments Ret {A} a.
Arguments Raise {A} e.
Arguments Timeout {A}.

Definition M (S A : Type) : Type := S → outcome A * S.

Definition ret {S A} (a : A) : M S A := λ s, (Ret a, s).
Definition raise {S A} (e : exn) : M S A := λ s, (Raise e, s).
Definition timeout {S A} : M S A := λ s, (Timeout, s).
Definition bind {S A B} (m : M S A) (f : A → M S B) : M S B :=
  λ s, match m s with
       | (Ret a, s') => f a s'
       | (Raise e, s') => (Raise e, s')
       | (Timeout, s') => (Timeout, s')
       end.
Definition gets {S A} (f : S → A) : M S A := λ s, (Ret (f s), s).
Definition modify {S} (f : S → S) : M S unit := λ s, (Ret tt, f s).

Declare Scope m_scope.
Delimit Scope m_scope with M.
Notation "x ← y ; z" := (bind y (λ x, z))
  (at level 20, y at level 100, z at level 200, only parsing) : m_scope.
Notation "x ;; z" := (bind x (λ _, z))
  (at level 100, z at level 200, only parsing, right associativity) : m_scope.
Local Open Scope m_scope.

(** [d[k]] on a dictionary. *)
Definition subscript {S K V} `{Countable K} (k : K) (d : gmap K V) : M S V :=
  match d !! k with
  | Some v => ret v
  | None => raise KeyError
  end.

(** [l.remove(x)]: drops the first element equal to [x]. *)
Fixpoint list_remove {A} `{EqDecision A} (x : A) (l : list A) : option (list A) :=
  match l with
  | [] => None
  | y :: l' => if decide (y = x) then Some l' else (y ::.) <$> list_remove x l'
  end.

(** Sizes of a dictionary of lists: the sum and the maximum of the lengths. *)
Definition total_length {K A} `{Countable K} (m : gmap K (list A)) : nat :=
  map_fold (λ _ l n, length l + n) 0 m.
Definition max_length {K A} `{Countable K} (m : gmap K (list A)) : nat :=
  map_fold (λ _ l n, length l `max` n) 0 m.

(** ** [csp_ac3.py], a list to each key *)

(** [csp['domains']] as a map from keys to lists: a removal under one key
    shows under no other.  This is the program on every instance in which
    no two keys hold the same list object; [AC3Objects] below is the
    program on all instances. *)
Module AC3.
Section ac3.
Context {Var : Type} {Var_eq : EqDecision Var} {Var_count : Countable Var}.
Context {Val : Type} {Val_eq : EqDecision Val}.

(** The [csp] dictionary with its four fixed keys. *)
Record csp := Csp {
  variables : list Var;
  domains : gmap Var (list Val);
  neighbors : gmap Var (list Var);
  constraints : Var → Val → Var → Val → bool
}.

Definition set_domains (c : csp) (d : gmap Var (list Val)) : csp :=
  {| variables := variables c; domains := d;
     neighbors := neighbors c; constraints := constraints c |}.

(** [csp['domains'][x]] and [csp['neighbors'][x]]. *)
Definition get_domain (x : Var) : M csp (list Val) :=
  d ← gets domains; subscript x d.
Definition get_neighbors (x : Var) : M csp (list Var) :=
  n ← gets neighbors; subscript x n.

(** [csp['domains'][xi].remove(x)] *)
Definition remove_value (xi : Var) (x : Val) : M csp unit :=
  d ← get_domain xi;
  match list_remove x d with
  | None => raise ValueError
  | Some d' => modify (λ c, set_domains c (<[xi := d']> (domains c)))
  end.

(** The body of [revise], over the copy [csp['domains'][xi][:]]. *)
Fixpoint revise_loop (xi xj : Var) (copy : list Val) (revised : bool) : M csp bool :=
  match copy with
  | [] => ret revised
  | x :: rest =>
      dj ← get_domain xj;
      p ← gets constraints;
      if existsb (λ y, p xi x xj y) dj
      then revise_loop xi xj rest revised
      else remove_value xi x;; revise_loop xi xj rest true
  end.

Definition revise (xi xj : Var) : M csp bool :=
  copy ← get_domain xi; revise_loop xi xj copy false.

(** [[(xi, xj) for xi in vs for xj in csp['neighbors'][xi]]] *)
Fixpoint arcs_of (vs : list Var) : M csp (list (Var * Var)) :=
  match vs with
  | [] => ret []
  | xi :: vs' =>
      ns ← get_neighbors xi;
      rest ← arcs_of vs';
      ret (((λ xj, (xi, xj)) <$> ns) ++ rest)
  end.

(** The arcs appended after a revision of [(xi, xj)]. *)
Definition requeue (xi xj : Var) (ns : list Var) : list (Var * Var) :=
  (λ xk, (xk, xi)) <$> filter (λ xk, xk ≠ xj) ns.

(** One iteration of [while queue:], after [queue.popleft()] gave
    [(xi, xj)] and left [rest]: either [ac3] returns, or the loop goes on
    with a new queue. *)
Inductive step_result :=
  | Return (b : bool)
  | Continue (queue : list (Var * Var)).

Definition ac3_body (xi xj : Var) (rest : list (Var * Var)) : M csp step_result :=
  revised ← revise xi xj;
  if revised then
    di ← get_domain xi;
    match di with
    | [] => ret (Return false)
    | _ :: _ =>
        ns ← get_neighbors xi;
        ret (Continue (rest ++ requeue xi xj ns))
    end
  else ret (Continue rest).

(** The [while queue:] loop; [fuel] bounds the number of arcs popped. *)
Fixpoint ac3_loop (fuel : nat) (queue : list (Var * Var)) : M csp bool :=
  match queue with
  | [] => ret true
  | (xi, xj) :: rest =>
      match fuel with
      | 0 => timeout
      | S fuel' =>
          s ← ac3_body xi xj rest;
          match s with
          | Return b => ret b
          | Continue queue' => ac3_loop fuel' queue'
          end
      end
  end.

(** A number of iterations no run exceeds (see [ac3_loop_terminates]). *)
Definition ac3_fuel (c : csp) (queue : list (Var * Var)) : nat :=
  length queue + S (max_length (neighbors c)) * total_length (domains c).

Definition ac3 : M csp bool :=
  vs ← gets variables;
  queue ← arcs_of vs;
  fuel ← gets (λ c, ac3_fuel c queue);
  ac3_loop fuel queue.

(** [shrinks c c']: running from [c] to [c'] only replaced domains by
    subsequences of themselves and left every other entry alone. *)
Definition shrinks (c c' : csp) : Prop :=
  variables c' = variables c ∧
  neighbors c' = neighbors c ∧
  constraints c' = constraints c ∧
  dom (domains c') = dom (domains c) ∧
  ∀ x d, domains c !! x = Some d →
         ∃ d', domains c' !! x = Some d' ∧ sublist d' d.

(** [x] of [xi] has a support among the values [dj] of [xj]. *)
Definition has_support (c : csp) (xi xj : Var) (dj : list Val) (x : Val) : Prop :=
  Exists (λ y, constraints c xi x xj y = true) dj.
Global Instance has_support_dec c xi xj dj x : Decision (has_support c xi xj dj x).
Proof. unfold has_support. apply _. Defined.

(** A revision of the arc [(xi, xj)] would remove nothing. *)
Definition arc_consistent (c : csp) (xi xj : Var) : Prop :=
  ∃ di, domains c !! xi = Some di ∧
        ∀ x, x ∈ di → ∃ dj, domains c !! xj = Some dj ∧ has_support c xi xj dj x.

(** [xj] is listed as a neighbour of [xi]. *)
Definition is_arc (c : csp) (xi xj : Var) : Prop :=
  ∃ ns, neighbors c !! xi = Some ns ∧ xj ∈ ns.

(** The neighbour mapping is that of an undirected graph without loops. *)
Definition symmetric_graph (c : csp) : Prop :=
  ∀ xi xj, is_arc c xi xj → xi ≠ xj ∧ is_arc c xj xi.

(** The predicate gives one answer for a pair of values, whichever end of
    the constraint it is asked from. *)
Definition undirected_predicate (c : csp) : Prop :=
  ∀ xi x xj y, constraints c xi x xj y = constraints c xj y xi x.

(** Every variable has its neighbour list, and every arc joins two
    variables that have a domain and a neighbour list. *)
Definition well_formed (c : csp) : Prop :=
  (∀ xi, xi ∈ variables c → is_Some (neighbors c !! xi)) ∧
  (∀ xi xj, is_arc c xi xj →
     is_Some (domains c !! xi) ∧ is_Some (domains c !! xj) ∧
     is_Some (neighbors c !! xj)).

End ac3.
Arguments csp : clear implicits.
Arguments csp Var {_ _} Val.
Arguments Csp {_ _ _ _} _ _ _ _.
Arguments step_result : clear implicits.

(** The module-level instance. *)
Definition constraint (xi : string) (x : Z) (xj : string) (y : Z) : bool :=
  if bool_decide (xi = "B" ∧ xj = "A") then bool_decide (x = y + 1)%Z
  else if bool_decide (xi = "A" ∧ xj = "B") then bool_decide (x + 1 = y)%Z
  else if bool_decide ((xi = "C" ∧ xj = "B") ∨ (xi = "B" ∧ xj = "C"))
       then bool_decide (x ≠ y)
  else true.

Definition example : csp string Z :=
  Csp ["A"; "B"; "C"]
      (<["A" := [1; 2; 3]%Z]> (<["B" := [1; 2; 3]%Z]> (<["C" := [2; 3]%Z]> ∅)))
      (<["A" := ["B"]]> (<["B" := ["A"; "C"]]> (<["C" := ["B"]]> ∅)))
      constraint.

(** The predicate of the instance the module keeps in a comment: the
    variables must all differ. *)
Definition all_different (xi : string) (x : Z) (xj : string) (y : Z) : bool :=
  bool_decide (x ≠ y).

End AC3.

(** ** [csp_ac3.py], with the domain lists as objects *)

(** A Python list is an object: [l.remove(x)] changes it for every key of
    [csp['domains']] that holds it.  Here the dictionary maps a key to the
    identity of its list, and the lists live in a store of their own.  (In
    [AC3] above every key has a list to itself.) *)
Module AC3Objects.

(** The identity of a list object. *)
Notation loc := nat.

Section ac3.
Context {Var : Type} {Var_eq : EqDecision Var} {Var_count : Countable Var}.
Context {Val : Type} {Val_eq : EqDecision Val}.

Record csp := Csp {
  variables : list Var;
  domains : gmap Var loc;
  lists : gmap loc (list Val);
  neighbors : gmap Var (list Var);
  constraints : Var → Val → Var → Val → bool
}.

Definition set_lists (c : csp) (h : gmap loc (list Val)) : csp :=
  {| variables := variables c; domains := domains c; lists := h;
     neighbors := neighbors c; constraints := constraints c |}.

(** [csp['domains'][x]]: the list object under the key [x]. *)
Definition get_domain (x : Var) : M csp loc :=
  d ← gets domains; subscript x d.
Definition get_neighbors (x : Var) : M csp (list Var) :=
  n ← gets neighbors; subscript x n.

(** The elements of the list object [l] now.  A key never holds an object
    that is not in the store; a store made up otherwise gets the
    [KeyError] of a missing key. *)
Definition elements (l : loc) : M csp (list Val) :=
  h ← gets lists; subscript l h.

(** [l.remove(x)] *)
Definition remove_value (l : loc) (x : Val) : M csp unit :=
  d ← elements l;
  match list_remove x d with
  | None => raise ValueError
  | Some d' => modify (λ c, set_lists c (<[l := d']> (lists c)))
  end.

(** The body of [revise], over the copy [csp['domains'][xi][:]]; the
    supports are looked up in the list of [xj] as it is at that moment. *)
Fixpoint revise_loop (xi xj : Var) (copy : list Val) (revised : bool) : M csp bool :=
  match copy with
  | [] => ret revised
  | x :: rest =>
      lj ← get_domain xj;
      dj ← elements lj;
      p ← gets constraints;
      if existsb (λ y, p xi x xj y) dj
      then revise_loop xi xj rest revised
      else (li ← get_domain xi; remove_value li x);;
           revise_loop xi xj rest true
  end.

Definition revise (xi xj : Var) : M csp bool :=
  li ← get_domain xi;
  copy ← elements li;
  revise_loop xi xj copy false.

Fixpoint arcs_of (vs : list Var) : M csp (list (Var * Var)) :=
  match vs with
  | [] => ret []
  | xi :: vs' =>
      ns ← get_neighbors xi;
      rest ← arcs_of vs';
      ret (((λ xj, (xi, xj)) <$> ns) ++ rest)
  end.

Definition ac3_body (xi xj : Var) (rest : list (Var * Var))
    : M csp (AC3.step_result Var) :=
  revised ← revise xi xj;
  if revised then
    li ← get_domain xi;
    di ← elements li;
    match di with
    | [] => ret (AC3.Return false)
    | _ :: _ =>
        ns ← get_neighbors xi;
        ret (AC3.Continue (rest ++ AC3.requeue xi xj ns))
    end
  else ret (AC3.Continue rest).

Fixpoint ac3_loop (fuel : nat) (queue : list (Var * Var)) : M csp bool :=
  match queue with
  | [] => ret true
  | (xi, xj) :: rest =>
      match fuel with
      | 0 => timeout
      | S fuel' =>
          s ← ac3_body xi xj rest;
          match s with
          | AC3.Return b => ret b
          | AC3.Continue queue' => ac3_loop fuel' queue'
          end
      end
  end.

(** A number of iterations no run exceeds (see
    [ac3_loop_terminates_objects]): every revision that queues arcs has
    made a list object shorter. *)
Definition ac3_fuel (c : csp) (queue : list (Var * Var)) : nat :=
  length queue + S (max_length (neighbors c)) * total_length (lists c).

Definition ac3 : M csp bool :=
  vs ← gets variables;
  queue ← arcs_of vs;
  fuel ← gets (λ c, ac3_fuel c queue);
  ac3_loop fuel queue.

(** The elements under a key. *)
Definition domain (c : csp) (x : Var) : option (list Val) :=
  domains c !! x ≫= λ l, lists c !! l.

(** The instance as one list per key. *)
Definition flat (c : csp) : AC3.csp Var Val :=
  AC3.Csp (variables c) (omap (λ l, lists c !! l) (domains c))
          (neighbors c) (constraints c).

(** No two keys hold the same list object. *)
Definition separate (c : csp) : Prop :=
  ∀ x y l, domains c !! x = Some l → domains c !! y = Some l → x = y.

(** A run changed nothing but the elements of list objects, which it made
    subsequences of themselves. *)
Definition shrinks (c c' : csp) : Prop :=
  variables c' = variables c ∧
  domains c' = domains c ∧
  neighbors c' = neighbors c ∧
  constraints c' = constraints c ∧
  dom (lists c') = dom (lists c) ∧
  ∀ l d, lists c !! l = Some d → ∃ d', lists c' !! l = Some d' ∧ sublist d' d.

(** [x] of [xi] has a support among the values [dj] of [xj]. *)
Definition has_support (c : csp) (xi xj : Var) (dj : list Val) (x : Val) : Prop :=
  Exists (λ y, constraints c xi x xj y = true) dj.
Global Instance has_support_dec c xi xj dj x : Decision (has_support c xi xj dj x).
Proof. unfold has_support. apply _. Defined.

(** [xj] is listed as a neighbour of [xi]. *)
Definition is_arc (c : csp) (xi xj : Var) : Prop :=
  ∃ ns, neighbors c !! xi = Some ns ∧ xj ∈ ns.

(** The neighbour mapping is that of an undirected graph without loops. *)
Definition symmetric_graph (c : csp) : Prop :=
  ∀ xi xj, is_arc c xi xj → xi ≠ xj ∧ is_arc c xj xi.

(** The predicate gives one answer for a pair of values, whichever end of
    the constraint it is asked from. *)
Definition undirected_predicate (c : csp) : Prop :=
  ∀ xi x xj y, constraints c xi x xj y = constraints c xj y xi x.

(** Every value under [xi] has a support under [xj]. *)
Definition arc_consistent (c : csp) (xi xj : Var) : Prop :=
  ∃ di, domain c xi = Some di ∧
        ∀ x, x ∈ di → ∃ dj, domain c xj = Some dj ∧ has_support c xi xj dj x.

(** [a] picks for every key a value of its list, and the predicate holds
    between any two neighbouring variables, asked from either end. *)
Definition solution (c : csp) (a : Var → Val) : Prop :=
  (∀ v d, domain c v = Some d → a v ∈ d) ∧
  (∀ xi xj, is_arc c xi xj →
     constraints c xi (a xi) xj (a xj) = true ∧
     constraints c xj (a xj) xi (a xi) = true).

(** The worklist loop as the text has it, from a queue to a result: an
    empty queue is [True]; a revision that removed values and left none
    under [xi] is [False], whatever is still queued; one that removed
    values and left some goes on with the arcs into [xi] appended; one
    that removed nothing goes on with the rest. *)
Inductive run : list (Var * Var) → csp → bool → csp → Prop :=
  | run_empty c : run [] c true c
  | run_wipeout xi xj rest c c1 :
      revise xi xj c = (Ret true, c1) → domain c1 xi = Some [] →
      run ((xi, xj) :: rest) c false c1
  | run_requeue xi xj rest c c1 x d ns b c' :
      revise xi xj c = (Ret true, c1) → domain c1 xi = Some (x :: d) →
      neighbors c1 !! xi = Some ns →
      run (rest ++ AC3.requeue xi xj ns) c1 b c' →
      run ((xi, xj) :: rest) c b c'
  | run_skip xi xj rest c c1 b c' :
      revise xi xj c = (Ret false, c1) → run rest c1 b c' →
      run ((xi, xj) :: rest) c b c'.




End ac3.
Arguments csp : clear implicits.
Arguments csp Var {_ _} Val.
Arguments Csp {_ _ _ _} _ _ _ _ _.

(** The module-level instance, each key with its own list. *)
Definition example : csp string Z :=
  Csp ["A"; "B"; "C"]
      (<["A" := 0]> (<["B" := 1]> (<["C" := 2]> ∅)))
      (<[0 := [1; 2; 3]%Z]> (<[1 := [1; 2; 3]%Z]> (<[2 := [2; 3]%Z]> ∅)))
      (<["A" := ["B"]]> (<["B" := ["A"; "C"]]> (<["C" := ["B"]]> ∅)))
      AC3.constraint.


(** [AC3.clash] with a list per key. *)
Definition clash : csp string Z :=
  Csp ["A"; "B"; "C"]
      (<["A" := 0]> (<["B" := 1]> (<["C" := 2]> ∅)))
      (<[0 := [1]%Z]> (<[1 := [1]%Z]> (<[2 := [1; 2]%Z]> ∅)))
      (<["A" := ["B"; "C"]]> (<["B" := ["A"; "C"]]> (<["C" := ["A"; "B"]]> ∅)))
      AC3.all_different.

(** Three variables that must differ, with A = [1, 2], B = [1, 2] and
    C = [1]: the fourth arc taken from the queue empties B. *)
Definition late_clash : csp string Z :=
  Csp ["A"; "B"; "C"]
      (<["A" := 0]> (<["B" := 1]> (<["C" := 2]> ∅)))
      (<[0 := [1; 2]%Z]> (<[1 := [1; 2]%Z]> (<[2 := [1]%Z]> ∅)))
      (<["A" := ["B"; "C"]]> (<["B" := ["A"; "C"]]> (<["C" := ["A"; "B"]]> ∅)))
      AC3.all_different.



End AC3Objects.



(** ** [csp_backtracking.py] *)

(** [d[k] = v] on a dictionary that keeps its keys in insertion order. *)
Fixpoint dict_set {K V} `{EqDecision K} (k : K) (v : V) (d : list (K * V)) : list (K * V) :=
  match d with
  | [] => [(k, v)]
  | (k', v') :: d' =>
      if decide (k' = k) then (k, v) :: d' else (k', v') :: dict_set k v d'
  end.

(** [min(l, key=...)] over the elements paired with their keys: the first
    element whose key no other undercuts. *)
Fixpoint min_by_key {A} (best : A * nat) (l : list (A * nat)) : A :=
  match l with
  | [] => best.1
  | x :: l' => min_by_key (if x.2 <? best.2 then x else best) l'
  end.

(** [csp.domains] as a map from variables to lists, a list to each
    variable: the program on every instance in which no two variables hold
    the same list object.  [BacktrackingObjects] below is the program on
    all instances. *)
Module Backtracking.
Section backtracking.
Context {Var : Type} {Var_eq : EqDecision Var} {Var_count : Countable Var}.

(** Values are integers, ordered by [list.sort]. *)
Record CSP := Csp {
  variables : list Var;
  domains : gmap Var (list Z);
  constraints : list (Var * Var);
  neighbors : gmap Var (list Var)
}.

(** [_build_neighbors] *)
Definition append_neighbor (v1 v2 : Var) : M (gmap Var (list Var)) unit :=
  n ← gets id;
  l ← subscript v1 n;
  modify (insert v1 (l ++ [v2])).

Fixpoint add_constraints (cs : list (Var * Var)) : M (gmap Var (list Var)) unit :=
  match cs with
  | [] => ret tt
  | (v1, v2) :: cs' =>
      append_neighbor v1 v2;; append_neighbor v2 v1;; add_constraints cs'
  end.

Definition empty_neighbors (vs : list Var) : gmap Var (list Var) :=
  foldl (λ n v, <[v := []]> n) ∅ vs.

Definition build_neighbors (vs : list Var) (cs : list (Var * Var))
    : outcome (gmap Var (list Var)) :=
  match add_constraints cs (empty_neighbors vs) with
  | (Ret _, n) => Ret n
  | (Raise e, _) => Raise e
  | (Timeout, _) => Timeout
  end.

(** [CSP(variables, domains, constraints)] *)
Definition new_CSP (vs : list Var) (ds : gmap Var (list Z))
    (cs : list (Var * Var)) : outcome CSP :=
  match build_neighbors vs cs with
  | Ret n => Ret (Csp vs ds cs n)
  | Raise e => Raise e
  | Timeout => Timeout
  end.

(** The two objects the search mutates: the [assignment] dictionary and
    the [csp] (its [domains]). *)
Record store := Store {
  assignment : gmap Var Z;
  csp : CSP
}.

Definition set_assignment (a : gmap Var Z) (s : store) : store :=
  {| assignment := a; csp := csp s |}.
Definition set_domain (x : Var) (d : list Z) (s : store) : store :=
  {| assignment := assignment s;
     csp := {| variables := variables (csp s);
               domains := <[x := d]> (domains (csp s));
               constraints := constraints (csp s);
               neighbors := neighbors (csp s) |} |}.

Definition get_domain (x : Var) : M store (list Z) :=
  d ← gets (λ s, domains (csp s)); subscript x d.
Definition get_neighbors (x : Var) : M store (list Var) :=
  n ← gets (λ s, neighbors (csp s)); subscript x n.

(** [[v for v in csp.variables if v not in assignment]] *)
Definition unassigned (s : store) : list Var :=
  filter (λ v, assignment s !! v = None) (variables (csp s)).

(** [select_unassigned_variable]: [key] is called on each unassigned
    variable, then the first of the least is taken. *)
Fixpoint with_keys (vs : list Var) : M store (list (Var * nat)) :=
  match vs with
  | [] => ret []
  | v :: vs' =>
      d ← get_domain v;
      rest ← with_keys vs';
      ret ((v, length d) :: rest)
  end.

Definition select_unassigned_variable : M store Var :=
  candidates ← gets unassigned;
  keyed ← with_keys candidates;
  match keyed with
  | [] => raise ValueError
  | first :: others => ret (min_by_key first others)
  end.

(** [domain_values] *)
Definition domain_values (var : Var) : M store (list Z) := get_domain var.

(** [is_consistent] *)
Definition is_consistent (var : Var) (value : Z) : M store bool :=
  ns ← get_neighbors var;
  a ← gets assignment;
  ret (forallb (λ n, negb (bool_decide (a !! n = Some value))) ns).

(** [forward_checking]; [None] is the conflict. *)
Fixpoint forward_checking_loop (value : Z) (ns : list Var)
    (removed : list (Var * list Z)) : M store (option (list (Var * list Z))) :=
  match ns with
  | [] => ret (Some removed)
  | neighbor :: ns' =>
      a ← gets assignment;
      match a !! neighbor with
      | Some _ => forward_checking_loop value ns' removed
      | None =>
          d ← get_domain neighbor;
          if bool_decide (value ∈ d) then
            match list_remove value d with
            | None => raise ValueError
            | Some d' =>
                modify (set_domain neighbor d');;
                d'' ← get_domain neighbor;
                match d'' with
                | [] => ret None
                | _ :: _ =>
                    forward_checking_loop value ns'
                      (dict_set neighbor [value] removed)
                end
            end
          else forward_checking_loop value ns' removed
      end
  end.

Definition forward_checking (var : Var) (value : Z)
    : M store (option (list (Var * list Z))) :=
  ns ← get_neighbors var;
  forward_checking_loop value ns [].

(** [remove_inference] *)
Fixpoint restore_values (neighbor : Var) (values : list Z) : M store unit :=
  match values with
  | [] => ret tt
  | val :: values' =>
      d ← get_domain neighbor;
      (if bool_decide (val ∈ d) then ret tt
       else modify (set_domain neighbor (d ++ [val])));;
      restore_values neighbor values'
  end.

Fixpoint restore_all (inferences : list (Var * list Z)) : M store unit :=
  match inferences with
  | [] => ret tt
  | (neighbor, values) :: inferences' =>
      restore_values neighbor values;;
      d ← get_domain neighbor;
      modify (set_domain neighbor (merge_sort Z.le d));;
      restore_all inferences'
  end.

Definition remove_inference (inferences : option (list (Var * list Z)))
    : M store unit :=
  match inferences with
  | None => ret tt
  | Some inferences => restore_all inferences
  end.

(** [del assignment[var]] *)
Definition del_assignment (var : Var) : M store unit :=
  a ← gets assignment;
  match a !! var with
  | None => raise KeyError
  | Some _ => modify (set_assignment (delete var a))
  end.

(** The body of the [for value in ...] loop of [backtrack], [recurse]
    being the call [backtrack(assignment, csp)]: [Some r] when the body
    executes [return r], [None] when it falls through to the next value. *)
Definition try_value (recurse : M store (option (gmap Var Z))) (var : Var)
    (value : Z) : M store (option (gmap Var Z)) :=
  ok ← is_consistent var value;
  if ok then
    a ← gets assignment;
    modify (set_assignment (<[var := value]> a));;
    inferences ← forward_checking var value;
    result ← match inferences with
             | Some _ => recurse
             | None => ret None
             end;
    match result with
    | Some r => ret (Some r)
    | None =>
        remove_inference inferences;;
        del_assignment var;;
        ret None
    end
  else ret None.

(** The loop [for value in domain_values(var, assignment, csp)].  It runs
    over the list [csp.domains[var]] as it is when the loop starts: with a
    list to each variable no iteration mutates that list (see
    [try_value_frame]: the domain of an assigned variable is neither
    pruned nor restored), so its elements are the values the loop sees;
    [BacktrackingObjects.try_values] is the loop over the list object. *)
Fixpoint try_values (recurse : M store (option (gmap Var Z))) (var : Var)
    (values : list Z) : M store (option (gmap Var Z)) :=
  match values with
  | [] => ret None
  | value :: values' =>
      r ← try_value recurse var value;
      match r with
      | Some res => ret (Some res)
      | None => try_values recurse var values'
      end
  end.

(** [backtrack]; [depth] bounds the nesting of the recursive calls. *)
Fixpoint backtrack (depth : nat) : M store (option (gmap Var Z)) :=
  match depth with
  | 0 => timeout
  | S depth' =>
      a ← gets assignment;
      vs ← gets (λ s, variables (csp s));
      if size a =? length vs then ret (Some a)
      else
        var ← select_unassigned_variable;
        values ← domain_values var;
        try_values (backtrack depth') var values
  end.

(** The part of the problem a search never writes. *)
Definition same_problem (s s' : store) : Prop :=
  variables (csp s') = variables (csp s) ∧
  constraints (csp s') = constraints (csp s) ∧
  neighbors (csp s') = neighbors (csp s).

(** Every domain of [s'] is related by [R] to the domain the same variable
    has in [s]; in particular the two stores have domains for the same
    variables. *)
Definition domains_rel (R : list Z → list Z → Prop) (s s' : store) : Prop :=
  ∀ v, option_Forall2 R (domains (csp s) !! v) (domains (csp s') !! v).

(** [d] without [value]. *)
Definition without (value : Z) (d : list Z) : list Z :=
  filter (λ x, x ≠ value) d.

(** [d] with [value] put back by [remove_inference]. *)
Definition put_back (value : Z) (d : list Z) : list Z :=
  merge_sort Z.le (if decide (value ∈ d) then d else d ++ [value]).

(** No domain lists a value twice. *)
Definition unique_values (s : store) : Prop :=
  ∀ v d, domains (csp s) !! v = Some d → NoDup d.

(** [d'] holds values of [d] only, without repetition if [d] had none. *)
Definition narrows (d d' : list Z) : Prop :=
  d' ⊆ d ∧ (NoDup d → NoDup d').

(** The domains of the assigned variables are as they were. *)
Definition assigned_kept (s s' : store) : Prop :=
  ∀ v, is_Some (assignment s !! v) →
       domains (csp s') !! v = domains (csp s) !! v.

(** What [remove_inference] may do to a domain: put back values listed
    for the variable, each at most once. *)
Definition restored (values : list Z) (d d' : list Z) : Prop :=
  (NoDup d → NoDup d') ∧ d ⊆ d' ∧ ∀ x, x ∈ d' → x ∈ d ∨ x ∈ values.

(** What a search that started in [s] and came back with [r] in [s'] may
    have done: the problem is the same, the domains of the variables it
    found assigned are untouched, the others lost values at most; a
    failure hands the assignment back as it was, a success returns the
    assignment object, grown. *)
Definition frame (s s' : store) : Prop :=
  same_problem s s' ∧ assigned_kept s s' ∧ domains_rel narrows s s'.

Definition search_post (s : store) (r : outcome (option (gmap Var Z)))
    (s' : store) : Prop :=
  frame s s' ∧
  match r with
  | Ret None => assignment s' = assignment s
  | Ret (Some res) => res = assignment s' ∧ assignment s ⊆ res
  | _ => True
  end.

(** A store the search can run on without an exception: no variable is
    listed twice, only variables are assigned, every variable has a domain
    and a neighbour list, and neighbours are variables. *)
Definition well_formed (s : store) : Prop :=
  NoDup (variables (csp s)) ∧
  (∀ v, is_Some (assignment s !! v) → v ∈ variables (csp s)) ∧
  (∀ v, v ∈ variables (csp s) → is_Some (domains (csp s) !! v)) ∧
  (∀ v, v ∈ variables (csp s) →
     ∃ ns, neighbors (csp s) !! v = Some ns ∧
           ∀ n, n ∈ ns → n ∈ variables (csp s)).

(** [u] is a neighbour of [v] whenever [v] is one of [u]. *)
Definition symmetric_neighbors (c : CSP) : Prop :=
  ∀ u v ns, neighbors c !! u = Some ns → v ∈ ns →
            ∃ ns', neighbors c !! v = Some ns' ∧ u ∈ ns'.

(** No two distinct neighbours hold the same value. *)
Definition consistent_assignment (s : store) : Prop :=
  ∀ u v ns x, neighbors (csp s) !! u = Some ns → v ∈ ns → u ≠ v →
              assignment s !! u = Some x → assignment s !! v ≠ Some x.

(** The assigned values come from the domains of [s0]. *)
Definition drawn_from (s0 s : store) : Prop :=
  ∀ v x, assignment s !! v = Some x →
         ∃ d, domains (csp s0) !! v = Some d ∧ x ∈ d.

(** A returned assignment is the assignment object, full, consistent and
    drawn from the domains the search started with. *)
Definition solved (s0 : store) (res : gmap Var Z) (s' : store) : Prop :=
  res = assignment s' ∧ consistent_assignment s' ∧ drawn_from s0 s' ∧
  size res = length (variables (csp s')) ∧
  (∀ v, is_Some (res !! v) → v ∈ variables (csp s')) ∧
  variables (csp s') = variables (csp s0).

(** A store reached from [s0] by assigning consistently. *)
Definition searchable (s0 s : store) : Prop :=
  symmetric_neighbors (csp s) ∧ consistent_assignment s ∧
  drawn_from s0 s ∧ domains_rel narrows s0 s ∧
  (∀ v, is_Some (assignment s !! v) → v ∈ variables (csp s)) ∧
  variables (csp s) = variables (csp s0).

(** Three variables, each with the other two as its neighbours (in any
    order, listed any number of times). *)
Definition triangle_shape (c : CSP) (x y z : Var) : Prop :=
  NoDup [x; y; z] ∧ length (variables c) = 3 ∧
  (∀ v, v ∈ variables c ↔ v ∈ [x; y; z]) ∧
  (∀ u, u ∈ [x; y; z] →
     ∃ ns, neighbors c !! u = Some ns ∧
           ∀ v, v ∈ ns ↔ v ∈ [x; y; z] ∧ v ≠ u).

(** The states the loop over the values of the first variable [f] of a
    triangle goes through, [values] being the values still to try, [ds0]
    and [dt0] the domains of the two other variables when the loop
    started and [ds], [dt] their domains now: nothing was lost; or no
    value is left to try; or one value [a2] is left, the other two
    variables had the same two values [a] and [b], and one of them has
    lost [b]. *)
Definition level0_inv (values ds0 dt0 ds dt : list Z) : Prop :=
  (ds ≡ₚ ds0 ∧ dt ≡ₚ dt0 ∧
   length values ≤ length ds0 ∧ length values ≤ length dt0) ∨
  values = [] ∨
  (∃ a a2 b, values = [a2] ∧ a2 ≠ a ∧ a ≠ b ∧
             ds0 ≡ₚ [a; b] ∧ dt0 ≡ₚ [a; b] ∧
             ((ds ≡ₚ [a; b] ∧ dt = [a]) ∨ (ds = [a] ∧ dt ≡ₚ [a; b]))).

(** The paths through [try_value]. *)
Definition assign (var : Var) (value : Z) (s : store) : store :=
  set_assignment (<[var := value]> (assignment s)) s.
Definition unassign (var : Var) (s : store) : store :=
  set_assignment (delete var (assignment s)) s.
Definition agrees (a : gmap Var Z) (value : Z) (ns : list Var) : bool :=
  forallb (λ n, negb (bool_decide (a !! n = Some value))) ns.

Inductive try_value_run (recurse : M store (option (gmap Var Z)))
    (var : Var) (value : Z) (s : store)
    : outcome (option (gmap Var Z)) → store → Prop :=
  | run_no_neighbors :
      neighbors (csp s) !! var = None →
      try_value_run recurse var value s (Raise KeyError) s
  | run_inconsistent ns :
      neighbors (csp s) !! var = Some ns →
      agrees (assignment s) value ns = false →
      try_value_run recurse var value s (Ret None) s
  | run_check_raises ns e s2 :
      neighbors (csp s) !! var = Some ns →
      agrees (assignment s) value ns = true →
      forward_checking var value (assign var value s) = (Raise e, s2) →
      try_value_run recurse var value s (Raise e) s2
  | run_conflict ns s2 :
      neighbors (csp s) !! var = Some ns →
      agrees (assignment s) value ns = true →
      forward_checking var value (assign var value s) = (Ret None, s2) →
      try_value_run recurse var value s (Ret None) (unassign var s2)
  | run_found ns inf s2 res s3 :
      neighbors (csp s) !! var = Some ns →
      agrees (assignment s) value ns = true →
      forward_checking var value (assign var value s) = (Ret (Some inf), s2) →
      recurse s2 = (Ret (Some res), s3) →
      try_value_run recurse var value s (Ret (Some res)) s3
  | run_undone ns inf s2 s3 s4 :
      neighbors (csp s) !! var = Some ns →
      agrees (assignment s) value ns = true →
      forward_checking var value (assign var value s) = (Ret (Some inf), s2) →
      recurse s2 = (Ret None, s3) →
      restore_all inf s3 = (Ret tt, s4) →
      try_value_run recurse var value s (Ret None) (unassign var s4)
  | run_undo_raises ns inf s2 s3 e s4 :
      neighbors (csp s) !! var = Some ns →
      agrees (assignment s) value ns = true →
      forward_checking var value (assign var value s) = (Ret (Some inf), s2) →
      recurse s2 = (Ret None, s3) →
      restore_all inf s3 = (Raise e, s4) →
      try_value_run recurse var value s (Raise e) s4
  | run_recursion_raises ns inf s2 e s3 :
      neighbors (csp s) !! var = Some ns →
      agrees (assignment s) value ns = true →
      forward_checking var value (assign var value s) = (Ret (Some inf), s2) →
      recurse s2 = (Raise e, s3) →
      try_value_run recurse var value s (Raise e) s3
  | run_recursion_times_out ns inf s2 s3 :
      neighbors (csp s) !! var = Some ns →
      agrees (assignment s) value ns = true →
      forward_checking var value (assign var value s) = (Ret (Some inf), s2) →
      recurse s2 = (Timeout, s3) →
      try_value_run recurse var value s Timeout s3.

End backtracking.
Arguments CSP : clear implicits.
Arguments CSP Var {_ _}.
Arguments store : clear implicits.
Arguments store Var {_ _}.

(** Start of a search: [backtrack({}, csp)]. *)
Definition start {Var} `{Countable Var} (c : CSP Var) : store Var := Store ∅ c.

(** Three variables, one inequality per pair. *)
Definition triangle {Var} `{Countable Var} (x y z : Var) (dx dy dz : list Z)
    : outcome (CSP Var) :=
  new_CSP [x; y; z] (<[x := dx]> (<[y := dy]> (<[z := dz]> ∅)))
          [(x, y); (x, z); (y, z)].

(** [x] constrained with [y] and with [z], which are free of each other. *)
Definition fork {Var} `{Countable Var} (x y z : Var) (dx dy dz : list Z)
    : outcome (CSP Var) :=
  new_CSP [x; y; z] (<[x := dx]> (<[y := dy]> (<[z := dz]> ∅)))
          [(x, y); (x, z)].

(** One inequality on each pair of [x], [y], [z] (written from either end,
    in any order, any number of times), and nothing else. *)
Definition one_constraint_per_pair {Var} (x y z : Var)
    (cs : list (Var * Var)) : Prop :=
  ∀ u v, ((u, v) ∈ cs ∨ (v, u) ∈ cs) ↔
         (u ∈ [x; y; z] ∧ v ∈ [x; y; z] ∧ u ≠ v).

(** [a] gives [x], [y] and [z] three distinct values of their domains, and
    no value to anything else. *)
Definition solves_triangle {Var} `{Countable Var} (x y z : Var)
    (dx dy dz : list Z) (a : gmap Var Z) : Prop :=
  ∃ cx cy cz, a = <[x := cx]> (<[y := cy]> (<[z := cz]> ∅)) ∧
              cx ∈ dx ∧ cy ∈ dy ∧ cz ∈ dz ∧ cx ≠ cy ∧ cx ≠ cz ∧ cy ≠ cz.

(** [backtrack({}, csp)] returns a solution of the triangle, or [None] when
    the triangle has none. *)
Definition complete_on {Var} `{Countable Var} (c : CSP Var) (x y z : Var)
    (dx dy dz : list Z) : Prop :=
  ∃ r st', backtrack (S (length (variables c))) (start c) = (Ret r, st') ∧
           match r with
           | Some a => solves_triangle x y z dx dy dz a
           | None => ∀ a, ¬ solves_triangle x y z dx dy dz a
           end.

(** The fork in which the only value of [X] is the only value of [Z]. *)
Definition lost : CSP string :=
  Csp ["X"; "Y"; "Z"]
      (<["X" := [1]%Z]> (<["Y" := [1; 2]%Z]> (<["Z" := [1]%Z]> ∅)))
      [("X", "Y"); ("X", "Z")]
      (<["X" := ["Y"; "Z"]]> (<["Y" := ["X"]]> (<["Z" := ["X"]]> ∅))).

(** An instance with a tie for the shortest domain. *)
Definition ties : CSP string :=
  Csp ["X"; "Y"; "Z"]
      (<["X" := [1; 2; 3]%Z]> (<["Y" := [1; 2]%Z]> (<["Z" := [4; 5]%Z]> ∅)))
      [("X", "Y"); ("X", "Z"); ("Y", "Z")]
      (<["X" := ["Y"; "Z"]]> (<["Y" := ["X"; "Z"]]> (<["Z" := ["X"; "Y"]]> ∅))).

(** The store a search ends in (the given one if the constructor raised). *)
Definition search {Var} `{Countable Var} (c : outcome (CSP Var))
    : outcome (option (gmap Var Z)) * option (store Var) :=
  match c with
  | Ret c =>
      let r := backtrack (S (length (variables c))) (start c) in (r.1, Some r.2)
  | Raise e => (Raise e, None)
  | Timeout => (Timeout, None)
  end.

End Backtracking.

(** ** [csp_backtracking.py], with the domain lists as objects *)

(** [csp.domains] maps a variable to a list object; [forward_checking] and
    [remove_inference] change that object in place ([remove], [append],
    [sort]), and the loop of [backtrack] runs over the object itself, which
    [domain_values] hands out without a copy.  Here the dictionary maps a
    variable to the identity of its list and the lists live in the store,
    so that two variables may hold one list.  (In [Backtracking] above
    every variable has a list to itself.) *)
Module BacktrackingObjects.

(** The identity of a list object. *)
Notation loc := nat.

Section backtracking.
Context {Var : Type} {Var_eq : EqDecision Var} {Var_count : Countable Var}.

Record CSP := Csp {
  variables : list Var;
  domains : gmap Var loc;
  constraints : list (Var * Var);
  neighbors : gmap Var (list Var)
}.

(** [CSP(variables, domains, constraints)] *)
Definition new_CSP (vs : list Var) (ds : gmap Var loc)
    (cs : list (Var * Var)) : outcome CSP :=
  match Backtracking.build_neighbors vs cs with
  | Ret n => Ret (Csp vs ds cs n)
  | Raise e => Raise e
  | Timeout => Timeout
  end.

(** What the search mutates: the [assignment] dictionary and the list
    objects. *)
Record store := Store {
  assignment : gmap Var Z;
  csp : CSP;
  lists : gmap loc (list Z)
}.

Definition set_assignment (a : gmap Var Z) (s : store) : store :=
  {| assignment := a; csp := csp s; lists := lists s |}.
Definition set_list (l : loc) (d : list Z) (s : store) : store :=
  {| assignment := assignment s; csp := csp s; lists := <[l := d]> (lists s) |}.

(** [csp.domains[x]]: the list object of [x]. *)
Definition get_domain (x : Var) : M store loc :=
  d ← gets (λ s, domains (csp s)); subscript x d.
Definition get_neighbors (x : Var) : M store (list Var) :=
  n ← gets (λ s, neighbors (csp s)); subscript x n.

(** The elements of the list object [l] now.  A variable never holds an
    object that is not in the store; a store made up otherwise gets the
    [KeyError] of a missing key. *)
Definition elements (l : loc) : M store (list Z) :=
  h ← gets lists; subscript l h.

(** The elements of [csp.domains[x]] now. *)
Definition read (x : Var) : M store (list Z) :=
  l ← get_domain x; elements l.

(** [csp.domains[x].remove(value)], [.append(value)] and [.sort()] *)
Definition remove_value (x : Var) (value : Z) : M store unit :=
  l ← get_domain x;
  d ← elements l;
  match list_remove value d with
  | None => raise ValueError
  | Some d' => modify (set_list l d')
  end.
Definition append_value (x : Var) (value : Z) : M store unit :=
  l ← get_domain x;
  d ← elements l;
  modify (set_list l (d ++ [value])).
Definition sort_values (x : Var) : M store unit :=
  l ← get_domain x;
  d ← elements l;
  modify (set_list l (merge_sort Z.le d)).

(** [[v for v in csp.variables if v not in assignment]] *)
Definition unassigned (s : store) : list Var :=
  filter (λ v, assignment s !! v = None) (variables (csp s)).

(** [select_unassigned_variable] *)
Fixpoint with_keys (vs : list Var) : M store (list (Var * nat)) :=
  match vs with
  | [] => ret []
  | v :: vs' =>
      d ← read v;
      rest ← with_keys vs';
      ret ((v, length d) :: rest)
  end.

Definition select_unassigned_variable : M store Var :=
  candidates ← gets unassigned;
  keyed ← with_keys candidates;
  match keyed with
  | [] => raise ValueError
  | first :: others => ret (min_by_key first others)
  end.

(** [domain_values]: the list object itself. *)
Definition domain_values (var : Var) : M store loc := get_domain var.

(** [is_consistent] *)
Definition is_consistent (var : Var) (value : Z) : M store bool :=
  ns ← get_neighbors var;
  a ← gets assignment;
  ret (forallb (λ n, negb (bool_decide (a !! n = Some value))) ns).

(** [forward_checking]; [None] is the conflict. *)
Fixpoint forward_checking_loop (value : Z) (ns : list Var)
    (removed : list (Var * list Z)) : M store (option (list (Var * list Z))) :=
  match ns with
  | [] => ret (Some removed)
  | neighbor :: ns' =>
      a ← gets assignment;
      match a !! neighbor with
      | Some _ => forward_checking_loop value ns' removed
      | None =>
          d ← read neighbor;
          if bool_decide (value ∈ d) then
            remove_value neighbor value;;
            d' ← read neighbor;
            match d' with
            | [] => ret None
            | _ :: _ =>
                forward_checking_loop value ns'
                  (dict_set neighbor [value] removed)
            end
          else forward_checking_loop value ns' removed
      end
  end.

Definition forward_checking (var : Var) (value : Z)
    : M store (option (list (Var * list Z))) :=
  ns ← get_neighbors var;
  forward_checking_loop value ns [].

(** [remove_inference] *)
Fixpoint restore_values (neighbor : Var) (values : list Z) : M store unit :=
  match values with
  | [] => ret tt
  | val :: values' =>
      d ← read neighbor;
      (if bool_decide (val ∈ d) then ret tt else append_value neighbor val);;
      restore_values neighbor values'
  end.

Fixpoint restore_all (inferences : list (Var * list Z)) : M store unit :=
  match inferences with
  | [] => ret tt
  | (neighbor, values) :: inferences' =>
      restore_values neighbor values;;
      sort_values neighbor;;
      restore_all inferences'
  end.

Definition remove_inference (inferences : option (list (Var * list Z)))
    : M store unit :=
  match inferences with
  | None => ret tt
  | Some inferences => restore_all inferences
  end.

(** [del assignment[var]] *)
Definition del_assignment (var : Var) : M store unit :=
  a ← gets assignment;
  match a !! var with
  | None => raise KeyError
  | Some _ => modify (set_assignment (delete var a))
  end.

(** The body of the [for value in ...] loop of [backtrack], [recurse]
    being the call [backtrack(assignment, csp)]: [Some r] when the body
    executes [return r], [None] when it falls through to the next value. *)
Definition try_value (recurse : M store (option (gmap Var Z))) (var : Var)
    (value : Z) : M store (option (gmap Var Z)) :=
  ok ← is_consistent var value;
  if ok then
    a ← gets assignment;
    modify (set_assignment (<[var := value]> a));;
    inferences ← forward_checking var value;
    result ← match inferences with
             | Some _ => recurse
             | None => ret None
             end;
    match result with
    | Some r => ret (Some r)
    | None =>
        remove_inference inferences;;
        del_assignment var;;
        ret None
    end
  else ret None.

(** The loop [for value in domain_values(var, assignment, csp)] over the
    list object [l]: the iterator holds an index, and each round takes the
    element the list has at that index then, until the index is past the
    end of the list as it is then.  [rounds] bounds the number of
    rounds. *)
Fixpoint try_values (rounds : nat) (recurse : M store (option (gmap Var Z)))
    (var : Var) (l : loc) (index : nat) : M store (option (gmap Var Z)) :=
  match rounds with
  | 0 => timeout
  | S rounds' =>
      d ← elements l;
      match d !! index with
      | None => ret None
      | Some value =>
          r ← try_value recurse var value;
          match r with
          | Some res => ret (Some res)
          | None => try_values rounds' recurse var l (S index)
          end
      end
  end.

(** [backtrack]; [depth] bounds the nesting of the recursive calls.  A
    list is never longer during the loop than when the loop starts (an
    undo appends what its own pruning took, and only when it is absent),
    so the loop gets one round per element and one to find the end. *)
Fixpoint backtrack (depth : nat) : M store (option (gmap Var Z)) :=
  match depth with
  | 0 => timeout
  | S depth' =>
      a ← gets assignment;
      vs ← gets (λ s, variables (csp s));
      if size a =? length vs then ret (Some a)
      else
        var ← select_unassigned_variable;
        l ← domain_values var;
        d ← elements l;
        try_values (S (length d)) (backtrack depth') var l 0
  end.

(** The elements under a variable. *)
Definition domain (s : store) (x : Var) : option (list Z) :=
  domains (csp s) !! x ≫= λ l, lists s !! l.

(** The store with one list per variable. *)
Definition flat (s : store) : Backtracking.store Var :=
  Backtracking.Store (assignment s)
    (Backtracking.Csp (variables (csp s))
       (omap (λ l, lists s !! l) (domains (csp s)))
       (constraints (csp s)) (neighbors (csp s))).

(** No two variables hold the same list object. *)
Definition separate (s : store) : Prop :=
  ∀ x y l, domains (csp s) !! x = Some l → domains (csp s) !! y = Some l →
           x = y.

(** [m'] does on the store with a list per variable what [m] does on
    [s], and [m] leaves the problem alone. *)
Definition sim {A} (s : store) (m : M store A)
    (m' : M (Backtracking.store Var) A) : Prop :=
  m' (flat s) = ((m s).1, flat (m s).2) ∧ csp (m s).2 = csp s.

End backtracking.
Arguments CSP : clear implicits.
Arguments CSP Var {_ _}.
Arguments store : clear implicits.
Arguments store Var {_ _}.

(** Start of a search: [backtrack({}, csp)], with the list objects [h]. *)
Definition start {Var} `{Countable Var} (c : CSP Var)
    (h : gmap loc (list Z)) : store Var := Store ∅ c h.

(** The triangle in which [Y] and [Z] were given one list:
    [L = [1, 3]; CSP(['X', 'Y', 'Z'], {'X': [1, 2], 'Y': L, 'Z': L}, ...)]. *)
Definition shared_lists : gmap loc (list Z) :=
  <[0 := [1; 2]%Z]> (<[1 := [1; 3]%Z]> ∅).
Definition shared_triangle : CSP string :=
  Csp ["X"; "Y"; "Z"]
      (<["X" := 0]> (<["Y" := 1]> (<["Z" := 1]> ∅)))
      [("X", "Y"); ("X", "Z"); ("Y", "Z")]
      (<["X" := ["Y"; "Z"]]> (<["Y" := ["X"; "Z"]]> (<["Z" := ["X"; "Y"]]> ∅))).

(** The same triangle with a list [[1, 3]] for [Y] and another for [Z]. *)
Definition separate_lists : gmap loc (list Z) :=
  <[0 := [1; 2]%Z]> (<[1 := [1; 3]%Z]> (<[2 := [1; 3]%Z]> ∅)).
Definition separate_triangle : CSP string :=
  Csp ["X"; "Y"; "Z"]
      (<["X" := 0]> (<["Y" := 1]> (<["Z" := 2]> ∅)))
      [("X", "Y"); ("X", "Z"); ("Y", "Z")]
      (<["X" := ["Y"; "Z"]]> (<["Y" := ["X"; "Z"]]> (<["Z" := ["X"; "Y"]]> ∅))).

End BacktrackingObjects.

(** ** Solutions of an AC-3 instance *)

(** [a] picks for every variable a value of its domain, and the predicate
    holds between any two neighbouring variables, asked from either end. *)
Definition ac3_solution {Var Val} `{Countable Var} (c : AC3.csp Var Val)
    (a : Var → Val) : Prop :=
  (∀ v d, AC3.domains c !! v = Some d → a v ∈ d) ∧
  (∀ xi xj, AC3.is_arc c xi xj →
     AC3.constraints c xi (a xi) xj (a xj) = true ∧
     AC3.constraints c xj (a xj) xi (a xi) = true).

(** A = 1, B = 2, C = 3 on the module-level instance. *)
Definition chain (v : string) : Z :=
  if decide (v = "A") then 1%Z else if decide (v = "B") then 2%Z else 3%Z.

(** Two neighbours without any value. *)
Definition hollow : AC3.csp string Z :=
  AC3.Csp ["A"; "B"] (<["A" := []]> (<["B" := []]> ∅))
          (<["A" := ["B"]]> (<["B" := ["A"]]> ∅)) AC3.all_different.

(** A variable that the neighbour mapping does not know. *)
Definition orphan : AC3.csp string Z :=
  AC3.Csp ["A"; "B"] (<["A" := [1]%Z]> (<["B" := [1]%Z]> ∅))
          (<["A" := ["B"]]> ∅) AC3.all_different.

(** ** The neighbour lists of a constraint list *)

(** What [_build_neighbors] appends to the list of [u], constraint after
    constraint: the other end of every pair that names [u], both ends of a
    pair of [u] with itself. *)
Definition neighbors_of {Var} `{EqDecision Var} (u : Var)
    (cs : list (Var * Var)) : list Var :=
  flat_map (λ p, (if decide (p.1 = u) then [p.2] else []) ++
                 (if decide (p.2 = u) then [p.1] else [])) cs.

(** ** [solve_sudoku] *)

Module Sudoku.

(** A cell [(i, j)], and a grid as a list of rows. *)
Notation cell := (nat * nat)%type.
Notation grid := (list (list Z)).

(** How a call ends: with a filled grid, with [None], with the
    [IndexError] of a list subscript, with an exception of the solver, or
    with the search out of depth. *)
Inductive ending :=
  | Solved (result : grid)
  | Unsolved
  | IndexError
  | Raised (e : exn)
  | OutOfDepth.

(** [range(a, b)] *)
Definition range (a b : nat) : list nat := seq a (b - a).

(** [[(i, j) for i in range(9) for j in range(9)]] *)
Definition variables : list cell :=
  flat_map (λ i, (λ j, (i, j)) <$> range 0 9) (range 0 9).

(** [grid[i][j]] for indices that are not negative; [None] is the
    [IndexError]. *)
Definition entry (g : grid) (i j : nat) : option Z :=
  match g !! i with
  | Some row => row !! j
  | None => None
  end.

(** The domain of a cell that holds [x]: [[x]], or [list(range(1, 10))]
    for 0. *)
Definition initial_domain (x : Z) : list Z :=
  if decide (x = 0%Z) then Z.of_nat <$> range 1 10 else [x].

(** The two loops that fill [domains]; they visit the cells in the order
    of [variables]. *)
Fixpoint domains_loop (g : grid) (cells : list cell)
    (domains : gmap cell (list Z)) : option (gmap cell (list Z)) :=
  match cells with
  | [] => Some domains
  | (i, j) :: cells' =>
      match entry g i j with
      | Some x => domains_loop g cells' (<[(i, j) := initial_domain x]> domains)
      | None => None
      end
  end.

Definition domains (g : grid) : option (gmap cell (list Z)) :=
  domains_loop g variables ∅.

(** The pairs of a row and of a column, appended in turn. *)
Definition row_column_constraints : list (cell * cell) :=
  flat_map (λ i,
    flat_map (λ j1,
      flat_map (λ j2, [((i, j1), (i, j2)); ((j1, i), (j2, i))])
               (range (j1 + 1) 9))
      (range 0 9))
    (range 0 9).

(** [[(box_i + di, box_j + dj) for di in range(3) for dj in range(3)]] *)
Definition box (box_i box_j : nat) : list cell :=
  flat_map (λ di, (λ dj, (box_i + di, box_j + dj)) <$> range 0 3) (range 0 3).

(** The pairs [(cells[k1], cells[k2])] with [k1 < k2]; both subscripts are
    below [len(cells)]. *)
Definition pairs (cells : list cell) : list (cell * cell) :=
  flat_map (λ k1,
    flat_map (λ k2,
      match cells !! k1, cells !! k2 with
      | Some c1, Some c2 => [(c1, c2)]
      | _, _ => []
      end)
      (range (k1 + 1) (length cells)))
    (range 0 (length cells)).

(** The box loops, over [range(0, 9, 3)]. *)
Definition box_constraints : list (cell * cell) :=
  flat_map (λ box_i, flat_map (λ box_j, pairs (box box_i box_j)) [0; 3; 6])
           [0; 3; 6].

Definition constraints : list (cell * cell) :=
  row_column_constraints ++ box_constraints.

(** [[[0] * 9 for _ in range(9)]] *)
Definition blank : grid := replicate 9 (replicate 9 0%Z).

(** [result[i][j] = val]; [None] is the [IndexError]. *)
Definition set_entry (i j : nat) (val : Z) (result : grid) : option grid :=
  match result !! i with
  | Some row =>
      if decide (j < length row) then Some (<[i := <[j := val]> row]> result)
      else None
  | None => None
  end.

(** [for (i, j), val in solution.items(): result[i][j] = val].  The items
    name each cell once, so their order does not show in the result (see
    [fill_spec], which holds for the items in any order). *)
Fixpoint fill (items : list (cell * Z)) (result : grid) : option grid :=
  match items with
  | [] => Some result
  | ((i, j), val) :: items' =>
      match set_entry i j val result with
      | Some result' => fill items' result'
      | None => None
      end
  end.

(** [solve_sudoku]; the search may nest one call per cell and one more. *)
Definition solve_sudoku (g : grid) : ending :=
  match domains g with
  | None => IndexError
  | Some ds =>
      match Backtracking.new_CSP variables ds constraints with
      | Raise e => Raised e
      | Timeout => OutOfDepth
      | Ret csp =>
          match (Backtracking.backtrack (S (length variables))
                   (Backtracking.start csp)).1 with
          | Raise e => Raised e
          | Timeout => OutOfDepth
          | Ret None => Unsolved
          | Ret (Some solution) =>
              match fill (map_to_list solution) blank with
              | Some result => Solved result
              | None => IndexError
              end
          end
      end
  end.

(** Two cells of one row, one column or one box. *)
Definition same_unit (u v : cell) : Prop :=
  u.1 = v.1 ∨ u.2 = v.2 ∨ (u.1 / 3 = v.1 / 3 ∧ u.2 / 3 = v.2 / 3).
Global Instance same_unit_dec u v : Decision (same_unit u v).
Proof. unfold same_unit. apply _. Defined.

(** Nine rows of nine entries. *)
Definition nine_by_nine (g : grid) : Prop :=
  length g = 9 ∧ Forall (λ row, length row = 9) g.

End Sudoku.

(** * Part II: properties *)

(** ** Generic facts on lists and maps *)

Section list_facts.
Context {A : Type} `{EqDecision A}.

Lemma list_remove_sublist (x : A) (l l' : list A) :
  list_remove x l = Some l' → sublist l' l ∧ length l = S (length l').
Proof.
  revert l'. induction l as [|y l IH]; intros l'; simpl; [done|].
  case_decide as Hy.
  - intros [= <-]. split; [by apply sublist_cons|done].
  - destruct (list_remove x l) as [l''|] eqn:E; simpl; [|done].
    intros [= <-]. destruct (IH _ eq_refl) as [Hs Hl].
    split; [by apply sublist_skip|simpl; lia].
Qed.

Lemma list_remove_elem_of (x : A) (l : list A) :
  x ∈ l → is_Some (list_remove x l).
Proof.
  induction l as [|y l IH]; simpl; [by intros ?%elem_of_nil|].
  intros Hx. case_decide; [done|].
  apply elem_of_cons in Hx as [->|Hx]; [done|].
  destruct (IH Hx) as [l' ->]. done.
Qed.


End list_facts.

Section map_facts.
Context {K : Type} {K_eq : EqDecision K} {K_count : Countable K} {A : Type}.

Lemma total_length_insert (m : gmap K (list A)) k d d' :
  m !! k = Some d →
  total_length (<[k := d']> m) + length d = total_length m + length d'.
Proof.
  intros Hk. unfold total_length.
  rewrite <-(insert_delete_eq m k d').
  rewrite (map_fold_delete_L _ _ k d m); [|intros; lia|done].
  rewrite map_fold_insert_L; [lia|intros; lia|apply lookup_delete_eq].
Qed.

Lemma max_length_lookup (m : gmap K (list A)) k d :
  m !! k = Some d → length d ≤ max_length m.
Proof.
  intros Hk. unfold max_length.
  rewrite (map_fold_delete_L _ _ k d m); [lia|intros; lia|done].
Qed.
End map_facts.

(** ** AC-3 *)

Module AC3Theory.
Import AC3.
Section theory.
Context {Var : Type} {Var_eq : EqDecision Var} {Var_count : Countable Var}.
Context {Val : Type} {Val_eq : EqDecision Val}.
Implicit Types (c : csp Var Val) (xi xj xk : Var) (x y : Val).
Implicit Types (d : list Val) (q : list (Var * Var)).


Lemma get_domain_eq xi c :
  get_domain xi c =
    match domains c !! xi with
    | Some d => (Ret d, c)
    | None => (Raise KeyError, c)
    end.
Proof.
  unfold get_domain, bind, gets, subscript. by destruct (domains c !! xi).
Qed.

Lemma get_neighbors_eq xi c :
  get_neighbors xi c =
    match neighbors c !! xi with
    | Some ns => (Ret ns, c)
    | None => (Raise KeyError, c)
    end.
Proof.
  unfold get_neighbors, bind, gets, subscript. by destruct (neighbors c !! xi).
Qed.

(** [shrinks c c']: [c'] is [c] with some domains replaced by subsequences. *)
Lemma shrinks_refl c : shrinks c c.
Proof.
  repeat split; try done. intros v d ->. eauto.
Qed.

Lemma shrinks_trans c1 c2 c3 : shrinks c1 c2 → shrinks c2 c3 → shrinks c1 c3.
Proof.
  intros (Hv & Hn & Hp & Hd & Hs) (Hv' & Hn' & Hp' & Hd' & Hs').
  repeat split; try congruence.
  intros v d Hx. destruct (Hs _ _ Hx) as (d2 & Hx2 & Hs2).
  destruct (Hs' _ _ Hx2) as (d3 & Hx3 & Hs3).
  exists d3. split; [done|]. by etrans.
Qed.

Lemma existsb_support c xi xj dj x :
  existsb (λ y, constraints c xi x xj y) dj = true ↔ has_support c xi xj dj x.
Proof.
  unfold has_support. rewrite existsb_exists, Exists_exists.
  by setoid_rewrite list_elem_of_In.
Qed.

Lemma remove_value_eq xi x c :
  remove_value xi x c =
    match domains c !! xi with
    | None => (Raise KeyError, c)
    | Some d =>
        match list_remove x d with
        | None => (Raise ValueError, c)
        | Some d' => (Ret tt, set_domains c (<[xi := d']> (domains c)))
        end
    end.
Proof.
  unfold remove_value, bind. rewrite get_domain_eq.
  destruct (domains c !! xi) as [d|]; [|done].
  by destruct (list_remove x d).
Qed.

Lemma shrinks_remove c xi d d' :
  domains c !! xi = Some d → sublist d' d →
  shrinks c (set_domains c (<[xi := d']> (domains c))).
Proof.
  intros Hxi Hsub. repeat split; simpl.
  - rewrite dom_insert_L. apply elem_of_dom_2 in Hxi.
    apply set_eq. intros v. rewrite elem_of_union, elem_of_singleton.
    split; [by intros [->|?]|by right].
  - intros v l Hx. destruct (decide (v = xi)) as [->|Hne].
    + rewrite lookup_insert_eq. exists d'. split; [done|congruence].
    + rewrite lookup_insert_ne by done. eauto.
Qed.

(** What one run of the loop of [revise] does to the store, whatever the
    arc and whether or not it raises. *)
Lemma revise_loop_frame xi xj copy b c r c' :
  revise_loop xi xj copy b c = (r, c') →
  shrinks c c' ∧
  (∀ v : Var, v ≠ xi → domains c' !! v = domains c !! v) ∧
  (r = Ret false → b = false ∧ c' = c) ∧
  (r = Ret true →
   b = true ∨ total_length (domains c') < total_length (domains c)) ∧
  total_length (domains c') ≤ total_length (domains c).
Proof.
  revert b c. induction copy as [|x rest IH]; intros b c; simpl.
  - intros [= <- <-]. split; [apply shrinks_refl|].
    repeat split; try done; try congruence.
    intros [= ->]. by left.
  - unfold bind at 1. rewrite get_domain_eq.
    destruct (domains c !! xj) as [dj|] eqn:Hj.
    2: { intros [= <- <-]. split; [apply shrinks_refl|]. by repeat split. }
    unfold bind at 1, gets at 1.
    destruct (existsb _ dj); [by apply IH|].
    unfold bind at 1. rewrite remove_value_eq.
    destruct (domains c !! xi) as [di|] eqn:Hi.
    2: { intros [= <- <-]. split; [apply shrinks_refl|]. by repeat split. }
    destruct (list_remove x di) as [di'|] eqn:Hrm.
    2: { intros [= <- <-]. split; [apply shrinks_refl|]. by repeat split. }
    apply list_remove_sublist in Hrm as [Hsub Hlen].
    intros Hrun. apply IH in Hrun as (Hsh & Hfr & Hf & Ht & Hle).
    pose proof (total_length_insert (domains c) xi di di' Hi) as Htot.
    simpl in *.
    split; [eapply shrinks_trans; [by eapply shrinks_remove|done]|].
    split; [intros y Hy; rewrite Hfr by done; by rewrite lookup_insert_ne|].
    split; [intros ->; by destruct Hf|].
    split; [intros _; right; lia|lia].
Qed.

Lemma revise_frame xi xj c r c' :
  revise xi xj c = (r, c') →
  shrinks c c' ∧
  (∀ v : Var, v ≠ xi → domains c' !! v = domains c !! v) ∧
  (r = Ret false → c' = c) ∧
  (r = Ret true → total_length (domains c') < total_length (domains c)) ∧
  total_length (domains c') ≤ total_length (domains c).
Proof.
  unfold revise, bind. rewrite get_domain_eq.
  destruct (domains c !! xi) as [di|] eqn:Hi.
  2: { intros [= <- <-]. split; [apply shrinks_refl|]. by repeat split. }
  intros (Hsh & Hfr & Hf & Ht & Hle)%revise_loop_frame.
  split; [done|]. split; [done|]. split; [intros Hr; by destruct (Hf Hr)|].
  split; [|done]. intros Hr. by destruct (Ht Hr).
Qed.


Lemma revise_loop_no_timeout xi xj copy b c :
  (revise_loop xi xj copy b c).1 ≠ Timeout.
Proof.
  revert b c. induction copy as [|x rest IH]; intros b c; cbn [revise_loop].
  - done.
  - unfold bind at 1. rewrite get_domain_eq.
    destruct (domains c !! xj) as [dj|]; [|done].
    unfold bind at 1, gets at 1. destruct (existsb _ dj); [apply IH|].
    unfold bind at 1. rewrite remove_value_eq.
    destruct (domains c !! xi) as [di|]; [|done].
    destruct (list_remove x di); [apply IH|done].
Qed.

Lemma revise_no_timeout xi xj c : (revise xi xj c).1 ≠ Timeout.
Proof.
  unfold revise, bind. rewrite get_domain_eq.
  destruct (domains c !! xi); [apply revise_loop_no_timeout|done].
Qed.

(** One iteration of the worklist loop. *)
Lemma ac3_body_frame xi xj rest c r c' :
  ac3_body xi xj rest c = (r, c') →
  shrinks c c' ∧ r ≠ Timeout ∧
  ∀ q', r = Ret (Continue q') →
    (q' = rest ∧ c' = c) ∨
    (total_length (domains c') < total_length (domains c) ∧
     ∃ ns, neighbors c !! xi = Some ns ∧ q' = rest ++ requeue xi xj ns).
Proof.
  unfold ac3_body, bind at 1.
  pose proof (revise_no_timeout xi xj c) as Hnt.
  destruct (revise xi xj c) as [[[]| |] c1] eqn:Hrev; simpl in Hnt.
  - apply revise_frame in Hrev as (Hsh & _ & _ & Ht & _).
    specialize (Ht eq_refl).
    unfold bind at 1. rewrite get_domain_eq.
    destruct (domains c1 !! xi) as [[|x di]|]; try by intros [= <- <-].
    unfold bind. rewrite get_neighbors_eq.
    destruct Hsh as (? & Hn & ?). rewrite Hn.
    destruct (neighbors c !! xi) as [ns|] eqn:Hns; intros [= <- <-].
    + split; [done|]. split; [done|]. intros q' [= <-]. right. eauto.
    + done.
  - apply revise_frame in Hrev as (Hsh & _ & Hf & _).
    intros [= <- <-]. split; [done|]. split; [done|].
    intros q' [= <-]. left. auto.
  - apply revise_frame in Hrev as (Hsh & _). by intros [= <- <-].
  - done.
Qed.


(** The loop never asks for more iterations than
    [length q + (1 + max degree) * total domain size]. *)
Lemma ac3_loop_terminates fuel q c :
  length q + S (max_length (neighbors c)) * total_length (domains c) ≤ fuel →
  (ac3_loop fuel q c).1 ≠ Timeout.
Proof.
  revert q c. induction fuel as [|fuel IH]; intros [|[xi xj] rest] c Hfuel;
    cbn [ac3_loop]; try done.
  { simpl in Hfuel. lia. }
  unfold bind.
  destruct (ac3_body xi xj rest c) as [[[b|q']| |] c1] eqn:Hbody;
    apply ac3_body_frame in Hbody as (Hsh & Hnt & Hq); try done.
  destruct Hsh as (_ & Hn & _).
  apply IH. rewrite Hn. simpl in Hfuel.
  destruct (Hq _ eq_refl) as [[-> ->]|(Hlt & ns & Hns & ->)]; [lia|].
  rewrite length_app. unfold requeue. rewrite length_fmap.
  pose proof (length_filter (λ xk, xk ≠ xj) ns).
  pose proof (max_length_lookup _ _ _ Hns). nia.
Qed.

Lemma arcs_of_state vs c : (arcs_of vs c).2 = c.
Proof.
  revert c. induction vs as [|xi vs IH]; intros c; cbn [arcs_of]; [done|].
  unfold bind at 1. rewrite get_neighbors_eq.
  destruct (neighbors c !! xi); [|done].
  unfold bind. specialize (IH c).
  by destruct (arcs_of vs c) as [[]?].
Qed.


Lemma ac3_eq c :
  ac3 c =
    match arcs_of (variables c) c with
    | (Ret q, _) => ac3_loop (ac3_fuel c q) q c
    | (Raise e, _) => (Raise e, c)
    | (Timeout, _) => (Timeout, c)
    end.
Proof.
  unfold ac3, bind, gets. pose proof (arcs_of_state (variables c) c) as Hst.
  destruct (arcs_of (variables c) c) as [[] ?]; simpl in Hst; by subst.
Qed.

(** The ways an iteration can come back without an exception. *)
Lemma ac3_body_cases xi xj rest c s c' :
  ac3_body xi xj rest c = (Ret s, c') →
  ∃ b, revise xi xj c = (Ret b, c') ∧
    match s with
    | Return b' => b = true ∧ b' = false ∧ domains c' !! xi = Some []
    | Continue q' =>
        if b then
          ∃ x di ns, domains c' !! xi = Some (x :: di) ∧
                     neighbors c' !! xi = Some ns ∧
                     q' = rest ++ requeue xi xj ns
        else q' = rest
    end.
Proof.
  unfold ac3_body, bind at 1.
  destruct (revise xi xj c) as [[[]| |] c1] eqn:Hrev; try done.
  - unfold bind at 1. rewrite get_domain_eq.
    destruct (domains c1 !! xi) as [[|x di]|] eqn:Hd; try done.
    + intros [= <- <-]. eauto.
    + unfold bind. rewrite get_neighbors_eq.
      destruct (neighbors c1 !! xi) as [ns|] eqn:Hns; intros [= <- <-].
      exists true. split; [done|]. eauto 6.
  - intros [= <- <-]. by exists false.
Qed.

Lemma revise_true_nonempty xi xj c c' :
  revise xi xj c = (Ret true, c') → domains c !! xi ≠ Some [].
Proof.
  unfold revise, bind. rewrite get_domain_eq. intros Hrev Hd.
  by rewrite Hd in Hrev.
Qed.

Lemma ac3_body_wipeout xi xj rest c c1 :
  revise xi xj c = (Ret true, c1) → domains c1 !! xi = Some [] →
  ac3_body xi xj rest c = (Ret (Return false), c1).
Proof.
  intros Hrev Hd. unfold ac3_body, bind. by rewrite Hrev, get_domain_eq, Hd.
Qed.

Lemma ac3_loop_result fuel q c b c' :
  ac3_loop fuel q c = (Ret b, c') →
  if b then ∀ v : Var, domains c' !! v = Some [] → domains c !! v = Some []
  else ∃ c0 xi xj, shrinks c c0 ∧ revise xi xj c0 = (Ret true, c') ∧
                   domains c' !! xi = Some [].
Proof.
  revert q c. induction fuel as [|fuel IH]; intros [|[xi xj] rest] c;
    cbn [ac3_loop]; try done; try by intros [= <- <-].
  unfold bind.
  destruct (ac3_body xi xj rest c) as [[[b'|q']| |] c1] eqn:Hbody; try done.
  - apply ac3_body_cases in Hbody as (r & Hrev & -> & -> & Hd).
    intros [= <- <-]. exists c, xi, xj. split; [apply shrinks_refl|done].
  - pose proof Hbody as (Hsh & _)%ac3_body_frame.
    apply ac3_body_cases in Hbody as (r & Hrev & Hq).
    intros Hrun. apply IH in Hrun. destruct b.
    + intros v Hv. apply Hrun in Hv.
      apply revise_frame in Hrev as (_ & Hfr & Hf & _).
      destruct r; [|by rewrite <-(Hf eq_refl)].
      destruct Hq as (x & di & ns & Hd & _).
      destruct (decide (v = xi)) as [->|Hne]; [congruence|].
      by rewrite <-Hfr.
    + destruct Hrun as (c0 & xi' & xj' & Hsh' & Hrun).
      exists c0, xi', xj'. split; [by eapply shrinks_trans|done].
Qed.


(** **** Arc consistency at the fixed point *)

Lemma revise_loop_stable xi xj copy b c :
  (∀ x, x ∈ copy →
        ∃ dj, domains c !! xj = Some dj ∧ has_support c xi xj dj x) →
  revise_loop xi xj copy b c = (Ret b, c).
Proof.
  induction copy as [|x rest IH]; intros Hsup; cbn [revise_loop]; [done|].
  destruct (Hsup x) as (dj & Hj & Hx); [by left|].
  unfold bind at 1. rewrite get_domain_eq, Hj.
  unfold bind at 1, gets at 1.
  apply existsb_support in Hx. rewrite Hx.
  apply IH. intros y Hy. apply Hsup. by right.
Qed.

Lemma revise_consistent xi xj c :
  arc_consistent c xi xj → revise xi xj c = (Ret false, c).
Proof.
  intros (di & Hi & Hsup). unfold revise, bind.
  rewrite get_domain_eq, Hi. by apply revise_loop_stable.
Qed.







Lemma is_arc_shrinks c c' a b : shrinks c c' → is_arc c a b → is_arc c' a b.
Proof. intros (_ & Hn & _). unfold is_arc. by rewrite Hn. Qed.


(** A queue of consistent arcs is emptied without touching the store. *)
Lemma ac3_loop_consistent fuel q c :
  length q ≤ fuel →
  (∀ a b, (a, b) ∈ q → arc_consistent c a b) →
  ac3_loop fuel q c = (Ret true, c).
Proof.
  revert fuel. induction q as [|[xi xj] rest IH]; intros fuel Hfuel Hq.
  { by destruct fuel. }
  destruct fuel as [|fuel]; [simpl in Hfuel; lia|].
  cbn [ac3_loop]. unfold bind at 1, ac3_body, bind at 1.
  rewrite revise_consistent by (apply Hq; by left).
  unfold ret at 1. apply IH; [simpl in Hfuel; lia|].
  intros a b Hab. apply Hq. by right.
Qed.

Lemma arcs_of_is_arc vs c q a b :
  arcs_of vs c = (Ret q, c) → (a, b) ∈ q → is_arc c a b.
Proof.
  revert q. induction vs as [|xi vs IH]; intros q; cbn [arcs_of].
  { intros [= <-]. by intros ?%elem_of_nil. }
  unfold bind at 1. rewrite get_neighbors_eq.
  destruct (neighbors c !! xi) as [ns|] eqn:Hns; [|done].
  unfold bind. pose proof (arcs_of_state vs c) as Hst.
  destruct (arcs_of vs c) as [[q'| |] c0]; simpl in Hst; subst; try done.
  intros [= <-] [Hab|Hab]%elem_of_app; [|by eapply IH].
  apply list_elem_of_fmap in Hab as (xj & [= -> ->] & Hxj).
  by exists ns.
Qed.


(** **** No exception on a well-formed instance *)

Lemma list_remove_app_cons (x : Val) (k r : list Val) :
  ∃ k', list_remove x (k ++ x :: r) = Some (k' ++ r).
Proof.
  induction k as [|y k (k' & IH)]; simpl.
  - exists []. by rewrite decide_True.
  - case_decide; [by exists (k ++ [x])%list; rewrite <-(assoc_L (++))|].
    exists (y :: k'). by rewrite IH.
Qed.

Lemma revise_loop_ret xi xj copy b c kept :
  is_Some (domains c !! xj) → domains c !! xi = Some (kept ++ copy) →
  ∃ b' c', revise_loop xi xj copy b c = (Ret b', c').
Proof.
  revert kept b c. induction copy as [|x rest IH]; intros kept b c [dj Hj] Hi;
    cbn [revise_loop]; [by eauto|].
  unfold bind at 1. rewrite get_domain_eq, Hj. unfold bind at 1, gets at 1.
  destruct (existsb _ dj).
  - apply (IH (kept ++ [x])); [by eauto|]. by rewrite <-(assoc_L (++)).
  - unfold bind at 1. rewrite remove_value_eq, Hi.
    destruct (list_remove_app_cons x kept rest) as (k' & ->).
    apply (IH k'); simpl.
    + destruct (decide (xj = xi)) as [->|Hne].
      * rewrite lookup_insert_eq. eauto.
      * rewrite lookup_insert_ne by done. eauto.
    + by rewrite lookup_insert_eq.
Qed.

Lemma revise_ret xi xj c :
  is_Some (domains c !! xi) → is_Some (domains c !! xj) →
  ∃ b c', revise xi xj c = (Ret b, c').
Proof.
  intros [di Hi] Hj. unfold revise, bind. rewrite get_domain_eq, Hi.
  by apply (revise_loop_ret xi xj di false c []).
Qed.



Lemma arcs_of_ret vs c :
  (∀ xi, xi ∈ vs → is_Some (neighbors c !! xi)) →
  ∃ q, arcs_of vs c = (Ret q, c) ∧
       ∀ a b, (a, b) ∈ q → a ∈ vs ∧ is_arc c a b.
Proof.
  induction vs as [|xi vs IH]; intros Hvs; cbn [arcs_of].
  { exists []. split; [done|]. by intros a b ?%elem_of_nil. }
  destruct (Hvs xi) as [ns Hns]; [by left|].
  destruct IH as (q & Hq & Hin); [intros; apply Hvs; by right|].
  unfold bind at 1. rewrite get_neighbors_eq, Hns. unfold bind.
  rewrite Hq. eexists. split; [done|].
  intros a b [Hab|Hab]%elem_of_app.
  - apply list_elem_of_fmap in Hab as (xj & [= -> ->] & Hxj).
    split; [by left|by exists ns].
  - destruct (Hin a b Hab). split; [by right|done].
Qed.



End theory.

(** *** The claims on AC-3 *)

Section claims.
Context {Var : Type} {Var_eq : EqDecision Var} {Var_count : Countable Var}.
Context {Val : Type} {Val_eq : EqDecision Val}.
Implicit Types (c : csp Var Val) (xi xj xk : Var) (x y : Val).



End claims.

(** **** Concrete runs *)

(** C5 (chained inequality): on the module's instance [ac3] returns [True]
    and leaves A = [1, 2], B = [2, 3], C = [2, 3]. *)
Theorem ac3_example_run :
  variables example = ["A"; "B"; "C"] ∧
  domains example =
    <["A" := [1; 2; 3]%Z]> (<["B" := [1; 2; 3]%Z]> (<["C" := [2; 3]%Z]> ∅)) ∧
  neighbors example =
    <["A" := ["B"]]> (<["B" := ["A"; "C"]]> (<["C" := ["B"]]> ∅)) ∧
  (ac3 example).1 = Ret true ∧
  domains (ac3 example).2 =
    <["A" := [1; 2]%Z]> (<["B" := [2; 3]%Z]> (<["C" := [2; 3]%Z]> ∅)).
Proof. repeat split; vm_compute; reflexivity. Qed.

End AC3Theory.

(** ** Backtracking search *)

Module BacktrackingTheory.
Import Backtracking.
Section theory.
Context {Var : Type} {Var_eq : EqDecision Var} {Var_count : Countable Var}.
Implicit Types (st : store Var) (c : CSP Var) (a : gmap Var Z).
Implicit Types (var v n : Var) (value : Z) (d : list Z).
Implicit Types (inf removed : list (Var * list Z)).

Lemma store_get_domain_eq v st :
  get_domain v st =
    match domains (csp st) !! v with
    | Some d => (Ret d, st)
    | None => (Raise KeyError, st)
    end.
Proof.
  unfold get_domain, bind, gets, subscript.
  by destruct (domains (csp st) !! v).
Qed.

Lemma store_get_neighbors_eq v st :
  get_neighbors v st =
    match neighbors (csp st) !! v with
    | Some ns => (Ret ns, st)
    | None => (Raise KeyError, st)
    end.
Proof.
  unfold get_neighbors, bind, gets, subscript.
  by destruct (neighbors (csp st) !! v).
Qed.

(** *** Relations between stores *)

Lemma same_problem_refl st : same_problem st st.
Proof. done. Qed.

Lemma same_problem_trans st1 st2 st3 :
  same_problem st1 st2 → same_problem st2 st3 → same_problem st1 st3.
Proof. intros (?&?&?) (?&?&?). repeat split; congruence. Qed.

Lemma domains_rel_refl (R : list Z → list Z → Prop) st :
  (∀ d, R d d) → domains_rel R st st.
Proof.
  intros HR v. destruct (domains (csp st) !! v); by constructor.
Qed.

Lemma domains_rel_trans (R : list Z → list Z → Prop) st1 st2 st3 :
  (∀ d1 d2 d3, R d1 d2 → R d2 d3 → R d1 d3) →
  domains_rel R st1 st2 → domains_rel R st2 st3 → domains_rel R st1 st3.
Proof.
  intros HR H12 H23 v. specialize (H12 v). specialize (H23 v).
  destruct H12; inversion H23; simplify_eq; constructor; eauto.
Qed.

Lemma domains_rel_impl (R R' : list Z → list Z → Prop) st st' :
  (∀ d d', R d d' → R' d d') → domains_rel R st st' → domains_rel R' st st'.
Proof.
  intros HR Hrel v. specialize (Hrel v). destruct Hrel; constructor; eauto.
Qed.

Lemma domains_rel_lookup (R : list Z → list Z → Prop) st st' v d :
  domains_rel R st st' → domains (csp st) !! v = Some d →
  ∃ d', domains (csp st') !! v = Some d' ∧ R d d'.
Proof.
  intros Hrel Hv. specialize (Hrel v). rewrite Hv in Hrel.
  inversion Hrel; simplify_eq. eauto.
Qed.

Lemma domains_rel_lookup_r (R : list Z → list Z → Prop) st st' v d' :
  domains_rel R st st' → domains (csp st') !! v = Some d' →
  ∃ d, domains (csp st) !! v = Some d ∧ R d d'.
Proof.
  intros Hrel Hv. specialize (Hrel v). rewrite Hv in Hrel.
  inversion Hrel; simplify_eq. eauto.
Qed.

Lemma domains_rel_set_domain (R : list Z → list Z → Prop) st v d d' :
  (∀ d, R d d) → domains (csp st) !! v = Some d → R d d' →
  domains_rel R st (set_domain v d' st).
Proof.
  intros HR Hv Hd w. simpl. destruct (decide (w = v)) as [->|Hne].
  - rewrite lookup_insert_eq, Hv. by constructor.
  - rewrite lookup_insert_ne by done.
    destruct (domains (csp st) !! w); by constructor.
Qed.

Lemma narrows_refl d : narrows d d.
Proof. done. Qed.

Lemma narrows_trans d1 d2 d3 : narrows d1 d2 → narrows d2 d3 → narrows d1 d3.
Proof. intros [? ?] [? ?]. split; [by etrans|auto]. Qed.

Lemma sublist_narrows d d' : sublist d' d → narrows d d'.
Proof.
  intros Hs. split; [by apply sublist_subseteq|]. intros ?. by eapply sublist_NoDup.
Qed.

Lemma assigned_kept_trans st1 st2 st3 :
  assignment st2 = assignment st1 →
  assigned_kept st1 st2 → assigned_kept st2 st3 → assigned_kept st1 st3.
Proof.
  intros Ha H12 H23 v Hv. rewrite H23, H12; [done..|]. by rewrite Ha.
Qed.

(** *** [select_unassigned_variable] *)

Lemma min_by_key_acc {A} (pre0 mid l : list (A * nat)) (best : A * nat) :
  Forall (λ x, best.2 < x.2) pre0 → Forall (λ x, best.2 ≤ x.2) mid →
  ∃ pre k post,
    pre0 ++ best :: mid ++ l = pre ++ (min_by_key best l, k) :: post ∧
    Forall (λ x, k < x.2) pre ∧ Forall (λ x, k ≤ x.2) post.
Proof.
  revert pre0 mid best. induction l as [|x l IH]; intros pre0 mid best Hpre Hmid.
  - exists pre0, best.2, mid. rewrite app_nil_r. by destruct best.
  - simpl. destruct (x.2 <? best.2) eqn:Hlt.
    + apply Nat.ltb_lt in Hlt.
      destruct (IH (pre0 ++ best :: mid) [] x) as (pre & k & post & Heq & ?).
      * apply Forall_app. split; [|apply Forall_cons; split].
        -- eapply Forall_impl; [done|]. simpl. lia.
        -- done.
        -- eapply Forall_impl; [done|]. simpl. lia.
      * done.
      * exists pre, k, post. split; [|done].
        rewrite <-Heq. simpl. by rewrite <-(assoc_L (++)).
    + apply Nat.ltb_ge in Hlt.
      destruct (IH pre0 (mid ++ [x]) best) as (pre & k & post & Heq & ?).
      * done.
      * apply Forall_app. split; [done|]. by apply Forall_singleton.
      * exists pre, k, post. split; [|done].
        rewrite <-Heq. by rewrite <-(assoc_L (++)).
Qed.

Lemma min_by_key_first {A} (first : A * nat) (others : list (A * nat)) :
  ∃ pre k post,
    first :: others = pre ++ (min_by_key first others, k) :: post ∧
    Forall (λ x, k < x.2) pre ∧ Forall (λ x, k ≤ x.2) post.
Proof. by apply (min_by_key_acc [] [] others first). Qed.

Lemma with_keys_state vs st : (with_keys vs st).2 = st.
Proof.
  induction vs as [|v vs IH]; cbn [with_keys]; [done|].
  unfold bind at 1. rewrite store_get_domain_eq.
  destruct (domains (csp st) !! v); [|done].
  unfold bind. by destruct (with_keys vs st) as [[] ?].
Qed.

Lemma with_keys_no_timeout vs st : (with_keys vs st).1 ≠ Timeout.
Proof.
  induction vs as [|v vs IH]; cbn [with_keys]; [done|].
  unfold bind at 1. rewrite store_get_domain_eq.
  destruct (domains (csp st) !! v); [|done].
  unfold bind. by destruct (with_keys vs st) as [[] ?].
Qed.

Lemma with_keys_ret vs st :
  (∀ v, v ∈ vs → is_Some (domains (csp st) !! v)) →
  with_keys vs st =
    (Ret ((λ v, (v, length (default [] (domains (csp st) !! v)))) <$> vs), st).
Proof.
  induction vs as [|v vs IH]; intros Hvs; cbn [with_keys]; [done|].
  unfold bind at 1. rewrite store_get_domain_eq.
  destruct (Hvs v) as [d Hd]; [by left|]. rewrite Hd.
  unfold bind. rewrite IH by (intros; apply Hvs; by right).
  by rewrite fmap_cons, Hd.
Qed.

Lemma select_unassigned_variable_eq st :
  select_unassigned_variable st =
    match with_keys (unassigned st) st with
    | (Ret [], _) => (Raise ValueError, st)
    | (Ret (first :: others), _) => (Ret (min_by_key first others), st)
    | (Raise e, _) => (Raise e, st)
    | (Timeout, _) => (Timeout, st)
    end.
Proof.
  unfold select_unassigned_variable, bind, gets.
  pose proof (with_keys_state (unassigned st) st) as Hst.
  destruct (with_keys _ st) as [[[|??]| |] ?]; simpl in Hst; by subst.
Qed.

Lemma select_unassigned_variable_spec st :
  unassigned st ≠ [] →
  (∀ v, v ∈ unassigned st → is_Some (domains (csp st) !! v)) →
  ∃ var pre post d,
    select_unassigned_variable st = (Ret var, st) ∧
    unassigned st = pre ++ var :: post ∧
    domains (csp st) !! var = Some d ∧
    (∀ u, u ∈ pre →
       ∃ du, domains (csp st) !! u = Some du ∧ length d < length du) ∧
    (∀ u, u ∈ post →
       ∃ du, domains (csp st) !! u = Some du ∧ length d ≤ length du).
Proof.
  intros Hne Hdom. rewrite select_unassigned_variable_eq.
  rewrite with_keys_ret by done.
  set (key := λ v, (v, length (default [] (domains (csp st) !! v)))).
  destruct (unassigned st) as [|u0 us] eqn:Hus; [done|]. clear Hne.
  rewrite fmap_cons.
  destruct (min_by_key_first (key u0) (key <$> us))
    as (pre & k & post & Heq & Hpre & Hpost).
  rewrite <-fmap_cons in Heq.
  apply fmap_app_inv in Heq as (pre' & rest & -> & Hrest & Hall).
  symmetry in Hrest.
  apply fmap_cons_inv in Hrest as (var & post' & Hvar & -> & ->).
  destruct (Hdom var) as [d Hd].
  { rewrite Hall. apply elem_of_app. right. by left. }
  assert (key var = (var, length d)) as Hk by (unfold key; by rewrite Hd).
  rewrite Hk in Hvar. injection Hvar as Hv ->.
  exists var, pre', post', d. rewrite Hv. split; [done|].
  split; [done|]. split; [done|].
  split; intros u Hu.
  - destruct (Hdom u) as [du Hdu].
    { rewrite Hall. apply elem_of_app. by left. }
    exists du. split; [done|].
    rewrite Forall_fmap, Forall_forall in Hpre.
    specialize (Hpre u Hu). simpl in Hpre. by rewrite Hdu in Hpre.
  - destruct (Hdom u) as [du Hdu].
    { rewrite Hall. apply elem_of_app. right. by right. }
    exists du. split; [done|].
    rewrite Forall_fmap, Forall_forall in Hpost.
    specialize (Hpost u Hu). simpl in Hpost. by rewrite Hdu in Hpost.
Qed.

Lemma with_keys_fst vs st keyed :
  (with_keys vs st).1 = Ret keyed → keyed.*1 = vs.
Proof.
  revert keyed. induction vs as [|v vs IH]; intros keyed; cbn [with_keys].
  { by intros [= <-]. }
  unfold bind at 1. rewrite store_get_domain_eq.
  destruct (domains (csp st) !! v); [|done].
  unfold bind. destruct (with_keys vs st) as [[keyed'| |] ?]; try done.
  simpl. intros [= <-]. rewrite fmap_cons. simpl. f_equal. by apply IH.
Qed.

Lemma select_unassigned_variable_ret st var st' :
  select_unassigned_variable st = (Ret var, st') →
  st' = st ∧ var ∈ unassigned st.
Proof.
  rewrite select_unassigned_variable_eq.
  destruct (with_keys (unassigned st) st) as [[[|first others]| |] st1] eqn:Hk;
    try done.
  intros [= <- <-]. split; [done|].
  apply (f_equal fst) in Hk. apply with_keys_fst in Hk. rewrite <-Hk.
  destruct (min_by_key_first first others) as (pre & k & post & -> & _).
  rewrite fmap_app, fmap_cons. simpl. apply elem_of_app. right. by left.
Qed.

Lemma select_unassigned_variable_no_timeout st :
  (select_unassigned_variable st).1 ≠ Timeout.
Proof.
  rewrite select_unassigned_variable_eq.
  pose proof (with_keys_no_timeout (unassigned st) st).
  by destruct (with_keys (unassigned st) st) as [[[|??]| |] ?].
Qed.

Lemma unassigned_length st :
  length (unassigned st) ≤ length (variables (csp st)).
Proof. apply length_filter. Qed.

Lemma elem_of_unassigned st v :
  v ∈ unassigned st ↔ assignment st !! v = None ∧ v ∈ variables (csp st).
Proof. unfold unassigned. by rewrite list_elem_of_filter. Qed.

(** *** [is_consistent], [forward_checking], [remove_inference] *)

Lemma is_consistent_eq var value st :
  is_consistent var value st =
    match neighbors (csp st) !! var with
    | Some ns =>
        (Ret (forallb (λ n, negb (bool_decide (assignment st !! n = Some value)))
                      ns), st)
    | None => (Raise KeyError, st)
    end.
Proof.
  unfold is_consistent, bind at 1. rewrite store_get_neighbors_eq.
  by destruct (neighbors (csp st) !! var).
Qed.

Lemma dict_set_elem_of {V} (k n : Var) (x w : V) (l : list (Var * V)) :
  (n, w) ∈ dict_set k x l → (n, w) = (k, x) ∨ (n, w) ∈ l.
Proof.
  induction l as [|[k' x'] l IH]; simpl.
  - intros ?%list_elem_of_singleton. by left.
  - case_decide; rewrite !elem_of_cons; [tauto|].
    intros [?|?]; [by auto|]. destruct IH; auto.
Qed.

Lemma forward_checking_loop_frame value ns removed st r st' :
  forward_checking_loop value ns removed st = (r, st') →
  assignment st' = assignment st ∧ same_problem st st' ∧
  assigned_kept st st' ∧ domains_rel (λ d d', sublist d' d) st st' ∧
  r ≠ Timeout ∧
  ∀ inf, r = Ret (Some inf) →
    ∀ n vals, (n, vals) ∈ inf →
      (n, vals) ∈ removed ∨
      (vals = [value] ∧ assignment st !! n = None ∧
       ∃ d, domains (csp st) !! n = Some d ∧ value ∈ d).
Proof.
  revert removed st. induction ns as [|n0 ns IH]; intros removed st;
    cbn [forward_checking_loop].
  { intros [= <- <-]. repeat split; try done.
    - by apply domains_rel_refl.
    - intros inf [= <-]. auto. }
  assert (assignment st = assignment st ∧ same_problem st st ∧
          assigned_kept st st ∧ domains_rel (λ d d', sublist d' d) st st)
    as Hrefl.
  { repeat split; try done. by apply domains_rel_refl. }
  unfold bind at 1, gets at 1.
  destruct (assignment st !! n0) eqn:Ha; [apply IH|].
  unfold bind at 1. rewrite store_get_domain_eq.
  destruct (domains (csp st) !! n0) as [d|] eqn:Hd.
  2: { intros [= <- <-]. destruct Hrefl as (?&?&?&?). by repeat split. }
  case_bool_decide as Hin; [|apply IH].
  destruct (list_remove value d) as [d'|] eqn:Hrm.
  2: { intros [= <- <-]. destruct Hrefl as (?&?&?&?). by repeat split. }
  apply list_remove_sublist in Hrm as [Hsub _].
  unfold bind at 1, modify at 1. unfold bind at 1.
  rewrite store_get_domain_eq. cbn [set_domain csp domains].
  rewrite lookup_insert_eq.
  assert (assignment (set_domain n0 d' st) = assignment st ∧
          same_problem st (set_domain n0 d' st) ∧
          assigned_kept st (set_domain n0 d' st) ∧
          domains_rel (λ d d', sublist d' d) st (set_domain n0 d' st))
    as (Ha1 & Hp1 & Hk1 & Hr1).
  { repeat split; try done.
    - intros v [x Hv]. simpl. rewrite lookup_insert_ne; [done|congruence].
    - by eapply domains_rel_set_domain. }
  destruct d' as [|x d'].
  { intros [= <- <-]. by repeat split. }
  intros (Ha2 & Hp2 & Hk2 & Hr2 & Hnt & Hinf)%IH.
  split; [congruence|]. split; [by eapply same_problem_trans|].
  split; [exact (assigned_kept_trans _ _ _ Ha1 Hk1 Hk2)|].
  split; [eapply domains_rel_trans; [|done..]; intros; by etrans|].
  split; [done|]. intros inf Hr n vals Hnv.
  destruct (Hinf inf Hr n vals Hnv) as [Hset|(-> & Hn & d1 & Hd1 & Hv1)].
  - apply dict_set_elem_of in Hset as [[= -> ->]|?]; [|by left].
    right. eauto.
  - right. split; [done|]. split; [by rewrite <-Ha1|].
    destruct (domains_rel_lookup_r _ _ _ _ _ Hr1 Hd1) as (d0 & Hd0 & Hs).
    exists d0. split; [done|]. by eapply sublist_subseteq.
Qed.

Lemma forward_checking_frame var value st r st' :
  forward_checking var value st = (r, st') →
  assignment st' = assignment st ∧ same_problem st st' ∧
  assigned_kept st st' ∧ domains_rel (λ d d', sublist d' d) st st' ∧
  r ≠ Timeout ∧
  ∀ inf, r = Ret (Some inf) →
    ∀ n vals, (n, vals) ∈ inf →
      vals = [value] ∧ assignment st !! n = None ∧
      ∃ d, domains (csp st) !! n = Some d ∧ value ∈ d.
Proof.
  unfold forward_checking, bind. rewrite store_get_neighbors_eq.
  destruct (neighbors (csp st) !! var) as [ns|].
  - intros (?&?&?&?&?&Hinf)%forward_checking_loop_frame.
    do 5 (split; [done|]). intros inf Hr n vals Hnv.
    by destruct (Hinf inf Hr n vals Hnv) as [?%elem_of_nil|].
  - intros [= <- <-]. do 3 (split; [done|]).
    split; [by apply domains_rel_refl|done].
Qed.

Lemma restored_refl values d : restored values d d.
Proof. split; [done|]. split; [done|]. by left. Qed.

Lemma restore_values_frame n values st r st' :
  restore_values n values st = (r, st') →
  assignment st' = assignment st ∧ same_problem st st' ∧
  (∀ v, v ≠ n → domains (csp st') !! v = domains (csp st) !! v) ∧
  r ≠ Timeout ∧ domains_rel (restored values) st st'.
Proof.
  revert st. induction values as [|val values IH]; intros st;
    cbn [restore_values].
  { intros [= <- <-]. do 4 (split; [done|]).
    apply domains_rel_refl, restored_refl. }
  unfold bind at 1. rewrite store_get_domain_eq.
  destruct (domains (csp st) !! n) as [d|] eqn:Hd.
  2: { intros [= <- <-]. do 4 (split; [done|]).
       apply domains_rel_refl, restored_refl. }
  case_bool_decide as Hin.
  - unfold bind at 1, ret at 1.
    intros (?&?&?&?&Hrel)%IH. do 4 (split; [done|]).
    eapply domains_rel_impl; [|done].
    intros d1 d2 (?&?&Hx). do 2 (split; [done|]).
    intros x [?|?]%Hx; [by left|right; by right].
  - unfold bind at 1, modify at 1.
    intros (Ha&Hp&Hfr&Hnt&Hrel)%IH. split; [done|].
    split; [done|]. split.
    { intros v Hv. rewrite Hfr by done. simpl. by rewrite lookup_insert_ne. }
    split; [done|]. intros v. specialize (Hrel v). simpl in Hrel.
    destruct (decide (v = n)) as [->|Hne].
    + rewrite lookup_insert_eq in Hrel. rewrite Hd.
      inversion Hrel as [? d2 (Hnd&Hsub&Hx)|]; simplify_eq. constructor.
      split; [|split].
      * intros Hd0. apply Hnd. apply NoDup_app. split; [done|].
        split; [|apply NoDup_singleton].
        intros x Hx1 ->%list_elem_of_singleton. done.
      * intros x Hx1. apply Hsub, elem_of_app. by left.
      * intros x [Hx'|?]%Hx; [|right; by right].
        apply elem_of_app in Hx' as [?|Hx']; [by left|].
        apply list_elem_of_singleton in Hx' as ->. right. by left.
    + rewrite lookup_insert_ne in Hrel by done.
      destruct Hrel as [d1 d2 (?&?&Hx)|]; constructor.
      do 2 (split; [done|]). intros x [?|?]%Hx; [by left|right; by right].
Qed.

Lemma restore_all_frame inf st r st' :
  restore_all inf st = (r, st') →
  assignment st' = assignment st ∧ same_problem st st' ∧
  (∀ v, v ∉ inf.*1 → domains (csp st') !! v = domains (csp st) !! v) ∧
  r ≠ Timeout ∧
  ∀ v, option_Forall2
         (λ d d', (NoDup d → NoDup d') ∧
                  ∀ x, x ∈ d' → x ∈ d ∨ ∃ vals, (v, vals) ∈ inf ∧ x ∈ vals)
         (domains (csp st) !! v) (domains (csp st') !! v).
Proof.
  revert st. induction inf as [|[n values] inf IH]; intros st;
    cbn [restore_all].
  { intros [= <- <-]. do 4 (split; [done|]). intros v.
    destruct (domains (csp st) !! v); constructor. split; [done|]. by left. }
  unfold bind at 1.
  destruct (restore_values n values st) as [r1 st1] eqn:Hrv.
  apply restore_values_frame in Hrv as (Ha1&Hp1&Hfr1&Hnt1&Hrel1).
  assert (∀ v, option_Forall2
         (λ d d', (NoDup d → NoDup d') ∧
                  ∀ x, x ∈ d' → x ∈ d ∨
                       ∃ vals, (v, vals) ∈ (n, values) :: inf ∧ x ∈ vals)
         (domains (csp st) !! v) (domains (csp st1) !! v)) as Hrel1'.
  { intros v. specialize (Hrel1 v). destruct (decide (v = n)) as [->|Hne].
    - destruct Hrel1 as [d1 d2 (?&?&Hx)|]; constructor. split; [done|].
      intros x [?|?]%Hx; [by left|]. right. exists values.
      split; [by left|done].
    - rewrite Hfr1 by done.
      destruct (domains (csp st) !! v); constructor. split; [done|]. by left. }
  assert (∀ v, v ∉ ((n, values) :: inf).*1 →
               domains (csp st1) !! v = domains (csp st) !! v) as Hfr1'.
  { intros v Hv. rewrite fmap_cons, not_elem_of_cons in Hv.
    apply Hfr1. by destruct Hv. }
  destruct r1 as [[]| |]; try (by intros [= <- <-]).
  unfold bind at 1. rewrite store_get_domain_eq.
  destruct (domains (csp st1) !! n) as [d|] eqn:Hd.
  2: { by intros [= <- <-]. }
  unfold bind at 1, modify at 1.
  intros (Ha2&Hp2&Hfr2&Hnt2&Hrel2)%IH.
  split; [simpl in Ha2; congruence|].
  split; [eapply same_problem_trans; [done|]; by destruct Hp2 as (?&?&?)|].
  split.
  { intros v Hv. rewrite fmap_cons, not_elem_of_cons in Hv.
    destruct Hv as [Hvn Hv]. simpl in Hvn.
    rewrite Hfr2 by done. simpl. rewrite lookup_insert_ne by done.
    by apply Hfr1. }
  split; [done|]. intros v. specialize (Hrel1' v). specialize (Hrel2 v).
  simpl in Hrel2. destruct (decide (v = n)) as [->|Hne].
  - rewrite lookup_insert_eq in Hrel2. rewrite Hd in Hrel1'.
    inversion Hrel1' as [d0 ? (Hnd1&Hx1)|]; simplify_eq.
    inversion Hrel2 as [? d2 (Hnd2&Hx2)|]; simplify_eq. constructor.
    split.
    + intros Hd0. apply Hnd2. rewrite merge_sort_Permutation. auto.
    + intros x [Hx|(vals&?&?)]%Hx2.
      * rewrite merge_sort_Permutation in Hx. by apply Hx1.
      * right. exists vals. split; [by right|done].
  - rewrite lookup_insert_ne in Hrel2 by done.
    destruct Hrel1' as [d0 d1 (Hnd1&Hx1)|]; inversion Hrel2 as [? d2 (Hnd2&Hx2)|];
      simplify_eq; constructor.
    split; [auto|]. intros x [Hx|(vals&?&?)]%Hx2; [by apply Hx1|].
    right. exists vals. split; [by right|done].
Qed.

Lemma remove_inference_frame inferences st r st' :
  remove_inference inferences st = (r, st') →
  assignment st' = assignment st ∧ same_problem st st' ∧ r ≠ Timeout ∧
  ∀ v, option_Forall2
         (λ d d', (NoDup d → NoDup d') ∧
                  ∀ x, x ∈ d' → x ∈ d ∨
                       ∃ inf vals, inferences = Some inf ∧
                                   (v, vals) ∈ inf ∧ x ∈ vals)
         (domains (csp st) !! v) (domains (csp st') !! v).
Proof.
  destruct inferences as [inf|]; simpl.
  - intros (?&?&?&?&Hrel)%restore_all_frame. do 3 (split; [done|]).
    intros v. specialize (Hrel v). destruct Hrel as [?? [? Hx]|]; constructor.
    split; [done|]. intros z [?|(vals&?&?)]%Hx; [by left|]. right. eauto.
  - intros [= <- <-]. do 3 (split; [done|]). intros v.
    destruct (domains (csp st) !! v); constructor. split; [done|]. by left.
Qed.

Lemma del_assignment_eq var st :
  del_assignment var st =
    match assignment st !! var with
    | Some _ => (Ret tt, set_assignment (delete var (assignment st)) st)
    | None => (Raise KeyError, st)
    end.
Proof.
  unfold del_assignment, bind, gets. by destruct (assignment st !! var).
Qed.

(** *** What a search leaves behind *)

Lemma frame_refl st : frame st st.
Proof.
  split; [done|]. split; [done|]. by apply domains_rel_refl.
Qed.

Lemma frame_trans st1 st2 st3 :
  (∀ v, is_Some (assignment st1 !! v) → is_Some (assignment st2 !! v)) →
  frame st1 st2 → frame st2 st3 → frame st1 st3.
Proof.
  intros Ha (Hp1&Hk1&Hr1) (Hp2&Hk2&Hr2).
  split; [by eapply same_problem_trans|]. split.
  - intros v Hv. rewrite Hk2, Hk1; auto.
  - eapply domains_rel_trans; [|done..]. apply narrows_trans.
Qed.

Lemma frame_set_assignment a st : frame st (set_assignment a st).
Proof.
  split; [done|]. split; [done|]. intros v. simpl.
  destruct (domains (csp st) !! v); by constructor.
Qed.

Lemma search_post_frame st1 st2 r st3 :
  frame st1 st2 → assignment st2 = assignment st1 →
  search_post st2 r st3 → search_post st1 r st3.
Proof.
  intros H12 Ha [H23 Hr]. split.
  - eapply frame_trans; [|done..]. by rewrite Ha.
  - by rewrite <-Ha.
Qed.

(** Every run of the loop body takes one of the paths of
    [try_value_run]. *)
Lemma try_value_inv recurse var value st r st' :
  (∀ s r s', recurse s = (r, s') → search_post s r s') →
  try_value recurse var value st = (r, st') →
  try_value_run recurse var value st r st'.
Proof.
  intros Hrec. unfold try_value, bind at 1. rewrite is_consistent_eq.
  destruct (neighbors (csp st) !! var) as [ns|] eqn:Hns.
  2: { intros [= <- <-]. by constructor. }
  fold (agrees (assignment st) value ns).
  destruct (agrees (assignment st) value ns) eqn:Hag.
  2: { intros [= <- <-]. by econstructor. }
  unfold bind at 1, gets at 1. unfold bind at 1, modify at 1.
  fold (assign var value st). unfold bind at 1.
  destruct (forward_checking var value (assign var value st))
    as [rfc st2] eqn:Hfc.
  pose proof Hfc as (Ha2&_&_&_&Hnt2&_)%forward_checking_frame.
  assert (assignment st2 !! var = Some value) as Hvar2.
  { rewrite Ha2. simpl. by rewrite lookup_insert_eq. }
  destruct rfc as [[inf|]|e|]; [| | |done].
  - unfold bind at 1. destruct (recurse st2) as [rr st3] eqn:Hrr.
    pose proof (Hrec _ _ _ Hrr) as [_ Hr3].
    destruct rr as [[res|]|e|].
    + intros [= <- <-]. by econstructor.
    + unfold bind at 1. cbn [remove_inference].
      destruct (restore_all inf st3) as [r4 st4] eqn:Hres.
      pose proof Hres as (Ha4&_&_&Hnt4&_)%restore_all_frame.
      destruct r4 as [[]|e|]; [| |done].
      * unfold bind at 1. rewrite del_assignment_eq.
        rewrite Ha4, Hr3, Hvar2. unfold bind, ret.
        intros [= <- <-].
        replace (set_assignment (delete var (assignment st2)) st4)
          with (unassign var st4) by (unfold unassign; congruence).
        by econstructor.
      * intros [= <- <-]. by econstructor.
    + intros [= <- <-]. by econstructor.
    + intros [= <- <-]. by econstructor.
  - unfold bind at 1, ret at 1. unfold bind at 1. cbn [remove_inference].
    unfold ret at 1. unfold bind at 1. rewrite del_assignment_eq, Hvar2.
    unfold ret. intros [= <- <-]. by econstructor.
  - intros [= <- <-]. by econstructor.
Qed.

Lemma frame_assign var value st : frame st (assign var value st).
Proof. apply frame_set_assignment. Qed.

Lemma unassign_assign var value st st' :
  assignment st !! var = None →
  assignment st' = assignment (assign var value st) →
  assignment (unassign var st') = assignment st.
Proof. intros Hvar Ha. simpl. rewrite Ha. simpl. by rewrite delete_insert_id. Qed.

Lemma assign_grows var value st v :
  assignment st !! var = None →
  is_Some (assignment st !! v) → is_Some (assignment (assign var value st) !! v).
Proof.
  intros Hvar [x Hv]. simpl. rewrite lookup_insert_ne; [eauto|congruence].
Qed.

(** Pruning, a search below, and the undo, seen from the store the value
    was tried in. *)
Lemma undo_frame var value st inf st2 st3 r4 st4 :
  assignment st !! var = None →
  forward_checking var value (assign var value st) = (Ret (Some inf), st2) →
  frame st2 st3 → assignment st3 = assignment st2 →
  restore_all inf st3 = (r4, st4) →
  frame st st4 ∧ assignment st4 = assignment (assign var value st) ∧
  domains (csp st4) !! var = domains (csp st) !! var.
Proof.
  intros Hvar Hfc Hf3 Ha3 Hres.
  apply forward_checking_frame in Hfc as (Ha2&Hp2&Hk2&Hr2&_&Hinf).
  apply restore_all_frame in Hres as (Ha4&Hp4&Hfr4&_&Hrel4).
  assert (∀ v, is_Some (assignment (assign var value st) !! v) → v ∉ inf.*1)
    as Hnotin.
  { intros v [x Hv] Hin. apply list_elem_of_fmap in Hin as ([n vals]&->&Hin).
    destruct (Hinf inf eq_refl n vals Hin) as (_&Hn&_). simpl in *.
    congruence. }
  assert (frame st st3) as (Hp3&Hk3&Hr3).
  { apply (frame_trans st (assign var value st) st3).
    { intros v. by apply assign_grows. }
    { apply frame_assign. }
    apply (frame_trans _ st2 st3); [|split; [exact Hp2|split; [exact Hk2|]]|exact Hf3].
    - intros v. by rewrite Ha2.
    - eapply domains_rel_impl; [|done]. apply sublist_narrows. }
  split; [|split; [congruence|]].
  - split; [by eapply same_problem_trans|]. split.
    + intros v Hv. rewrite Hfr4; [by apply Hk3|].
      by apply Hnotin, assign_grows.
    + intros v. specialize (Hrel4 v).
      destruct (domains (csp st) !! v) as [d|] eqn:Hd.
      * destruct (domains_rel_lookup _ _ _ _ _ Hr3 Hd)
          as (d3 & Hd3 & Hsub & Hnd).
        rewrite Hd3 in Hrel4.
        inversion Hrel4 as [? d4 [Hnd4 Hx4]|]; subst. constructor.
        split; [|auto].
        intros x [?|(vals&Hin&Hx)]%Hx4; [by apply Hsub|].
        destruct (Hinf inf eq_refl v vals Hin) as (->&_&d1&Hd1&Hv1).
        apply list_elem_of_singleton in Hx as ->.
        simpl in Hd1. congruence.
      * specialize (Hr3 v). rewrite Hd in Hr3.
        inversion Hr3 as [|Hnone Hnone']. rewrite <-Hnone' in Hrel4.
        inversion Hrel4. constructor.
  - rewrite Hfr4.
    + destruct Hf3 as (_&Hk3'&_). rewrite Hk3', Hk2; [done|..].
      * simpl. rewrite lookup_insert_eq. eauto.
      * rewrite Ha2. simpl. rewrite lookup_insert_eq. eauto.
    + apply Hnotin. simpl. rewrite lookup_insert_eq. eauto.
Qed.

Lemma pruned_frame var value st r st2 :
  assignment st !! var = None →
  forward_checking var value (assign var value st) = (r, st2) →
  frame st st2 ∧ assignment st2 = assignment (assign var value st) ∧
  domains (csp st2) !! var = domains (csp st) !! var.
Proof.
  intros Hvar (Ha2&Hp2&Hk2&Hr2&_)%forward_checking_frame.
  split; [|split; [done|]].
  - apply (frame_trans st (assign var value st) st2).
    { intros v. by apply assign_grows. }
    { apply frame_assign. }
    split; [done|]. split; [done|].
    eapply domains_rel_impl; [|done]. apply sublist_narrows.
  - rewrite Hk2; [done|]. simpl. rewrite lookup_insert_eq. eauto.
Qed.

Lemma frame_unassign var st st' : frame st st' → frame st (unassign var st').
Proof.
  intros (?&?&?). split; [done|]. split; [done|]. done.
Qed.

Lemma try_value_frame recurse var value st r st' :
  (∀ s r s', recurse s = (r, s') → search_post s r s') →
  assignment st !! var = None →
  try_value recurse var value st = (r, st') →
  search_post st r st' ∧
  domains (csp st') !! var = domains (csp st) !! var.
Proof.
  intros Hrec Hvar Hrun. apply try_value_inv in Hrun; [|done].
  destruct Hrun as [?|ns ??|ns e st2 ?? Hfc|ns st2 ?? Hfc
    |ns inf st2 res st3 ?? Hfc Hrr|ns inf st2 st3 st4 ?? Hfc Hrr Hres
    |ns inf st2 st3 e st4 ?? Hfc Hrr Hres|ns inf st2 e st3 ?? Hfc Hrr
    |ns inf st2 st3 ?? Hfc Hrr];
    try (split; [split; [apply frame_refl|done]|done]).
  - apply pruned_frame in Hfc as (?&?&?); done.
  - apply pruned_frame in Hfc as (?&?&?); [|done].
    split; [|done]. split; [by apply frame_unassign|].
    by eapply unassign_assign.
  - pose proof Hfc as (Hf2&Ha2&Hv2)%pruned_frame; [|done].
    apply Hrec in Hrr as [Hf3 [-> Hsub]].
    split.
    + split; [|split; [done|]].
      * eapply frame_trans; [|done..]. intros v Hv. rewrite Ha2.
        by apply assign_grows.
      * etrans; [|exact Hsub]. rewrite Ha2. simpl. by apply insert_subseteq.
    + destruct Hf3 as (_&Hk3&_). rewrite Hk3, Hv2; [done|].
      rewrite Ha2. simpl. rewrite lookup_insert_eq. eauto.
  - apply Hrec in Hrr as [Hf3 Ha3].
    destruct (undo_frame _ _ _ _ _ _ _ _ Hvar Hfc Hf3 Ha3 Hres) as (?&?&?).
    split; [|done]. split; [by apply frame_unassign|].
    by eapply unassign_assign.
  - apply Hrec in Hrr as [Hf3 Ha3].
    destruct (undo_frame _ _ _ _ _ _ _ _ Hvar Hfc Hf3 Ha3 Hres) as (?&?&?).
    done.
  - pose proof Hfc as (Hf2&Ha2&Hv2)%pruned_frame; [|done].
    apply Hrec in Hrr as [Hf3 _]. split.
    + split; [|done]. eapply frame_trans; [|done..]. intros v Hv.
      rewrite Ha2. by apply assign_grows.
    + destruct Hf3 as (_&Hk3&_). rewrite Hk3, Hv2; [done|].
      rewrite Ha2. simpl. rewrite lookup_insert_eq. eauto.
  - pose proof Hfc as (Hf2&Ha2&Hv2)%pruned_frame; [|done].
    apply Hrec in Hrr as [Hf3 _]. split.
    + split; [|done]. eapply frame_trans; [|done..]. intros v Hv.
      rewrite Ha2. by apply assign_grows.
    + destruct Hf3 as (_&Hk3&_). rewrite Hk3, Hv2; [done|].
      rewrite Ha2. simpl. rewrite lookup_insert_eq. eauto.
Qed.

Lemma try_values_frame recurse var values st r st' :
  (∀ s r s', recurse s = (r, s') → search_post s r s') →
  assignment st !! var = None →
  try_values recurse var values st = (r, st') →
  search_post st r st' ∧
  domains (csp st') !! var = domains (csp st) !! var.
Proof.
  intros Hrec. revert st.
  induction values as [|value values IH]; intros st Hvar;
    cbn [try_values].
  { intros [= <- <-]. split; [|done]. split; [apply frame_refl|done]. }
  unfold bind at 1.
  destruct (try_value recurse var value st) as [r1 st1] eqn:Htry.
  apply try_value_frame in Htry as [[Hf1 Hr1] Hv1]; [|done..].
  destruct r1 as [[res|]|e|]; try (intros [= <- <-]; by split).
  intros Hrun. apply IH in Hrun as [Hpost Hv']; [|congruence].
  split; [|congruence]. by eapply search_post_frame.
Qed.

Lemma backtrack_frame depth st r st' :
  backtrack depth st = (r, st') → search_post st r st'.
Proof.
  revert st r st'. induction depth as [|depth IH]; intros st r st';
    cbn [backtrack].
  { intros [= <- <-]. split; [apply frame_refl|done]. }
  unfold bind at 1, gets at 1. unfold bind at 1, gets at 1.
  destruct (_ =? _).
  { intros [= <- <-]. split; [apply frame_refl|done]. }
  unfold bind at 1.
  destruct (select_unassigned_variable st) as [rs st1] eqn:Hsel.
  destruct rs as [var|e|]; try (intros [= <- <-]).
  - apply select_unassigned_variable_ret in Hsel as [-> Hvar].
    apply elem_of_unassigned in Hvar as [Hvar _].
    unfold bind at 1, domain_values. rewrite store_get_domain_eq.
    destruct (domains (csp st) !! var) as [values|].
    + intros Hrun. by eapply try_values_frame.
    + intros [= <- <-]. split; [apply frame_refl|done].
  - rewrite select_unassigned_variable_eq in Hsel.
    destruct (with_keys (unassigned st) st) as [[[|??]| |] ?];
      injection Hsel as _ <-; split; try apply frame_refl; done.
  - by pose proof (select_unassigned_variable_no_timeout st) as Hnt;
      rewrite Hsel in Hnt.
Qed.

(** *** Pruning and undoing, value by value *)

Lemma without_notin value d : value ∉ d → without value d = d.
Proof.
  unfold without. induction d as [|y d IH]; intros Hin; [done|].
  apply not_elem_of_cons in Hin as [Hne Hin].
  rewrite filter_cons_True by done. by rewrite IH.
Qed.

Lemma list_remove_without value d :
  NoDup d → value ∈ d → list_remove value d = Some (without value d).
Proof.
  induction d as [|y d IH]; intros Hnd Hin; [by apply elem_of_nil in Hin|].
  apply NoDup_cons in Hnd as [Hy Hnd]. simpl. case_decide as Hyv.
  - subst y. unfold without. rewrite filter_cons_False by (by intros ?).
    fold (without value d). by rewrite (without_notin value d).
  - apply elem_of_cons in Hin as [->|Hin]; [done|].
    rewrite IH by done. simpl. unfold without.
    by rewrite filter_cons_True.
Qed.

Lemma elem_of_without value d x : x ∈ without value d ↔ x ≠ value ∧ x ∈ d.
Proof. unfold without. by rewrite list_elem_of_filter. Qed.

Lemma without_without value d : without value (without value d) = without value d.
Proof.
  apply without_notin. rewrite elem_of_without. by intros [? _].
Qed.

Lemma NoDup_without value d : NoDup d → NoDup (without value d).
Proof. apply NoDup_filter. Qed.

Lemma put_back_without value d :
  NoDup d → value ∈ d → put_back value (without value d) ≡ₚ d.
Proof.
  intros Hnd Hin. unfold put_back. rewrite merge_sort_Permutation.
  rewrite decide_False by (rewrite elem_of_without; by intros [? _]).
  apply NoDup_Permutation; [|done|].
  - apply NoDup_app. split; [by apply NoDup_without|].
    split; [|apply NoDup_singleton].
    intros x [? _]%elem_of_without ->%list_elem_of_singleton. done.
  - intros x. rewrite elem_of_app, elem_of_without, list_elem_of_singleton.
    destruct (decide (x = value)) as [->|]; naive_solver.
Qed.

Lemma put_back_Permutation value d d' :
  d ≡ₚ d' → put_back value d ≡ₚ put_back value d'.
Proof.
  intros Hp. unfold put_back. rewrite !merge_sort_Permutation.
  destruct (decide (value ∈ d)) as [Hin|Hin].
  - rewrite decide_True by (by rewrite <-Hp). done.
  - rewrite decide_False by (by rewrite <-Hp). by rewrite Hp.
Qed.

Lemma dict_set_fst {V} (k : Var) (x : V) (l : list (Var * V)) :
  (∀ n, n ∈ (dict_set k x l).*1 ↔ n = k ∨ n ∈ l.*1) ∧
  (NoDup l.*1 → NoDup (dict_set k x l).*1).
Proof.
  induction l as [|[k' x'] l [IHin IHnd]]; simpl.
  - split; [|intros _; apply NoDup_singleton].
    intros n. rewrite list_elem_of_singleton, elem_of_nil. tauto.
  - case_decide as Hk; simpl.
    + subst k'. split; [|done]. intros n. rewrite !elem_of_cons. tauto.
    + split.
      * intros n. rewrite !elem_of_cons, IHin. tauto.
      * rewrite !NoDup_cons. intros [Hk' Hnd]. split; [|auto].
        rewrite IHin. intros [?|?]; [congruence|done].
Qed.

(** [forward_checking] on domains without repetitions: a conflict means
    that some unassigned neighbour had the trial value as its only value;
    otherwise every unassigned neighbour lost exactly that value, and the
    record lists once each neighbour that had it. *)
Lemma forward_checking_loop_spec value ns removed st r st' :
  unique_values st →
  forward_checking_loop value ns removed st = (Ret r, st') →
  match r with
  | Some inf =>
      (∀ n, domains (csp st') !! n =
            if decide (n ∈ ns ∧ assignment st !! n = None)
            then without value <$> domains (csp st) !! n
            else domains (csp st) !! n) ∧
      (∀ n d, n ∈ ns → assignment st !! n = None →
              domains (csp st) !! n = Some d → value ∈ d →
              without value d ≠ []) ∧
      (∀ n, n ∈ inf.*1 ↔
            n ∈ removed.*1 ∨
            (n ∈ ns ∧ assignment st !! n = None ∧
             ∃ d, domains (csp st) !! n = Some d ∧ value ∈ d)) ∧
      (NoDup removed.*1 → NoDup inf.*1) ∧
      (∀ n vals, (n, vals) ∈ inf → (n, vals) ∈ removed ∨ vals = [value])
  | None =>
      ∃ n d, n ∈ ns ∧ assignment st !! n = None ∧
             domains (csp st) !! n = Some d ∧ value ∈ d ∧
             without value d = [] ∧ domains (csp st') !! n = Some []
  end.
Proof.
  revert removed st. induction ns as [|n0 ns IH]; intros removed st Hu;
    cbn [forward_checking_loop].
  { intros [= <- <-]. split; [|split; [|split; [|split]]].
    - intros n. rewrite decide_False; [done|]. by intros [?%elem_of_nil _].
    - by intros n d ?%elem_of_nil.
    - intros n. split; [by left|]. by intros [?|[?%elem_of_nil _]].
    - done.
    - by left. }
  unfold bind at 1, gets at 1.
  destruct (assignment st !! n0) as [x0|] eqn:Ha.
  { intros Hrun. specialize (IH _ _ Hu Hrun). destruct r as [inf|].
    - destruct IH as (Hd&Hne&Hin&Hnd&Hvals).
      split; [|split; [|split; [|done]]].
      + intros n. rewrite Hd. apply decide_ext.
        rewrite elem_of_cons. naive_solver.
      + intros n d [->|?]%elem_of_cons ?; [congruence|]. by apply Hne.
      + intros n. rewrite Hin, elem_of_cons. naive_solver.
    - destruct IH as (n&d&?&?&?&?&?&?). exists n, d.
      split; [by right|done]. }
  unfold bind at 1. rewrite store_get_domain_eq.
  destruct (domains (csp st) !! n0) as [d0|] eqn:Hd0; [|done].
  case_bool_decide as Hin0.
  2: { intros Hrun. specialize (IH _ _ Hu Hrun). destruct r as [inf|].
    - destruct IH as (Hd&Hne&Hin&Hnd&Hvals).
      split; [|split; [|split; [|done]]].
      + intros n. rewrite Hd. destruct (decide (n = n0)) as [->|Hn].
        * rewrite Hd0. simpl. rewrite without_notin by done.
          by repeat case_decide.
        * apply decide_ext. rewrite elem_of_cons. naive_solver.
      + intros n d [->|?]%elem_of_cons ???; [congruence|]. by eapply Hne.
      + intros n. rewrite Hin, elem_of_cons. naive_solver.
    - destruct IH as (n&d&?&?&?&?&?&?). exists n, d.
      split; [by right|done]. }
  rewrite list_remove_without by eauto.
  unfold bind at 1, modify at 1. unfold bind at 1.
  rewrite store_get_domain_eq. cbn [set_domain csp domains].
  rewrite lookup_insert_eq.
  destruct (without value d0) as [|x d1] eqn:Hw.
  { intros [= <- <-]. exists n0, d0. simpl. rewrite lookup_insert_eq.
    split; [by left|done]. }
  intros Hrun.
  assert (unique_values (set_domain n0 (x :: d1) st)) as Hu1.
  { intros v d. simpl. destruct (decide (v = n0)) as [->|Hne].
    - rewrite lookup_insert_eq. intros [= <-]. rewrite <-Hw.
      apply NoDup_without. eauto.
    - rewrite lookup_insert_ne by done. apply Hu. }
  specialize (IH _ _ Hu1 Hrun). simpl in IH. destruct r as [inf|].
  - destruct IH as (Hd&Hne&Hin&Hnd&Hvals).
    pose proof (dict_set_fst n0 [value] removed) as [Hsin Hsnd].
    split; [|split; [|split; [|split]]].
    + intros n. rewrite Hd. destruct (decide (n = n0)) as [->|Hn].
      * rewrite lookup_insert_eq, Hd0. simpl. rewrite <-Hw.
        rewrite without_without.
        rewrite (decide_True (P:=n0 ∈ n0 :: ns ∧ _)); [|split; [by left|done]].
        by case_decide.
      * rewrite lookup_insert_ne by done. apply decide_ext.
        rewrite elem_of_cons. naive_solver.
    + intros n d [->|Hn]%elem_of_cons Hna Hnd' Hv.
      * rewrite Hd0 in Hnd'. injection Hnd' as <-. by rewrite Hw.
      * destruct (decide (n = n0)) as [->|Hne'].
        { rewrite Hd0 in Hnd'. injection Hnd' as <-. by rewrite Hw. }
        apply (Hne n d); [done..| |done].
        by rewrite lookup_insert_ne.
    + intros n. rewrite Hin, Hsin. split.
      * intros [[->|?]|(Hn&Hna&d&Hd'&Hv)]; [|by left|].
        { right. split; [by left|]. eauto. }
        right. split; [by right|]. split; [done|].
        destruct (decide (n = n0)) as [->|Hne']; [by eauto|].
        rewrite lookup_insert_ne in Hd' by done. eauto.
      * intros [?|([->|Hn]%elem_of_cons&Hna&d&Hd'&Hv)];
          [left; by right|left; by left|].
        destruct (decide (n = n0)) as [->|Hne']; [left; by left|].
        right. split; [done|]. split; [done|].
        rewrite lookup_insert_ne by done. eauto.
    + auto.
    + intros n vals [Hset|?]%Hvals; [|by right].
      apply dict_set_elem_of in Hset as [[= -> ->]|?]; [by right|by left].
  - destruct IH as (n&d&Hn&Hna&Hd'&Hv&Hwd&Hd'').
    destruct (decide (n = n0)) as [->|Hne'].
    + rewrite lookup_insert_eq in Hd'. injection Hd' as <-.
      rewrite <-Hw in Hv. apply elem_of_without in Hv as [? _]. done.
    + rewrite lookup_insert_ne in Hd' by done.
      exists n, d. split; [by right|done].
Qed.

Lemma forward_checking_spec var value st r st' :
  unique_values st →
  forward_checking var value st = (Ret r, st') →
  ∃ ns, neighbors (csp st) !! var = Some ns ∧
  match r with
  | Some inf =>
      (∀ n, domains (csp st') !! n =
            if decide (n ∈ ns ∧ assignment st !! n = None)
            then without value <$> domains (csp st) !! n
            else domains (csp st) !! n) ∧
      (∀ n d, n ∈ ns → assignment st !! n = None →
              domains (csp st) !! n = Some d → value ∈ d →
              without value d ≠ []) ∧
      (∀ n, n ∈ inf.*1 ↔
            n ∈ ns ∧ assignment st !! n = None ∧
            ∃ d, domains (csp st) !! n = Some d ∧ value ∈ d) ∧
      NoDup inf.*1 ∧
      (∀ n vals, (n, vals) ∈ inf → vals = [value])
  | None =>
      ∃ n d, n ∈ ns ∧ assignment st !! n = None ∧
             domains (csp st) !! n = Some d ∧ value ∈ d ∧
             without value d = [] ∧ domains (csp st') !! n = Some []
  end.
Proof.
  intros Hu. unfold forward_checking, bind. rewrite store_get_neighbors_eq.
  destruct (neighbors (csp st) !! var) as [ns|]; [|done].
  intros Hrun%forward_checking_loop_spec; [|done].
  exists ns. split; [done|]. destruct r as [inf|]; [|done].
  destruct Hrun as (Hd&Hne&Hin&Hnd&Hvals). do 2 (split; [done|]).
  split; [|split].
  - intros n. rewrite Hin. simpl. rewrite elem_of_nil. tauto.
  - apply Hnd. simpl. constructor.
  - intros n vals Hnv.
    by destruct (Hvals n vals Hnv) as [?%elem_of_nil|?].
Qed.

(** [remove_inference] on such a record puts the value back, once, into
    each listed domain and sorts it. *)
Lemma restore_values_single n value st :
  restore_values n [value] st =
    match domains (csp st) !! n with
    | Some d =>
        (Ret tt, if decide (value ∈ d) then st
                 else set_domain n (d ++ [value]) st)
    | None => (Raise KeyError, st)
    end.
Proof.
  cbn [restore_values]. unfold bind at 1. rewrite store_get_domain_eq.
  destruct (domains (csp st) !! n) as [d|]; [|done].
  case_bool_decide; [by rewrite decide_True|by rewrite decide_False].
Qed.

Lemma restore_all_spec value inf st st' :
  NoDup inf.*1 → (∀ n vals, (n, vals) ∈ inf → vals = [value]) →
  restore_all inf st = (Ret tt, st') →
  ∀ n, domains (csp st') !! n =
       if decide (n ∈ inf.*1) then put_back value <$> domains (csp st) !! n
       else domains (csp st) !! n.
Proof.
  revert st. induction inf as [|[n0 vals] inf IH]; intros st Hnd Hvals;
    cbn [restore_all].
  { intros [= <-] n. rewrite decide_False; [done|]. by intros ?%elem_of_nil. }
  rewrite fmap_cons in Hnd. apply NoDup_cons in Hnd as [Hn0 Hnd].
  rewrite (Hvals n0 vals) by (by left).
  unfold bind at 1. rewrite restore_values_single.
  destruct (domains (csp st) !! n0) as [d0|] eqn:Hd0; [|done].
  unfold bind at 1. rewrite store_get_domain_eq.
  set (st1 := if decide (value ∈ d0) then st
              else set_domain n0 (d0 ++ [value]) st).
  assert (domains (csp st1) !! n0
          = Some (if decide (value ∈ d0) then d0 else d0 ++ [value])) as Hd1.
  { unfold st1. case_decide; [done|]. simpl. by rewrite lookup_insert_eq. }
  assert (∀ n, n ≠ n0 → domains (csp st1) !! n = domains (csp st) !! n) as Hd1'.
  { intros n Hne. unfold st1. case_decide; [done|]. simpl.
    by rewrite lookup_insert_ne. }
  rewrite Hd1. unfold bind at 1, modify at 1.
  intros Hrun n.
  assert (∀ n vals, (n, vals) ∈ inf → vals = [value]) as Hvals'.
  { intros n' vals' Hin. apply (Hvals n'). by right. }
  rewrite (IH _ Hnd Hvals' Hrun).
  rewrite fmap_cons. simpl. destruct (decide (n = n0)) as [->|Hne].
  - rewrite (decide_False (P:=n0 ∈ inf.*1)) by done.
    rewrite lookup_insert_eq.
    rewrite (decide_True (P:=n0 ∈ n0 :: inf.*1)) by (by left).
    by rewrite Hd0.
  - rewrite lookup_insert_ne, Hd1' by done.
    apply decide_ext. rewrite elem_of_cons. naive_solver.
Qed.

(** *** Depth of the recursion *)

Lemma unassigned_assign var value st st2 :
  var ∈ unassigned st →
  assignment st2 = assignment (assign var value st) →
  variables (csp st2) = variables (csp st) →
  length (unassigned st2) < length (unassigned st).
Proof.
  intros Hvar Ha Hv. unfold unassigned at 1. rewrite Ha, Hv. simpl.
  rewrite <-(list_filter_filter_l _ (λ v, assignment st !! v = None)).
  - apply (length_filter_lt _ _ var); [done|].
    rewrite lookup_insert_eq. done.
  - intros v. destruct (decide (v = var)) as [->|Hne].
    + by rewrite lookup_insert_eq.
    + by rewrite lookup_insert_ne.
Qed.




(** *** No exception on a well-formed store *)

Lemma forward_checking_loop_ret value ns removed st :
  (∀ n, n ∈ ns → assignment st !! n = None →
        is_Some (domains (csp st) !! n)) →
  ∃ r st', forward_checking_loop value ns removed st = (Ret r, st').
Proof.
  revert removed st. induction ns as [|n0 ns IH]; intros removed st Hns;
    cbn [forward_checking_loop]; [by eauto|].
  assert (∀ n, n ∈ ns → assignment st !! n = None →
               is_Some (domains (csp st) !! n)) as Hns'.
  { intros n Hn. apply Hns. by right. }
  unfold bind at 1, gets at 1.
  destruct (assignment st !! n0) eqn:Ha; [by apply IH|].
  unfold bind at 1. rewrite store_get_domain_eq.
  destruct (Hns n0) as [d Hd]; [by left|done|]. rewrite Hd.
  case_bool_decide as Hin; [|by apply IH].
  destruct (list_remove_elem_of value d Hin) as [d' ->].
  unfold bind at 1, modify at 1. unfold bind at 1.
  rewrite store_get_domain_eq. cbn [set_domain csp domains].
  rewrite lookup_insert_eq. destruct d' as [|x d']; [by eauto|].
  apply IH. intros n Hn Hna. simpl.
  destruct (decide (n = n0)) as [->|Hne].
  - rewrite lookup_insert_eq. eauto.
  - rewrite lookup_insert_ne by done. by apply Hns'.
Qed.

Lemma restore_values_ret n values st :
  is_Some (domains (csp st) !! n) →
  ∃ st', restore_values n values st = (Ret tt, st').
Proof.
  revert st. induction values as [|val values IH]; intros st [d Hd];
    cbn [restore_values]; [by eauto|].
  unfold bind at 1. rewrite store_get_domain_eq, Hd.
  case_bool_decide.
  - unfold bind at 1, ret at 1. apply IH. eauto.
  - unfold bind at 1, modify at 1. apply IH. simpl.
    rewrite lookup_insert_eq. eauto.
Qed.

Lemma restore_all_ret inf st :
  (∀ n, n ∈ inf.*1 → is_Some (domains (csp st) !! n)) →
  ∃ st', restore_all inf st = (Ret tt, st').
Proof.
  revert st. induction inf as [|[n values] inf IH]; intros st Hinf;
    cbn [restore_all]; [by eauto|].
  destruct (restore_values_ret n values st) as [st1 Hrv].
  { apply Hinf. rewrite fmap_cons. by left. }
  unfold bind at 1. rewrite Hrv.
  pose proof Hrv as (_&_&_&_&Hrel)%restore_values_frame.
  unfold bind at 1. rewrite store_get_domain_eq.
  destruct (Hinf n) as [d Hd]; [rewrite fmap_cons; by left|].
  destruct (domains_rel_lookup _ _ _ _ _ Hrel Hd) as (d1&Hd1&_).
  rewrite Hd1. unfold bind at 1, modify at 1.
  apply IH. intros n' Hn'. simpl.
  destruct (decide (n' = n)) as [->|Hne].
  - rewrite lookup_insert_eq. eauto.
  - rewrite lookup_insert_ne by done.
    destruct (Hinf n') as [d' Hd']; [rewrite fmap_cons; by right|].
    destruct (domains_rel_lookup _ _ _ _ _ Hrel Hd') as (?&?&_). eauto.
Qed.

Lemma well_formed_frame st st' :
  frame st st' →
  (∀ v, is_Some (assignment st' !! v) → v ∈ variables (csp st)) →
  well_formed st → well_formed st'.
Proof.
  intros ((Hv&_&Hn)&_&Hrel) Ha (Hnd&_&Hdom&Hnb).
  unfold well_formed. rewrite Hv, Hn. split; [done|]. split; [done|].
  split; [|done]. intros v [d Hd]%Hdom.
  destruct (domains_rel_lookup _ _ _ _ _ Hrel Hd) as (?&?&_). eauto.
Qed.

Lemma well_formed_unassigned st :
  well_formed st →
  size (assignment st) ≠ length (variables (csp st)) →
  unassigned st ≠ [].
Proof.
  intros (Hnd&Ha&_) Hsize Hnil. apply Hsize.
  rewrite <-size_dom, <-(size_list_to_set (C:=gset Var)) by done.
  f_equal. apply set_eq. intros v.
  rewrite elem_of_dom, elem_of_list_to_set. split; [apply Ha|].
  intros Hv. destruct (assignment st !! v) eqn:Hav; [eauto|].
  assert (v ∈ unassigned st) as Hin by by apply elem_of_unassigned.
  rewrite Hnil in Hin. by apply elem_of_nil in Hin.
Qed.

Lemma try_value_ret recurse var value st :
  (∀ s r s', recurse s = (r, s') → search_post s r s') →
  (∀ s, well_formed s → assignment s = assignment (assign var value st) →
        same_problem st s → ∃ r s', recurse s = (Ret r, s')) →
  well_formed st → var ∈ unassigned st →
  ∃ r st', try_value recurse var value st = (Ret r, st').
Proof.
  intros Hrec Hret Hwf Hvar.
  apply elem_of_unassigned in Hvar as [Hvar Hin].
  destruct (try_value recurse var value st) as [r st'] eqn:Hrun.
  apply try_value_inv in Hrun; [|done].
  assert (∀ st2 rfc,
            forward_checking var value (assign var value st) = (rfc, st2) →
            well_formed st2 ∧ assignment st2 = assignment (assign var value st)
            ∧ same_problem st st2 ∧ ∃ r2, rfc = Ret r2) as Hfc'.
  { intros st2 rfc Hfc.
    pose proof Hfc as (Hf2&Ha2&_)%pruned_frame; [|done].
    split; [|split; [done|split; [by destruct Hf2|]]].
    - eapply well_formed_frame; [done| |done].
      intros v. rewrite Ha2. simpl.
      destruct (decide (v = var)) as [->|Hne]; [done|].
      rewrite lookup_insert_ne by done. by apply Hwf.
    - destruct Hwf as (_&_&Hdom&Hnb).
      destruct (Hnb var Hin) as (ns&Hns&Hsub).
      revert Hfc. unfold forward_checking, bind.
      rewrite store_get_neighbors_eq. simpl. rewrite Hns.
      destruct (forward_checking_loop_ret value ns []
                  (assign var value st)) as (r2&st2'&->).
      { intros n Hn _. simpl. by apply Hdom, Hsub. }
      intros [= <- _]. eauto. }
  destruct Hrun as [Hnone|ns ??|ns e st2 ?? Hfc|ns st2 ?? Hfc
    |ns inf st2 res st3 ?? Hfc Hrr|ns inf st2 st3 st4 ?? Hfc Hrr Hres
    |ns inf st2 st3 e st4 ?? Hfc Hrr Hres|ns inf st2 e st3 ?? Hfc Hrr
    |ns inf st2 st3 ?? Hfc Hrr]; try by eauto.
  - destruct Hwf as (_&_&_&Hnb). destruct (Hnb var Hin) as (?&?&_).
    congruence.
  - by destruct (Hfc' _ _ Hfc) as (_&_&_&?&?).
  - exfalso. destruct (Hfc' _ _ Hfc) as (Hwf2&_&_&_).
    pose proof Hfc as (_&_&_&_&_&Hinf)%forward_checking_frame.
    pose proof Hfc as (Hf2&_)%pruned_frame; [|done].
    apply Hrec in Hrr as [Hf3 _].
    destruct (restore_all_ret inf st3) as [st4' Hres']; [|congruence].
    intros n ([n' vals]&->&Hnv)%list_elem_of_fmap.
    destruct (Hinf inf eq_refl n' vals Hnv) as (_&_&d&Hd&_). simpl in *.
    destruct Hf2 as (_&_&Hr2). destruct Hf3 as (_&_&Hr3).
    destruct (domains_rel_lookup _ _ _ _ _ Hr2 Hd) as (d2&Hd2&_).
    destruct (domains_rel_lookup _ _ _ _ _ Hr3 Hd2) as (d3&Hd3&_). eauto.
  - destruct (Hfc' _ _ Hfc) as (Hwf2&Ha2&Hp2&_).
    destruct (Hret st2 Hwf2 Ha2 Hp2) as (?&?&?). congruence.
  - destruct (Hfc' _ _ Hfc) as (Hwf2&Ha2&Hp2&_).
    destruct (Hret st2 Hwf2 Ha2 Hp2) as (?&?&?). congruence.
Qed.

Lemma try_values_ret recurse var values st :
  (∀ s r s', recurse s = (r, s') → search_post s r s') →
  (∀ s value, well_formed s →
              assignment s = assignment (assign var value st) →
              same_problem st s → ∃ r s', recurse s = (Ret r, s')) →
  well_formed st → var ∈ unassigned st →
  ∃ r st', try_values recurse var values st = (Ret r, st').
Proof.
  intros Hrec. revert st.
  induction values as [|value values IH]; intros st Hret Hwf Hvar;
    cbn [try_values]; [by eauto|].
  unfold bind at 1.
  destruct (try_value_ret recurse var value st Hrec
              (λ s, Hret s value) Hwf Hvar) as (r1&st1&Htry).
  rewrite Htry.
  pose proof Hvar as [Hvar' Hin]%elem_of_unassigned.
  apply try_value_frame in Htry as [[Hf1 Hr1] _]; [|done..].
  destruct r1 as [res|]; [by eauto|].
  pose proof Hf1 as ((Hv1&_)&_).
  apply IH.
  - intros s value' Hwfs Ha Hp. apply (Hret s value'); [done|..].
    + by rewrite Ha; simpl; rewrite Hr1.
    + eapply same_problem_trans; [|done]. by destruct Hf1.
  - eapply well_formed_frame; [done| |done].
    intros v. rewrite Hr1. by apply Hwf.
  - apply elem_of_unassigned. by rewrite Hr1, Hv1.
Qed.

Lemma backtrack_ret depth st :
  well_formed st → length (unassigned st) < depth →
  ∃ r st', backtrack depth st = (Ret r, st').
Proof.
  revert st. induction depth as [|depth IH]; intros st Hwf Hdepth; [lia|].
  cbn [backtrack].
  unfold bind at 1, gets at 1. unfold bind at 1, gets at 1.
  destruct (_ =? _) eqn:Hsize; [by eauto|].
  apply Nat.eqb_neq in Hsize.
  destruct (select_unassigned_variable_spec st)
    as (var&pre&post&values&Hsel&Hun&Hd&_).
  { by apply well_formed_unassigned. }
  { intros v [_ Hv]%elem_of_unassigned. by apply Hwf. }
  unfold bind at 1. rewrite Hsel.
  unfold bind at 1, domain_values. rewrite store_get_domain_eq, Hd.
  assert (var ∈ unassigned st) as Hvar.
  { rewrite Hun. apply elem_of_app. right. by left. }
  apply try_values_ret; [intros ???; apply backtrack_frame| |done..].
  intros s value Hwfs Ha (Hv&_). apply IH; [done|].
  pose proof (unassigned_assign var value st s Hvar Ha Hv). lia.
Qed.

(** *** The constraint graph *)

Lemma append_neighbor_eq v1 v2 (nb : gmap Var (list Var)) :
  append_neighbor v1 v2 nb =
    match nb !! v1 with
    | Some l => (Ret tt, <[v1 := l ++ [v2]]> nb)
    | None => (Raise KeyError, nb)
    end.
Proof.
  unfold append_neighbor, bind, gets, subscript, modify. simpl.
  by destruct (nb !! v1).
Qed.

Lemma add_constraints_spec cs (nb0 nb : gmap Var (list Var)) :
  add_constraints cs nb0 = (Ret tt, nb) →
  (∀ u, is_Some (nb !! u) ↔ is_Some (nb0 !! u)) ∧
  (∀ u v, (u, v) ∈ cs → is_Some (nb0 !! u) ∧ is_Some (nb0 !! v)) ∧
  (∀ u ns, nb !! u = Some ns →
     ∃ ns0, nb0 !! u = Some ns0 ∧
            ∀ v, v ∈ ns ↔ v ∈ ns0 ∨ (u, v) ∈ cs ∨ (v, u) ∈ cs).
Proof.
  revert nb0. induction cs as [|[v1 v2] cs IH]; intros nb0;
    cbn [add_constraints].
  { intros [= <-]. split; [done|]. split; [by intros ?? ?%elem_of_nil|].
    intros u ns ->. exists ns. split; [done|]. intros v.
    rewrite !elem_of_nil. tauto. }
  unfold bind at 1. rewrite append_neighbor_eq.
  destruct (nb0 !! v1) as [l1|] eqn:H1; [|done].
  unfold bind at 1. rewrite append_neighbor_eq.
  destruct (<[v1:=l1 ++ [v2]]> nb0 !! v2) as [l2|] eqn:H2; [|done].
  intros (Hdom&Hcs&Hns)%IH.
  assert (is_Some (nb0 !! v2)) as Hv2.
  { destruct (decide (v2 = v1)) as [->|Hne]; [eauto|].
    rewrite lookup_insert_ne in H2 by done. eauto. }
  assert (∀ u, is_Some (<[v2:=l2 ++ [v1]]> (<[v1:=l1 ++ [v2]]> nb0) !! u)
               ↔ is_Some (nb0 !! u)) as Hdom0.
  { intros u. destruct (decide (u = v2)) as [->|?].
    { rewrite lookup_insert_eq. split; eauto. }
    rewrite lookup_insert_ne by done.
    destruct (decide (u = v1)) as [->|?].
    { rewrite lookup_insert_eq. split; eauto. }
    by rewrite lookup_insert_ne. }
  split; [intros u; by rewrite Hdom, Hdom0|]. split.
  { intros u v [[= -> ->]|Huv]%elem_of_cons; [by eauto|].
    rewrite <-!Hdom0. by apply Hcs. }
  intros u ns Hu. destruct (Hns u ns Hu) as (ns1&Hu1&Hiff).
  destruct (decide (u = v2)) as [->|Hne2].
  - rewrite lookup_insert_eq in Hu1. injection Hu1 as <-.
    destruct (decide (v2 = v1)) as [->|Hne1].
    + rewrite lookup_insert_eq in H2. injection H2 as <-.
      exists l1. split; [done|]. intros v. rewrite Hiff.
      rewrite !elem_of_app, !list_elem_of_singleton, !elem_of_cons.
      naive_solver.
    + rewrite lookup_insert_ne in H2 by done.
      exists l2. split; [done|]. intros v. rewrite Hiff.
      rewrite !elem_of_app, !list_elem_of_singleton, !elem_of_cons.
      naive_solver.
  - rewrite lookup_insert_ne in Hu1 by done.
    destruct (decide (u = v1)) as [->|Hne1].
    + rewrite lookup_insert_eq in Hu1. injection Hu1 as <-.
      exists l1. split; [done|]. intros v. rewrite Hiff.
      rewrite !elem_of_app, !list_elem_of_singleton, !elem_of_cons.
      naive_solver.
    + rewrite lookup_insert_ne in Hu1 by done.
      exists ns1. split; [done|]. intros v. rewrite Hiff.
      rewrite !elem_of_cons. naive_solver.
Qed.

Lemma empty_neighbors_lookup (vs : list Var) (u : Var) :
  empty_neighbors vs !! u = if decide (u ∈ vs) then Some [] else None.
Proof.
  unfold empty_neighbors.
  assert (∀ nb0 : gmap Var (list Var),
    foldl (λ nb v, <[v:=[]]> nb) nb0 vs !! u
    = if decide (u ∈ vs) then Some [] else nb0 !! u) as Hgen.
  { induction vs as [|v vs IH]; intros nb0; cbn [foldl].
    { rewrite decide_False; [done|]. by intros ?%elem_of_nil. }
    rewrite IH. destruct (decide (u ∈ vs)) as [Hin|Hnin].
    - rewrite decide_True; [done|by right].
    - destruct (decide (u = v)) as [->|Hne].
      + rewrite lookup_insert_eq, decide_True; [done|by left].
      + rewrite lookup_insert_ne by done. rewrite decide_False; [done|].
        by intros [?|?]%elem_of_cons. }
  rewrite Hgen. by case_decide.
Qed.

(** What the constructor guarantees of the neighbour mapping. *)
Lemma new_CSP_spec (vs : list Var) ds cs c :
  new_CSP vs ds cs = Ret c →
  variables c = vs ∧ domains c = ds ∧ constraints c = cs ∧
  (∀ u, is_Some (neighbors c !! u) ↔ u ∈ vs) ∧
  (∀ u v, (u, v) ∈ cs → u ∈ vs ∧ v ∈ vs) ∧
  (∀ u ns, neighbors c !! u = Some ns →
     ∀ v, v ∈ ns ↔ (u, v) ∈ cs ∨ (v, u) ∈ cs).
Proof.
  unfold new_CSP, build_neighbors.
  destruct (add_constraints cs (empty_neighbors vs)) as [[[]| |] nb] eqn:Hadd;
    try done.
  intros [= <-]. simpl. do 3 (split; [done|]).
  apply add_constraints_spec in Hadd as (Hdom&Hcs&Hns).
  assert (∀ u, is_Some (empty_neighbors vs !! u) ↔ u ∈ vs) as Hemp.
  { intros u. rewrite empty_neighbors_lookup. case_decide; [by eauto|].
    split; [by intros [? ?]|done]. }
  split; [intros u; by rewrite Hdom|]. split.
  { intros u v Huv. rewrite <-!Hemp. by apply Hcs. }
  intros u ns Hu v. destruct (Hns u ns Hu) as (ns0&Hu0&->).
  rewrite empty_neighbors_lookup in Hu0. case_decide; [|done].
  injection Hu0 as <-. rewrite elem_of_nil. tauto.
Qed.

Lemma new_CSP_symmetric (vs : list Var) ds cs c :
  new_CSP vs ds cs = Ret c → symmetric_neighbors c.
Proof.
  intros (Hv&_&_&Hdom&Hcs&Hns)%new_CSP_spec u v ns Hu Hin.
  apply (Hns u ns Hu) in Hin.
  assert (v ∈ vs) as [ns' Hv']%Hdom.
  { destruct Hin as [Hin|Hin]; apply Hcs in Hin; tauto. }
  exists ns'. split; [done|]. apply (Hns v ns' Hv'). tauto.
Qed.

Lemma new_CSP_well_formed (vs : list Var) ds cs c :
  new_CSP vs ds cs = Ret c →
  NoDup vs → (∀ v, v ∈ vs → is_Some (ds !! v)) →
  well_formed (start c).
Proof.
  intros (Hv&Hd&_&Hdom&Hcs&Hns)%new_CSP_spec Hnd Hds.
  unfold well_formed, start. simpl. rewrite Hv, Hd.
  split; [done|]. split; [by intros v [? ?]|]. split; [done|].
  intros v [ns Hn]%Hdom. exists ns. split; [done|].
  intros n Hin. apply (Hns v ns Hn) in Hin.
  destruct Hin as [Hin|Hin]; apply Hcs in Hin; tauto.
Qed.

(** *** What a successful search returns *)

Lemma agrees_spec a value ns :
  agrees a value ns = true ↔ ∀ n, n ∈ ns → a !! n ≠ Some value.
Proof.
  unfold agrees. rewrite forallb_forall. split.
  - intros Hall n Hn. apply list_elem_of_In, Hall in Hn.
    apply negb_true_iff in Hn. by apply bool_decide_eq_false in Hn.
  - intros Hall n Hn. apply negb_true_iff, bool_decide_eq_false.
    by apply Hall, list_elem_of_In.
Qed.

Lemma consistent_assign var value st ns :
  symmetric_neighbors (csp st) → consistent_assignment st →
  neighbors (csp st) !! var = Some ns →
  agrees (assignment st) value ns = true →
  consistent_assignment (assign var value st).
Proof.
  intros Hsym Hcons Hns Hag u v nsu x Hu Hv Hne. simpl in *.
  rewrite agrees_spec in Hag.
  destruct (decide (u = var)) as [->|Hu'].
  - rewrite lookup_insert_eq. intros [= <-].
    rewrite lookup_insert_ne by done. apply Hag. congruence.
  - rewrite lookup_insert_ne by done. intros Hx.
    destruct (decide (v = var)) as [->|Hv'].
    + rewrite lookup_insert_eq. intros [= ->].
      destruct (Hsym u var nsu Hu Hv) as (ns'&Hns'&Hin).
      apply (Hag u); congruence.
    + rewrite lookup_insert_ne by done. by eapply Hcons.
Qed.

Lemma searchable_frame st0 st st' :
  frame st st' → assignment st' = assignment st →
  searchable st0 st → searchable st0 st'.
Proof.
  intros ((Hv&_&Hn)&_&Hrel) Ha (Hsym&Hcons&Hdrawn&Hnar&Hkeys&Hvars).
  unfold searchable, symmetric_neighbors, consistent_assignment, drawn_from.
  rewrite Hn, Ha, Hv. do 3 (split; [done|]).
  split; [|done]. eapply domains_rel_trans; [apply narrows_trans|done..].
Qed.

Lemma try_value_sound recurse var value st0 st res st' :
  (∀ s r s', recurse s = (r, s') → search_post s r s') →
  (∀ s res s', searchable st0 s → recurse s = (Ret (Some res), s') →
               solved st0 res s') →
  searchable st0 st → var ∈ unassigned st →
  (∃ d, domains (csp st0) !! var = Some d ∧ value ∈ d) →
  try_value recurse var value st = (Ret (Some res), st') →
  solved st0 res st'.
Proof.
  intros Hrec Hsound (Hsym&Hcons&Hdrawn&Hnar&Hkeys&Hvars)
    [Hvar Hin]%elem_of_unassigned Hval Hrun.
  apply try_value_inv in Hrun; [|done].
  inversion Hrun as [| | | |ns inf st2 res' st3 Hns Hag Hfc Hrr| | | |];
    subst.
  apply (Hsound st2); [|done].
  pose proof Hfc as (Hf2&Ha2&_)%pruned_frame; [|done].
  pose proof Hf2 as ((Hv2&_&Hn2)&_&Hr2).
  unfold searchable, symmetric_neighbors, consistent_assignment, drawn_from.
  rewrite Hn2, Ha2, Hv2. split; [done|]. split.
  { by apply (consistent_assign var value st ns). }
  split; [|split; [|split; [|done]]].
  - intros v x. simpl. destruct (decide (v = var)) as [->|Hne].
    + rewrite lookup_insert_eq. by intros [= <-].
    + rewrite lookup_insert_ne by done. apply Hdrawn.
  - eapply domains_rel_trans; [apply narrows_trans|done..].
  - intros v. simpl. destruct (decide (v = var)) as [->|Hne]; [done|].
    rewrite lookup_insert_ne by done. apply Hkeys.
Qed.

Lemma try_values_sound recurse var values st0 st res st' :
  (∀ s r s', recurse s = (r, s') → search_post s r s') →
  (∀ s res s', searchable st0 s → recurse s = (Ret (Some res), s') →
               solved st0 res s') →
  searchable st0 st → var ∈ unassigned st →
  (∀ value, value ∈ values →
            ∃ d, domains (csp st0) !! var = Some d ∧ value ∈ d) →
  try_values recurse var values st = (Ret (Some res), st') →
  solved st0 res st'.
Proof.
  intros Hrec Hsound. revert st.
  induction values as [|value values IH]; intros st Hst Hvar Hvals;
    cbn [try_values]; [done|].
  unfold bind at 1.
  destruct (try_value recurse var value st) as [r1 st1] eqn:Htry.
  destruct r1 as [[res1|]|e|]; try done.
  - intros [= <- <-]. eapply try_value_sound; try done.
    apply Hvals. by left.
  - pose proof Hvar as [Hvar' Hin']%elem_of_unassigned.
    apply try_value_frame in Htry as [[Hf1 Hr1] _]; [|done..].
    apply IH.
    + by eapply searchable_frame.
    + apply elem_of_unassigned. destruct Hf1 as ((Hv1&_)&_).
      by rewrite Hr1, Hv1.
    + intros value' Hin. apply Hvals. by right.
Qed.

Lemma backtrack_sound depth st0 st res st' :
  searchable st0 st →
  backtrack depth st = (Ret (Some res), st') → solved st0 res st'.
Proof.
  revert st res st'. induction depth as [|depth IH]; intros st res st' Hst;
    cbn [backtrack]; [done|].
  unfold bind at 1, gets at 1. unfold bind at 1, gets at 1.
  destruct (_ =? _) eqn:Hsize.
  { intros [= <- <-]. apply Nat.eqb_eq in Hsize.
    by destruct Hst as (?&?&?&?&?&?). }
  unfold bind at 1.
  destruct (select_unassigned_variable st) as [[var|e|] st1] eqn:Hsel;
    try done.
  apply select_unassigned_variable_ret in Hsel as [-> Hvar].
  unfold bind at 1, domain_values. rewrite store_get_domain_eq.
  destruct (domains (csp st) !! var) as [values|] eqn:Hd; [|done].
  apply try_values_sound; try done.
  - intros ???. apply backtrack_frame.
  - intros value Hin. destruct Hst as (_&_&_&Hnar&_).
    destruct (domains_rel_lookup_r _ _ _ _ _ Hnar Hd) as (d0&Hd0&Hsub&_).
    exists d0. split; [done|]. by apply Hsub.
Qed.

(** *** The triangle: three variables that must all differ *)

Lemma triangle_shape_perm c x y z f s t :
  [x; y; z] ≡ₚ [f; s; t] → triangle_shape c x y z → triangle_shape c f s t.
Proof.
  intros Hp (Hnd&Hlen&Hvs&Hnb). split; [by rewrite <-Hp|].
  split; [done|]. split.
  - intros v. by rewrite Hvs, Hp.
  - intros u Hu. rewrite <-Hp in Hu. destruct (Hnb u Hu) as (ns&Hns&Hin).
    exists ns. split; [done|]. intros v. by rewrite Hin, Hp.
Qed.

Lemma triangle_shape_same st st' x y z :
  same_problem st st' →
  triangle_shape (csp st) x y z → triangle_shape (csp st') x y z.
Proof.
  intros (Hv&_&Hn). unfold triangle_shape. by rewrite Hv, Hn.
Qed.

Lemma unique_values_frame st st' :
  frame st st' → unique_values st → unique_values st'.
Proof.
  intros (_&_&Hrel) Hu v d' Hd'.
  destruct (domains_rel_lookup_r _ _ _ _ _ Hrel Hd') as (d&Hd&_&Hnd).
  eauto.
Qed.

Lemma without_nil value d :
  NoDup d → value ∈ d → without value d = [] → d = [value].
Proof.
  intros Hnd Hin Hw. destruct d as [|y d]; [by apply elem_of_nil in Hin|].
  assert (∀ x, x ∈ y :: d → x = value) as Hall.
  { intros x Hx. destruct (decide (x = value)) as [|Hne]; [done|].
    assert (x ∈ without value (y :: d)) as Hxw by by apply elem_of_without.
    rewrite Hw in Hxw. by apply elem_of_nil in Hxw. }
  assert (y = value) as -> by (apply Hall; by left).
  f_equal. destruct d as [|y' d]; [done|].
  assert (y' = value) as -> by (apply Hall; right; by left).
  apply NoDup_cons in Hnd as [Hnin _]. exfalso. apply Hnin. by left.
Qed.

Lemma agrees_false a value (ns : list Var) :
  agrees a value ns = false → ∃ n, n ∈ ns ∧ a !! n = Some value.
Proof.
  unfold agrees. induction ns as [|n ns IH]; simpl; [done|].
  case_bool_decide as Hn; simpl.
  - intros _. exists n. split; [by left|done].
  - intros (n'&?&?)%IH. exists n'. split; [by right|done].
Qed.

Lemma try_values_cons_None recurse var value values st st' :
  try_values recurse var (value :: values) st = (Ret None, st') →
  ∃ st1, try_value recurse var value st = (Ret None, st1) ∧
         try_values recurse var values st1 = (Ret None, st').
Proof.
  cbn [try_values]. unfold bind at 1.
  destruct (try_value recurse var value st) as [[[res|]|e|] st1]; try done.
  eauto.
Qed.

Lemma with_keys_domains (vs : list Var) st keyed :
  (with_keys vs st).1 = Ret keyed →
  ∀ v, v ∈ vs → is_Some (domains (csp st) !! v).
Proof.
  revert keyed. induction vs as [|v vs IH]; intros keyed;
    [by intros _ ? ?%elem_of_nil|].
  cbn [with_keys]. unfold bind at 1. rewrite store_get_domain_eq.
  destruct (domains (csp st) !! v) as [d|] eqn:Hd; [|done].
  unfold bind. destruct (with_keys vs st) as [[keyed'| |] st3]; try done.
  intros _ w [->|Hw]%elem_of_cons; [eauto|]. by eapply IH.
Qed.

Lemma backtrack_full depth st :
  size (assignment st) = length (variables (csp st)) →
  backtrack (S depth) st = (Ret (Some (assignment st)), st).
Proof.
  intros Hsize. cbn [backtrack]. unfold bind, gets.
  by rewrite Hsize, Nat.eqb_refl.
Qed.

(** What [backtrack] does before its loop when the assignment is not
    full and the outcome is a failure. *)
Lemma backtrack_None_inv depth st st' :
  backtrack (S depth) st = (Ret None, st') →
  ∃ var values,
    var ∈ unassigned st ∧ domains (csp st) !! var = Some values ∧
    (∀ u du, u ∈ unassigned st → domains (csp st) !! u = Some du →
             length values ≤ length du) ∧
    try_values (backtrack depth) var values st = (Ret None, st').
Proof.
  cbn [backtrack]. unfold bind at 1, gets at 1. unfold bind at 1, gets at 1.
  destruct (_ =? _); [done|]. unfold bind at 1.
  destruct (select_unassigned_variable st) as [[var|e|] st1] eqn:Hsel;
    try done.
  pose proof Hsel as [-> Hvar]%select_unassigned_variable_ret.
  unfold bind at 1, domain_values. rewrite store_get_domain_eq.
  destruct (domains (csp st) !! var) as [values|] eqn:Hd; [|done].
  intros Hrun. exists var, values. do 2 (split; [done|]). split; [|done].
  intros u du Hu Hdu.
  rewrite select_unassigned_variable_eq in Hsel.
  destruct (with_keys (unassigned st) st) as [[[|first others]| |] st2] eqn:Hk;
    try done.
  injection Hsel as Hmin.
  assert (∀ v, v ∈ unassigned st → is_Some (domains (csp st) !! v)) as Hdom.
  { apply (with_keys_domains _ _ (first :: others)). by rewrite Hk. }
  destruct (select_unassigned_variable_spec st) as
    (var'&pre&post&d&Hsel'&Hun&Hd'&Hpre&Hpost); [|done|].
  { intros Hnil. rewrite Hnil in Hvar. by apply elem_of_nil in Hvar. }
  rewrite select_unassigned_variable_eq, Hk in Hsel'.
  injection Hsel' as Hmin'. rewrite Hmin in Hmin'. subst var'.
  rewrite Hd in Hd'. injection Hd' as <-.
  rewrite Hun in Hu.
  apply elem_of_app in Hu as [Hu|[->|Hu]%elem_of_cons].
  - destruct (Hpre u Hu) as (du'&Hdu'&?).
    rewrite Hdu in Hdu'. injection Hdu' as <-. lia.
  - rewrite Hd in Hdu. by injection Hdu as <-.
  - destruct (Hpost u Hu) as (du'&Hdu'&?).
    rewrite Hdu in Hdu'. by injection Hdu' as <-.
Qed.

(** Two variables assigned, [q] left. *)
Lemma level2_loop depth st f p q cf cp values st' :
  triangle_shape (csp st) f p q → unique_values st →
  assignment st = <[p := cp]> (<[f := cf]> ∅) →
  try_values (backtrack (S depth)) q values st = (Ret None, st') →
  (∀ cq, cq ∈ values → cq = cf ∨ cq = cp) ∧ st' = st.
Proof.
  intros (Hnd&Hlen&Hvs&Hnb) Hu Ha.
  assert (f ≠ p ∧ f ≠ q ∧ p ≠ q) as (Hfp&Hfq&Hpq).
  { apply NoDup_cons in Hnd as [H1 Hnd]. apply NoDup_cons in Hnd as [H2 _].
    set_solver. }
  induction values as [|cq values IH].
  { intros [= <-]. split; [|done]. by intros ? ?%elem_of_nil. }
  intros (st1&Htry&Hrest)%try_values_cons_None.
  apply try_value_inv in Htry; [|intros ???; apply backtrack_frame].
  destruct (Hnb q) as (nsq&Hnsq&Hinq); [set_solver|].
  assert (st1 = st ∧ (cq = cf ∨ cq = cp)) as [-> Hcq].
  { inversion Htry as [|ns Hns Hag|
      |ns st2 Hns Hag Hfc| |ns inf st2 st3 st4 Hns Hag Hfc Hrr Hres| | |];
      subst.
    - split; [done|]. apply agrees_false in Hag as (n&Hn&Hna).
      rewrite Hnsq in Hns. injection Hns as <-.
      apply Hinq in Hn as [Hn Hnq]. rewrite Ha in Hna.
      apply elem_of_cons in Hn as [->|Hn].
      + rewrite lookup_insert_ne, lookup_insert_eq in Hna by done.
        left. congruence.
      + apply elem_of_cons in Hn as [->|Hn].
        * rewrite lookup_insert_eq in Hna. right. congruence.
        * apply list_elem_of_singleton in Hn. done.
    - exfalso. apply forward_checking_spec in Hfc as (ns'&Hns'&Hconf);
        [|done].
      destruct Hconf as (n&d&Hn&Hna&_). simpl in Hns', Hna.
      rewrite Hnsq in Hns'. injection Hns' as <-.
      apply Hinq in Hn as [Hn Hnq]. rewrite Ha in Hna.
      rewrite lookup_insert_ne in Hna by done.
      apply elem_of_cons in Hn as [->|Hn]; [by simplify_map_eq|].
      apply elem_of_cons in Hn as [->|Hn]; [by simplify_map_eq|].
      apply list_elem_of_singleton in Hn. done.
    - exfalso.
      pose proof Hfc as (Ha2&(Hv2&_)&_)%forward_checking_frame.
      rewrite backtrack_full in Hrr; [done|].
      rewrite Ha2, Hv2. simpl. rewrite Ha, Hlen.
      rewrite !map_size_insert_None by (by simplify_map_eq).
      by rewrite map_size_empty. }
  destruct (IH Hrest) as [Hvals ->]. split; [|done].
  intros cq' [->|?]%elem_of_cons; auto.
Qed.

Lemma level2 depth st f p q cf cp dq st' :
  triangle_shape (csp st) f p q → unique_values st →
  assignment st = <[p := cp]> (<[f := cf]> ∅) →
  domains (csp st) !! q = Some dq →
  backtrack (S (S depth)) st = (Ret None, st') →
  (∀ cq, cq ∈ dq → cq = cf ∨ cq = cp) ∧ st' = st.
Proof.
  intros Hshape Hu Ha Hdq (var&values&Hvar&Hd&_&Hrun)%backtrack_None_inv.
  pose proof Hshape as (Hnd&Hlen&Hvs&Hnb).
  assert (f ≠ p ∧ f ≠ q ∧ p ≠ q) as (Hfp&Hfq&Hpq).
  { apply NoDup_cons in Hnd as [H1 Hnd]. apply NoDup_cons in Hnd as [H2 _].
    set_solver. }
  apply elem_of_unassigned in Hvar as [Hvar Hin].
  apply Hvs in Hin. rewrite Ha in Hvar.
  assert (var = q) as ->.
  { apply elem_of_cons in Hin as [->|Hin].
    { by rewrite lookup_insert_ne, lookup_insert_eq in Hvar. }
    apply elem_of_cons in Hin as [->|Hin].
    { by rewrite lookup_insert_eq in Hvar. }
    by apply list_elem_of_singleton in Hin. }
  rewrite Hdq in Hd. injection Hd as <-.
  by eapply level2_loop.
Qed.

Lemma triangle_distinct c f p q :
  triangle_shape c f p q → f ≠ p ∧ f ≠ q ∧ p ≠ q.
Proof.
  intros (Hnd&_). apply NoDup_cons in Hnd as [H1 Hnd].
  apply NoDup_cons in Hnd as [H2 _]. set_solver.
Qed.

Lemma triangle_neighbors c f p q u :
  triangle_shape c f p q → u ∈ [f; p; q] →
  ∃ ns, neighbors c !! u = Some ns ∧ ∀ v, v ∈ ns ↔ v ∈ [f; p; q] ∧ v ≠ u.
Proof. intros (_&_&_&Hnb). apply Hnb. Qed.

(** One variable assigned, [p] chosen, [q] left for the level below.  A
    failure means that no pair of values works; and the domain of [q]
    comes back with the same values, unless [p] and [q] had one and the
    same single value, in which case [q] is left empty. *)
Lemma level1_loop depth f p q cf values st dq st' :
  triangle_shape (csp st) f p q → unique_values st →
  assignment st = <[f := cf]> ∅ →
  domains (csp st) !! q = Some dq →
  (length dq ≤ 1 → length values ≤ 1) →
  try_values (backtrack (S (S depth))) p values st = (Ret None, st') →
  (∀ cp cq, cp ∈ values → cq ∈ dq → cp ≠ cf → cq ≠ cf → cp ≠ cq → False) ∧
  ((∃ dq', domains (csp st') !! q = Some dq' ∧ dq' ≡ₚ dq) ∨
   (∃ b, values = [b] ∧ dq = [b] ∧ domains (csp st') !! q = Some [])).
Proof.
  revert st dq. induction values as [|cp values IH];
    intros st dq Hshape Hu Ha Hdq Hmrv.
  { intros [= <-]. split; [by intros ?? ?%elem_of_nil|]. left. eauto. }
  pose proof (triangle_distinct _ _ _ _ Hshape) as (Hfp&Hfq&Hpq).
  destruct (triangle_neighbors _ f p q p Hshape) as (nsp&Hnsp&Hinp);
    [set_solver|].
  assert (assignment st !! p = None) as Hap.
  { rewrite Ha. by simplify_map_eq. }
  intros (st1&Htry&Hrest)%try_values_cons_None.
  pose proof Htry as [[Hf1 Ha1] _]%try_value_frame;
    [|intros ???; apply backtrack_frame|done].
  apply try_value_inv in Htry; [|intros ???; apply backtrack_frame].
  inversion Htry as [|ns Hns Hag|
      |ns st2 Hns Hag Hfc| |ns inf st2 st3 st4 Hns Hag Hfc Hrr Hres| | |];
    subst.
  - (* the value is the one [f] holds *)
    apply agrees_false in Hag as (n&Hn&Hna).
    rewrite Hnsp in Hns. injection Hns as <-.
    apply Hinp in Hn as [Hn Hnp]. rewrite Ha in Hna.
    assert (n = f ∧ cp = cf) as [-> ->].
    { apply elem_of_cons in Hn as [->|Hn]; [by simplify_map_eq|].
      apply elem_of_cons in Hn as [->|Hn]; [done|].
      apply list_elem_of_singleton in Hn as ->. by simplify_map_eq. }
    destruct (IH st1 dq) as [Hsol Hcase]; try done.
    { simpl in Hmrv. lia. }
    split.
    + intros cp cq [->|?]%elem_of_cons; [done|]. by apply Hsol.
    + destruct Hcase as [?|(b&->&->&_)]; [by left|].
      simpl in Hmrv. lia.
  - (* conflict: [q] had this value only *)
    apply forward_checking_spec in Hfc as (ns'&Hns'&Hconf); [|done].
    destruct Hconf as (n&d&Hn&Hna&Hd&Hin&Hw&Hd2).
    simpl in Hns', Hna, Hd. rewrite Hnsp in Hns'. injection Hns' as <-.
    apply Hinp in Hn as [Hn Hnp]. rewrite Ha in Hna.
    assert (n = q) as ->.
    { apply elem_of_cons in Hn as [->|Hn]; [by simplify_map_eq|].
      apply elem_of_cons in Hn as [->|Hn]; [done|].
      by apply list_elem_of_singleton in Hn. }
    rewrite Hdq in Hd. injection Hd as <-.
    apply without_nil in Hw; [|by eauto|done]. subst dq.
    destruct values as [|? ?]; [|simpl in Hmrv; lia].
    injection Hrest as <-. split.
    + intros cp' cq ->%list_elem_of_singleton ->%list_elem_of_singleton. done.
    + right. exists cp. by simpl.
  - (* the level below failed: the value goes back into the domain of [q] *)
    pose proof Hfc as (Hf2&Ha2&_)%pruned_frame; [|done].
    apply forward_checking_spec in Hfc as (ns'&Hns'&Hspec); [|done].
    destruct Hspec as (Hd2&_&Hin2&Hnd2&Hvals2).
    simpl in Hns', Hd2, Hin2. rewrite Hnsp in Hns'. injection Hns' as <-.
    assert (q ∈ nsp ∧ <[p:=cp]> (assignment st) !! q = None) as Hq.
    { split; [apply Hinp; set_solver|]. rewrite Ha. by simplify_map_eq. }
    assert (domains (csp st2) !! q = Some (without cp dq)) as Hdq2.
    { rewrite Hd2, decide_True by done. by rewrite Hdq. }
    destruct (level2 depth st2 f p q cf cp (without cp dq) st3)
      as [Hl2 ->]; try done.
    { eapply triangle_shape_same; [|done]. by destruct Hf2. }
    { by eapply unique_values_frame. }
    { by rewrite Ha2; simpl; rewrite Ha. }
    pose proof (restore_all_spec cp inf st2 st4 Hnd2 Hvals2 Hres q) as Hdq4.
    assert (∃ dq4, domains (csp (unassign p st4)) !! q = Some dq4 ∧
                   dq4 ≡ₚ dq) as (dq4&Hdq4'&Hperm).
    { simpl. rewrite Hdq4, Hdq2. destruct (decide (cp ∈ dq)) as [Hin|Hin].
      - rewrite decide_True by (apply Hin2; naive_solver).
        eexists. split; [done|]. apply put_back_without; eauto.
      - rewrite decide_False.
        + eexists. split; [done|]. by rewrite without_notin.
        + rewrite Hin2. intros (_&_&d&Hd&?). congruence. }
    destruct (IH (unassign p st4) dq4) as [Hsol Hcase]; try done.
    { eapply triangle_shape_same; [|done]. by destruct Hf1. }
    { by eapply unique_values_frame. }
    { by rewrite Ha1. }
    { rewrite Hperm. simpl in Hmrv. lia. }
    split.
    + intros cp' cq [->|Hcp']%elem_of_cons Hcq ???.
      * destruct (Hl2 cq); [by apply elem_of_without|done..].
      * apply (Hsol cp' cq); try done. by rewrite Hperm.
    + destruct Hcase as [(dq'&?&?)|(b&->&->&_)].
      * left. exists dq'. split; [done|]. by etrans.
      * apply Permutation_length in Hperm. simpl in Hperm, Hmrv. lia.
Qed.

Lemma level1 depth f s t cf st ds dt st' :
  triangle_shape (csp st) f s t → unique_values st →
  assignment st = <[f := cf]> ∅ →
  domains (csp st) !! s = Some ds → domains (csp st) !! t = Some dt →
  backtrack (S (S (S depth))) st = (Ret None, st') →
  (∀ cs ct, cs ∈ ds → ct ∈ dt → cs ≠ cf → ct ≠ cf → cs ≠ ct → False) ∧
  ((∃ ds' dt', domains (csp st') !! s = Some ds' ∧
               domains (csp st') !! t = Some dt' ∧ ds' ≡ₚ ds ∧ dt' ≡ₚ dt) ∨
   (∃ b, ds = [b] ∧ dt = [b] ∧
      ((domains (csp st') !! s = Some [b] ∧ domains (csp st') !! t = Some []) ∨
       (domains (csp st') !! s = Some [] ∧ domains (csp st') !! t = Some [b])))).
Proof.
  intros Hshape Hu Ha Hds Hdt
    (var&values&Hvar&Hd&Hmin&Hrun)%backtrack_None_inv.
  pose proof (triangle_distinct _ _ _ _ Hshape) as (Hfs&Hft&Hst).
  pose proof Hshape as (_&_&Hvs&_).
  assert (s ∈ unassigned st ∧ t ∈ unassigned st) as [Hsu Htu].
  { rewrite !elem_of_unassigned, !Hvs, Ha. split; (split; [by simplify_map_eq|set_solver]). }
  pose proof Hvar as [Hvar' Hin]%elem_of_unassigned.
  pose proof Hrun as [_ Hkept]%try_values_frame;
    [|intros ???; apply backtrack_frame|done].
  apply Hvs in Hin. rewrite Ha in Hvar'.
  apply elem_of_cons in Hin as [->|Hin]; [by simplify_map_eq|].
  apply elem_of_cons in Hin as [->|Hin].
  - rewrite Hds in Hd. injection Hd as <-.
    destruct (level1_loop depth f s t cf ds st dt st') as [Hsol Hcase];
      try done.
    { intros Hlen. pose proof (Hmin t dt Htu Hdt). lia. }
    split; [done|]. rewrite Hkept, Hds.
    destruct Hcase as [(dt'&?&?)|(b&->&->&?)].
    + left. exists ds, dt'. done.
    + right. exists b. do 2 (split; [done|]). by left.
  - apply list_elem_of_singleton in Hin as ->.
    rewrite Hdt in Hd. injection Hd as <-.
    destruct (level1_loop depth f t s cf dt st ds st') as [Hsol Hcase];
      try done.
    { eapply triangle_shape_perm; [|done]. by rewrite (Permutation_swap s t). }
    { intros Hlen. pose proof (Hmin s ds Hsu Hds). lia. }
    split; [intros cs ct ?????; by apply (Hsol ct cs)|].
    rewrite Hkept, Hdt.
    destruct Hcase as [(ds'&?&?)|(b&->&->&?)].
    + left. exists ds', dt. done.
    + right. exists b. do 2 (split; [done|]). by right.
Qed.

Lemma Permutation_cons_without value d :
  NoDup d → value ∈ d → d ≡ₚ value :: without value d.
Proof.
  intros Hnd Hin. apply NoDup_Permutation; [done| |].
  - apply NoDup_cons. split; [|by apply NoDup_without].
    rewrite elem_of_without. by intros [? _].
  - intros x. rewrite elem_of_cons, elem_of_without.
    destruct (decide (x = value)) as [->|]; naive_solver.
Qed.

Lemma put_back_nil value : put_back value [] = [value].
Proof.
  unfold put_back. rewrite decide_False by (by intros ?%elem_of_nil).
  apply Permutation_singleton_r. by rewrite merge_sort_Permutation.
Qed.

Lemma put_back_singleton value b :
  value ≠ b → put_back value [b] ≡ₚ [value; b].
Proof.
  intros Hne. unfold put_back. rewrite merge_sort_Permutation.
  rewrite decide_False by (by intros ->%list_elem_of_singleton).
  apply Permutation_swap.
Qed.

(** What pruning [value] below [f], a failed search, and the undo do to
    the domain of a neighbour [n] of [f]. *)
Lemma restored_domain value inf st2 st3 st4 n d d3 :
  NoDup d →
  (n ∈ inf.*1 ↔ value ∈ d) →
  (∀ m, domains (csp st4) !! m =
        if decide (m ∈ inf.*1) then put_back value <$> domains (csp st3) !! m
        else domains (csp st3) !! m) →
  domains (csp st3) !! n = Some d3 → d3 ≡ₚ without value d →
  ∃ d4, domains (csp st4) !! n = Some d4 ∧ d4 ≡ₚ d.
Proof.
  intros Hnd Hin Hd4 Hd3 Hperm. rewrite Hd4, Hd3.
  destruct (decide (value ∈ d)) as [Hv|Hv].
  - rewrite decide_True by (by apply Hin). eexists. split; [done|].
    rewrite (put_back_Permutation _ _ _ Hperm). by apply put_back_without.
  - rewrite decide_False by (by rewrite Hin). eexists. split; [done|].
    by rewrite Hperm, without_notin.
Qed.

(** No variable assigned, [f] chosen.  A failure means that the domains
    the loop started with have no three distinct values. *)
Lemma level0_loop depth f s t values ds0 dt0 st ds dt st' :
  triangle_shape (csp st) f s t → unique_values st →
  assignment st = ∅ →
  domains (csp st) !! s = Some ds → domains (csp st) !! t = Some dt →
  NoDup values → NoDup ds0 → NoDup dt0 →
  level0_inv values ds0 dt0 ds dt →
  try_values (backtrack (S (S (S depth)))) f values st = (Ret None, st') →
  ∀ cf cs ct, cf ∈ values → cs ∈ ds0 → ct ∈ dt0 →
              cf ≠ cs → cf ≠ ct → cs ≠ ct → False.
Proof.
  revert st ds dt. induction values as [|a values IH];
    intros st ds dt Hshape Hu Ha Hds Hdt Hndv Hnd0s Hnd0t Hinv.
  { by intros _ ??? ?%elem_of_nil. }
  pose proof (triangle_distinct _ _ _ _ Hshape) as (Hfs&Hft&Hst).
  destruct (triangle_neighbors _ f s t f Hshape) as (nsf&Hnsf&Hinf);
    [set_solver|].
  assert (assignment st !! f = None) as Haf by (by rewrite Ha).
  apply NoDup_cons in Hndv as [Hav Hndv].
  intros (st1&Htry&Hrest)%try_values_cons_None.
  pose proof Htry as [[Hf1 Ha1] _]%try_value_frame;
    [|intros ???; apply backtrack_frame|done].
  apply try_value_inv in Htry; [|intros ???; apply backtrack_frame].
  assert (s ∈ nsf ∧ t ∈ nsf) as [Hsn Htn].
  { split; apply Hinf; set_solver. }
  assert (<[f:=a]> (assignment st) !! s = None ∧
          <[f:=a]> (assignment st) !! t = None) as [Has Hat].
  { rewrite Ha. split; by simplify_map_eq. }
  inversion Htry as [|ns Hns Hag|
      |ns st2 Hns Hag Hfc| |ns inf st2 st3 st4 Hns Hag Hfc Hrr Hres| | |];
    subst.
  - (* no neighbour is assigned *)
    apply agrees_false in Hag as (n&_&Hna). by rewrite Ha in Hna.
  - (* conflict: a neighbour had this value only, and [f] no other *)
    apply forward_checking_spec in Hfc as (ns'&Hns'&Hconf); [|done].
    destruct Hconf as (n&d&Hn&Hna&Hd&Hin&Hw&_).
    simpl in Hns', Hna, Hd. rewrite Hnsf in Hns'. injection Hns' as <-.
    apply Hinf in Hn as [Hn Hnf].
    apply without_nil in Hw; [|by eauto|done]. subst d.
    assert ((n = s ∧ ds = [a]) ∨ (n = t ∧ dt = [a])) as Hwho.
    { apply elem_of_cons in Hn as [->|Hn]; [done|].
      apply elem_of_cons in Hn as [->|Hn]; [left; split; congruence|].
      apply list_elem_of_singleton in Hn as ->. right. split; congruence. }
    destruct Hinv as [(Hps&Hpt&Hls&Hlt)|[?|Hharm]]; [|done|].
    + assert (values = []) as ->.
      { destruct Hwho as [[_ ->]|[_ ->]].
        - apply Permutation_length in Hps. simpl in *.
          destruct values; [done|simpl in *; lia].
        - apply Permutation_length in Hpt. simpl in *.
          destruct values; [done|simpl in *; lia]. }
      intros cf cs ct ->%list_elem_of_singleton Hcs Hct ???.
      destruct Hwho as [[_ ->]|[_ ->]].
      * rewrite <-Hps in Hcs. by apply list_elem_of_singleton in Hcs.
      * rewrite <-Hpt in Hct. by apply list_elem_of_singleton in Hct.
    + exfalso. destruct Hharm as (a'&a2&b&[= -> ->]&Hne&Hab&_&_&Hnow).
      destruct Hnow as [[Hps ->]|[-> Hpt]], Hwho as [[_ Heq]|[_ Heq]];
        try (injection Heq as ->; done).
      * rewrite Heq in Hps. by apply Permutation_length in Hps.
      * rewrite Heq in Hpt. by apply Permutation_length in Hpt.
  - (* the level below failed *)
    pose proof Hfc as (Hf2&Ha2&_)%pruned_frame; [|done].
    apply forward_checking_spec in Hfc as (ns'&Hns'&Hspec); [|done].
    destruct Hspec as (Hd2&_&Hin2&Hnd2&Hvals2).
    simpl in Hns', Hd2, Hin2. rewrite Hnsf in Hns'. injection Hns' as <-.
    assert (domains (csp st2) !! s = Some (without a ds) ∧
            domains (csp st2) !! t = Some (without a dt)) as [Hds2 Hdt2].
    { rewrite !Hd2, !decide_True by done. by rewrite Hds, Hdt. }
    destruct (level1 depth f s t a st2 (without a ds) (without a dt) st3)
      as [Hsol1 Hcase1]; try done.
    { eapply triangle_shape_same; [|done]. by destruct Hf2. }
    { by eapply unique_values_frame. }
    { by rewrite Ha2; simpl; rewrite Ha. }
    pose proof (restore_all_spec a inf st3 st4 Hnd2 Hvals2 Hres) as Hd4.
    assert (s ∈ inf.*1 ↔ a ∈ ds) as Hsinf.
    { rewrite Hin2. split; [intros (_&_&d&?&?); congruence|eauto]. }
    assert (t ∈ inf.*1 ↔ a ∈ dt) as Htinf.
    { rewrite Hin2. split; [intros (_&_&d&?&?); congruence|eauto]. }
    assert (NoDup ds ∧ NoDup dt) as [Hnds Hndt] by (split; eauto).
    (* this value of [f] is part of no solution *)
    assert (∀ cs ct, cs ∈ ds0 → ct ∈ dt0 → a ≠ cs → a ≠ ct → cs ≠ ct → False)
      as Hthis.
    { intros cs ct Hcs Hct Hacs Hact Hcsct.
      destruct Hinv as [(Hps&Hpt&_)|[?|Hharm]]; [|done|].
      - apply (Hsol1 cs ct); try done; try congruence.
        + apply elem_of_without. by rewrite Hps.
        + apply elem_of_without. by rewrite Hpt.
      - destruct Hharm as (a'&a2&b&[= <- ->]&Hne&Hab&Hs0&Ht0&Hnow).
        rewrite Hs0 in Hcs. rewrite Ht0 in Hct.
        assert (a ≠ b) as Hab'.
        { set_unfold. naive_solver. }
        destruct Hnow as [[Hps ->]|[-> Hpt]].
        + apply (Hsol1 b a'); try done; try congruence.
          * apply elem_of_without. rewrite Hps. set_solver.
          * apply elem_of_without. set_solver.
        + apply (Hsol1 a' b); try done; try congruence.
          * apply elem_of_without. set_solver.
          * apply elem_of_without. rewrite Hpt. set_solver. }
    intros cf cs ct [->|Hcf]%elem_of_cons; [by apply Hthis|].
    (* the values of [f] still to try *)
    assert (∃ ds1 dt1,
              domains (csp (unassign f st4)) !! s = Some ds1 ∧
              domains (csp (unassign f st4)) !! t = Some dt1 ∧
              level0_inv values ds0 dt0 ds1 dt1) as (ds1&dt1&Hds1&Hdt1&Hinv1).
    { destruct values as [|a2 values]; [by apply elem_of_nil in Hcf|].
      destruct Hinv as [(Hps&Hpt&Hls&Hlt)|[?|Hharm]]; [|done|].
      2: { by destruct Hharm as (?&?&?&?&_). }
      simpl. destruct Hcase1 as [(ds3&dt3&Hds3&Hdt3&Hp3s&Hp3t)|Hlossy].
      - destruct (restored_domain a inf st2 st3 st4 s ds ds3)
          as (ds4&Hds4&Hp4s); try done.
        destruct (restored_domain a inf st2 st3 st4 t dt dt3)
          as (dt4&Hdt4&Hp4t); try done.
        exists ds4, dt4. do 2 (split; [done|]). left.
        split; [by etrans|]. split; [by etrans|]. simpl in *. lia.
      - destruct Hlossy as (b&Hws&Hwt&Hlost).
        assert (length ds = length ds0 ∧ length dt = length dt0) as [Hl1 Hl2].
        { split; by apply Permutation_length. }
        assert (a ∈ ds) as Hains.
        { destruct (decide (a ∈ ds)) as [|Hn]; [done|].
          rewrite without_notin in Hws by done. subst ds.
          simpl in *. lia. }
        assert (a ∈ dt) as Haint.
        { destruct (decide (a ∈ dt)) as [|Hn]; [done|].
          rewrite without_notin in Hwt by done. subst dt.
          simpl in *. lia. }
        pose proof (Permutation_cons_without a ds Hnds Hains) as Hpds.
        pose proof (Permutation_cons_without a dt Hndt Haint) as Hpdt.
        rewrite Hws in Hpds. rewrite Hwt in Hpdt.
        assert (a ≠ b) as Hab.
        { intros ->. assert (b ∈ without b ds) as Hb by (rewrite Hws; by left).
          apply elem_of_without in Hb as [? _]. done. }
        assert (values = []) as ->.
        { rewrite Hpds in Hl1. simpl in *. destruct values; [done|].
          simpl in *. lia. }
        assert (a2 ≠ a) as Ha2a.
        { intros ->. apply Hav. by left. }
        rewrite !Hd4, !decide_True by (by rewrite ?Hsinf, ?Htinf).
        destruct Hlost as [[-> ->]|[-> ->]]; simpl;
          eexists _, _; (do 2 (split; [done|])); right; right;
          exists a, a2, b; (do 3 (split; [done|]));
          (split; [by rewrite <-Hps|]); (split; [by rewrite <-Hpt|]).
        + left. split; [by apply put_back_singleton|apply put_back_nil].
        + right. split; [apply put_back_nil|by apply put_back_singleton]. }
    apply (IH (unassign f st4) ds1 dt1); try done.
    + eapply triangle_shape_same; [|done]. by destruct Hf1.
    + by eapply unique_values_frame.
    + by rewrite Ha1.
Qed.

(** No variable assigned: a failure means that the triangle has no
    solution. *)
Lemma level0 depth x y z st dx dy dz st' :
  triangle_shape (csp st) x y z → unique_values st →
  assignment st = ∅ →
  domains (csp st) !! x = Some dx → domains (csp st) !! y = Some dy →
  domains (csp st) !! z = Some dz →
  backtrack (S (S (S (S depth)))) st = (Ret None, st') →
  ∀ cx cy cz, cx ∈ dx → cy ∈ dy → cz ∈ dz →
              cx ≠ cy → cx ≠ cz → cy ≠ cz → False.
Proof.
  intros Hshape Hu Ha Hdx Hdy Hdz
    (var&values&Hvar&Hd&Hmin&Hrun)%backtrack_None_inv.
  pose proof Hshape as (_&_&Hvs&_).
  assert (x ∈ unassigned st ∧ y ∈ unassigned st ∧ z ∈ unassigned st)
    as (Hxu&Hyu&Hzu).
  { rewrite !elem_of_unassigned, !Hvs, Ha.
    split; [|split]; (split; [by simplify_map_eq|set_solver]). }
  assert (NoDup dx ∧ NoDup dy ∧ NoDup dz) as (Hndx&Hndy&Hndz).
  { split; [|split]; eauto. }
  pose proof Hvar as [_ Hin]%elem_of_unassigned. apply Hvs in Hin.
  apply elem_of_cons in Hin as [->|Hin];
    [|apply elem_of_cons in Hin as [->|Hin];
      [|apply list_elem_of_singleton in Hin as ->]].
  - rewrite Hdx in Hd. injection Hd as <-.
    apply (level0_loop depth x y z dx dy dz st dy dz st'); try done.
    left. do 2 (split; [done|]). split; eauto.
  - rewrite Hdy in Hd. injection Hd as <-.
    intros cx cy cz ??????.
    apply (level0_loop depth y x z dy dx dz st dx dz st'
             ltac:(eapply triangle_shape_perm; [apply Permutation_swap|done])
             Hu Ha Hdx Hdz Hndy Hndx Hndz) with cy cx cz;
      try done; try congruence.
    left. do 2 (split; [done|]). split; eauto.
  - rewrite Hdz in Hd. injection Hd as <-.
    intros cx cy cz ??????.
    assert ([x; y; z] ≡ₚ [z; x; y]) as Hperm.
    { etrans; [|apply Permutation_swap]. apply perm_skip, Permutation_swap. }
    apply (level0_loop depth z x y dz dx dy st dx dy st'
             ltac:(by eapply triangle_shape_perm)
             Hu Ha Hdx Hdy Hndz Hndx Hndy) with cz cx cy;
      try done; try congruence.
    left. do 2 (split; [done|]). split; eauto.
Qed.

(** *** Searches on instances built by the constructor *)

Lemma add_constraints_ret cs (nb0 : gmap Var (list Var)) :
  (∀ u v, (u, v) ∈ cs → is_Some (nb0 !! u) ∧ is_Some (nb0 !! v)) →
  ∃ nb, add_constraints cs nb0 = (Ret tt, nb).
Proof.
  revert nb0. induction cs as [|[v1 v2] cs IH]; intros nb0 Hcs;
    cbn [add_constraints]; [by eexists|].
  destruct (Hcs v1 v2) as [[l1 H1] [l2 H2]]; [by left|].
  unfold bind at 1. rewrite append_neighbor_eq, H1.
  unfold bind at 1. rewrite append_neighbor_eq.
  destruct (<[v1:=l1 ++ [v2]]> nb0 !! v2) as [l2'|] eqn:H2'.
  - apply IH. intros u v Huv.
    destruct (Hcs u v) as [Hu Hv]; [by right|].
    rewrite !lookup_insert_is_Some'. by split; right; right.
  - destruct (decide (v1 = v2)) as [->|Hne].
    + by rewrite lookup_insert_eq in H2'.
    + rewrite lookup_insert_ne, H2 in H2' by done. done.
Qed.

Lemma new_CSP_ret (vs : list Var) ds cs :
  (∀ u v, (u, v) ∈ cs → u ∈ vs ∧ v ∈ vs) →
  ∃ c, new_CSP vs ds cs = Ret c.
Proof.
  intros Hcs. unfold new_CSP, build_neighbors.
  destruct (add_constraints_ret cs (empty_neighbors vs)) as [nb ->];
    [|by eexists].
  intros u v [Hu Hv]%Hcs. rewrite !empty_neighbors_lookup.
  by rewrite !decide_True by done.
Qed.

Lemma size_list_to_set_le (l : list Var) :
  size (list_to_set l : gset Var) ≤ length l.
Proof.
  induction l as [|v l IH]; [by rewrite list_to_set_nil, size_empty|].
  rewrite list_to_set_cons, size_union_alt, size_singleton. simpl.
  pose proof (subseteq_size (list_to_set l ∖ {[v]}) (list_to_set l : gset Var)
                ltac:(set_solver)).
  lia.
Qed.

Lemma searchable_start c :
  symmetric_neighbors c → searchable (start c) (start c).
Proof.
  intros Hsym. split; [done|]. split.
  { intros u v ns x _ _ _ Hx. simpl in Hx. by rewrite lookup_empty in Hx. }
  split.
  { intros v x Hx. simpl in Hx. by rewrite lookup_empty in Hx. }
  split; [apply domains_rel_refl, narrows_refl|].
  split; [|done]. intros v [x Hx]. simpl in Hx.
  by rewrite lookup_empty in Hx.
Qed.

(** A returned assignment gives every variable a value of its domain, and
    the two ends of a constraint different values. *)
Lemma backtrack_new_CSP_sound (vs : list Var) ds cs c depth a st' :
  new_CSP vs ds cs = Ret c →
  backtrack depth (start c) = (Ret (Some a), st') →
  (∀ v, v ∈ vs ↔ is_Some (a !! v)) ∧
  (∀ v x, a !! v = Some x → ∃ d, ds !! v = Some d ∧ x ∈ d) ∧
  (∀ u v, (u, v) ∈ cs → u ≠ v → a !! u ≠ a !! v).
Proof.
  intros Hnew Hrun.
  pose proof (new_CSP_symmetric _ _ _ _ Hnew) as Hsym.
  pose proof Hnew as (Hv&Hd&_&Hdom&Hcs&Hns)%new_CSP_spec.
  pose proof (backtrack_frame _ _ _ _ Hrun) as [((_&_&Hn)&_) _].
  apply (backtrack_sound _ (start c)) in Hrun
    as (->&Hcons&Hdrawn&Hsize&Hkeys&Hvars); [|by apply searchable_start].
  simpl in Hvars, Hn. rewrite Hvars, Hv in Hsize, Hkeys.
  assert (dom (assignment st') = list_to_set vs) as Hdoma.
  { apply set_subseteq_size_eq.
    - intros v. rewrite elem_of_dom, elem_of_list_to_set. apply Hkeys.
    - rewrite size_dom, Hsize. apply size_list_to_set_le. }
  split; [|split].
  - intros v. by rewrite <-elem_of_dom, Hdoma, elem_of_list_to_set.
  - intros v x Hx. destruct (Hdrawn v x Hx) as (d&Hd'&?). simpl in Hd'.
    rewrite Hd in Hd'. eauto.
  - intros u v Huv Hne Heq.
    destruct (Hcs u v Huv) as [Hu _].
    pose proof Hu as [nsu Hnsu]%Hdom.
    assert (is_Some (assignment st' !! u)) as [x Hx].
    { by rewrite <-elem_of_dom, Hdoma, elem_of_list_to_set. }
    apply (Hcons u v nsu x); [by rewrite Hn| |done|done|congruence].
    apply (Hns u nsu Hnsu). by left.
Qed.

(** The search returns when the variables are distinct and have domains. *)
Lemma backtrack_new_CSP_ret (vs : list Var) ds cs c :
  new_CSP vs ds cs = Ret c →
  NoDup vs → (∀ v, v ∈ vs → is_Some (ds !! v)) →
  ∃ r st', backtrack (S (length vs)) (start c) = (Ret r, st').
Proof.
  intros Hnew Hnd Hds. pose proof Hnew as (Hv&_)%new_CSP_spec.
  apply backtrack_ret; [by eapply new_CSP_well_formed|].
  pose proof (unassigned_length (start c)) as Hlen. simpl in Hlen.
  rewrite Hv in Hlen. lia.
Qed.

Lemma new_CSP_triangle_shape (x y z : Var) (vs : list Var) ds cs c :
  NoDup [x; y; z] → vs ≡ₚ [x; y; z] → one_constraint_per_pair x y z cs →
  new_CSP vs ds cs = Ret c → triangle_shape c x y z.
Proof.
  intros Hnd Hperm Hpairs (Hv&_&_&Hdom&_&Hns)%new_CSP_spec.
  split; [done|]. rewrite Hv. split; [by rewrite Hperm|].
  split; [intros v; by rewrite Hperm|].
  intros u Hu. destruct (proj2 (Hdom u)) as [ns Hu']; [by rewrite Hperm|].
  exists ns. split; [done|]. intros v.
  rewrite (Hns u ns Hu' v), (Hpairs u v). naive_solver.
Qed.

Lemma triangle_constraints_per_pair (x y z : Var) :
  NoDup [x; y; z] → one_constraint_per_pair x y z [(x, y); (x, z); (y, z)].
Proof.
  intros Hnd u v.
  assert (x ≠ y ∧ x ≠ z ∧ y ≠ z) as (?&?&?).
  { apply NoDup_cons in Hnd as [? [? _]%NoDup_cons]. set_solver. }
  set_unfold. naive_solver.
Qed.

(** The all-different triangle with domains that list no value twice. *)
Lemma backtrack_triangle (x y z : Var) (vs : list Var) cs dx dy dz :
  NoDup [x; y; z] → vs ≡ₚ [x; y; z] → one_constraint_per_pair x y z cs →
  NoDup dx → NoDup dy → NoDup dz →
  ∃ c, new_CSP vs (<[x := dx]> (<[y := dy]> (<[z := dz]> ∅))) cs = Ret c ∧
       complete_on c x y z dx dy dz.
Proof.
  intros Hnd Hperm Hpairs Hndx Hndy Hndz.
  pose proof Hnd as [Hx Hy]%NoDup_cons.
  apply NoDup_cons in Hy as [Hy _].
  assert (x ≠ y ∧ x ≠ z ∧ y ≠ z) as (Hxy&Hxz&Hyz) by set_solver.
  set (ds := <[x := dx]> (<[y := dy]> (<[z := dz]> ∅))).
  assert (ds !! x = Some dx ∧ ds !! y = Some dy ∧ ds !! z = Some dz)
    as (Hdx&Hdy&Hdz) by (unfold ds; by simplify_map_eq).
  destruct (new_CSP_ret vs ds cs) as [c Hnew].
  { intros u v Huv. rewrite !Hperm.
    destruct (proj1 (Hpairs u v)) as (?&?&_); [by left|done]. }
  exists c. split; [done|].
  pose proof Hnew as (Hv&Hd&_)%new_CSP_spec.
  assert (length vs = 3) as Hlen by (by rewrite Hperm).
  destruct (backtrack_new_CSP_ret vs ds cs c Hnew) as (r&st'&Hrun).
  { by rewrite Hperm. }
  { intros v. rewrite Hperm. intros Hin. set_unfold.
    destruct Hin as [->|[->|[->|[]]]]; by eexists. }
  exists r, st'. rewrite Hv, Hlen. rewrite Hlen in Hrun. split; [done|].
  destruct r as [a|].
  - destruct (backtrack_new_CSP_sound vs ds cs c _ a st' Hnew Hrun)
      as (Hkeys&Hdrawn&Hdiff).
    assert (∀ v, v ∈ [x; y; z] → is_Some (a !! v)) as Hsome.
    { intros v Hin. apply Hkeys. by rewrite Hperm. }
    destruct (Hsome x) as [cx Hcx]; [set_solver|].
    destruct (Hsome y) as [cy Hcy]; [set_solver|].
    destruct (Hsome z) as [cz Hcz]; [set_solver|].
    assert (∀ u v, u ∈ [x; y; z] → v ∈ [x; y; z] → u ≠ v → a !! u ≠ a !! v)
      as Hne.
    { intros u v Hu Hv' Huv.
      destruct (proj2 (Hpairs u v)) as [Hc|Hc]; [done| |].
      - by apply Hdiff.
      - intros Heq. by apply (Hdiff v u Hc). }
    exists cx, cy, cz. split.
    { apply map_eq. intros v.
      destruct (decide (v = x)) as [->|?]; [by simplify_map_eq|].
      destruct (decide (v = y)) as [->|?]; [by simplify_map_eq|].
      destruct (decide (v = z)) as [->|?]; [by simplify_map_eq|].
      simplify_map_eq. apply eq_None_not_Some. rewrite <-Hkeys, Hperm.
      set_solver. }
    split. { destruct (Hdrawn x cx Hcx) as (d&?&?). by simplify_eq. }
    split. { destruct (Hdrawn y cy Hcy) as (d&?&?). by simplify_eq. }
    split. { destruct (Hdrawn z cz Hcz) as (d&?&?). by simplify_eq. }
    split; [|split].
    + intros ->. apply (Hne x y); [set_solver..|done|congruence].
    + intros ->. apply (Hne x z); [set_solver..|done|congruence].
    + intros ->. apply (Hne y z); [set_solver..|done|congruence].
  - intros a (cx&cy&cz&_&?&?&?&?&?&?).
    apply (level0 0 x y z (start c) dx dy dz st') with cx cy cz; try done.
    + by eapply new_CSP_triangle_shape.
    + intros v d. simpl. rewrite Hd. unfold ds. intros Hlk.
      destruct (decide (v = x)) as [->|?]; [by simplify_map_eq|].
      destruct (decide (v = y)) as [->|?]; [by simplify_map_eq|].
      destruct (decide (v = z)) as [->|?]; [by simplify_map_eq|].
      by simplify_map_eq.
    + simpl. by rewrite Hd.
    + simpl. by rewrite Hd.
    + simpl. by rewrite Hd.
Qed.

End theory.

(** *** The claims on the search *)

Section claims.
Context {Var : Type} {Var_eq : EqDecision Var} {Var_count : Countable Var}.
Implicit Types (st : store Var) (c : CSP Var) (a : gmap Var Z).

(** C7 (minimum remaining values): when some variable is unassigned (and
    the unassigned variables have domains), [select_unassigned_variable]
    returns an unassigned variable of [csp.variables] whose domain is no
    longer than that of any other unassigned variable, and strictly
    shorter than that of every unassigned variable listed before it. *)
Theorem select_unassigned_variable_mrv st :
  unassigned st ≠ [] →
  (∀ v, v ∈ unassigned st → is_Some (domains (csp st) !! v)) →
  ∃ var d pre post,
    select_unassigned_variable st = (Ret var, st) ∧
    var ∈ variables (csp st) ∧ assignment st !! var = None ∧
    domains (csp st) !! var = Some d ∧
    (∀ u du, u ∈ variables (csp st) → assignment st !! u = None →
             domains (csp st) !! u = Some du → length d ≤ length du) ∧
    unassigned st = pre ++ var :: post ∧
    (∀ u du, u ∈ pre → domains (csp st) !! u = Some du →
             length d < length du).
Proof.
  intros Hne Hdom.
  destruct (select_unassigned_variable_spec st Hne Hdom)
    as (var&pre&post&d&Hsel&Hun&Hd&Hpre&Hpost).
  assert (var ∈ unassigned st) as [Hvar Hin]%elem_of_unassigned.
  { rewrite Hun. apply elem_of_app. right. by left. }
  exists var, d, pre, post. do 4 (split; [done|]). split; [|split; [done|]].
  - intros u du Hu Hau Hdu.
    assert (u ∈ unassigned st) as Huin by by apply elem_of_unassigned.
    rewrite Hun in Huin.
    apply elem_of_app in Huin as [Huin|[->|Huin]%elem_of_cons].
    + destruct (Hpre u Huin) as (du'&Hdu'&Hlt).
      rewrite Hdu in Hdu'. injection Hdu' as <-. lia.
    + rewrite Hd in Hdu. by injection Hdu as <-.
    + destruct (Hpost u Huin) as (du'&Hdu'&Hle).
      rewrite Hdu in Hdu'. by injection Hdu' as <-.
  - intros u du Hu Hdu. destruct (Hpre u Hu) as (du'&Hdu'&Hlt).
    rewrite Hdu in Hdu'. by injection Hdu' as <-.
Qed.



End claims.

(** **** Concrete runs *)

(** C1 (undo after a conflict) does not hold of the code.  X = [1],
    Y = [1, 2], Z = [1], with X different from Y and from Z: assigning 1 to
    X prunes Y to [2] and then empties Z, [forward_checking] answers [None]
    and its record of the pruning of Y is gone; [remove_inference(None)]
    changes nothing; the search returns [None] and leaves Y = [2], Z = [],
    where they were [1, 2] and [1]. *)
Theorem forward_checking_conflict_loses_values :
  fork "X" "Y" "Z" [1]%Z [1; 2]%Z [1]%Z = Ret lost ∧
  domains lost = <["X" := [1]%Z]> (<["Y" := [1; 2]%Z]> (<["Z" := [1]%Z]> ∅)) ∧
  (let check := forward_checking "X" 1 (assign "X" 1 (start lost)) in
   check.1 = Ret None ∧
   domains (csp check.2)
     = <["X" := [1]%Z]> (<["Y" := [2]%Z]> (<["Z" := []]> ∅)) ∧
   remove_inference None check.2 = (Ret tt, check.2)) ∧
  (let run := backtrack 4 (start lost) in
   run.1 = Ret None ∧
   domains (csp run.2)
     = <["X" := [1]%Z]> (<["Y" := [2]%Z]> (<["Z" := []]> ∅))).
Proof.
  split; [vm_compute; reflexivity|].
  split; [reflexivity|].
  split; [|split; vm_compute; reflexivity].
  split; [vm_compute; reflexivity|].
  split; [vm_compute; reflexivity|reflexivity].
Qed.


(** At the start of a search on [ties] all three variables are unassigned
    and have domains. *)
Lemma select_unassigned_variable_mrv_witness :
  ∃ var d pre post,
    select_unassigned_variable (start ties) = (Ret var, start ties) ∧
    var ∈ variables ties ∧ (∅ : gmap string Z) !! var = None ∧
    domains ties !! var = Some d ∧
    (∀ u du, u ∈ variables ties → (∅ : gmap string Z) !! u = None →
             domains ties !! u = Some du → length d ≤ length du) ∧
    unassigned (start ties) = pre ++ var :: post ∧
    (∀ u du, u ∈ pre → domains ties !! u = Some du → length d < length du).
Proof.
  apply (select_unassigned_variable_mrv (start ties)).
  - vm_compute. discriminate.
  - intros v Hv. apply elem_of_unassigned in Hv as [_ Hv].
    simpl in Hv. set_unfold.
    destruct Hv as [->|[->|[->|[]]]]; vm_compute; eauto.
Defined.

End BacktrackingTheory.

(** ** More on AC-3 *)

Module AC3Laws.
Import AC3 AC3Theory.
Section laws.
Context {Var : Type} {Var_eq : EqDecision Var} {Var_count : Countable Var}.
Context {Val : Type} {Val_eq : EqDecision Val}.
Implicit Types (c : csp Var Val) (xi xj v : Var) (a : Var → Val).

Lemma list_remove_other (x y : Val) (l l' : list Val) :
  list_remove x l = Some l' → y ∈ l → y ≠ x → y ∈ l'.
Proof.
  revert l'. induction l as [|z l IH]; intros l'; simpl; [done|].
  case_decide as Hz.
  - intros [= <-] [->|?]%elem_of_cons ?; done.
  - destruct (list_remove x l) as [l''|]; simpl; [|done].
    intros [= <-] [->|?]%elem_of_cons ?; [by left|right; by apply IH].
Qed.

Lemma revise_loop_keeps a xi xj copy b c r c' :
  (∀ v d, domains c !! v = Some d → a v ∈ d) →
  constraints c xi (a xi) xj (a xj) = true →
  revise_loop xi xj copy b c = (r, c') →
  ∀ v d, domains c' !! v = Some d → a v ∈ d.
Proof.
  revert b c. induction copy as [|x rest IH]; intros b c Hin Hp; simpl.
  { by intros [= <- <-]. }
  unfold bind at 1. rewrite get_domain_eq.
  destruct (domains c !! xj) as [dj|] eqn:Hj; [|by intros [= <- <-]].
  unfold bind at 1, gets at 1.
  destruct (existsb _ dj) eqn:Hex; [by apply IH|].
  unfold bind at 1. rewrite remove_value_eq.
  destruct (domains c !! xi) as [di|] eqn:Hi; [|by intros [= <- <-]].
  destruct (list_remove x di) as [di'|] eqn:Hrm; [|by intros [= <- <-]].
  apply IH; [|done]. simpl. intros v d.
  destruct (decide (v = xi)) as [->|Hv].
  - rewrite lookup_insert_eq. intros [= <-].
    apply (list_remove_other x _ di); [done|by apply Hin|].
    intros Hx. apply not_true_iff_false in Hex. apply Hex.
    apply existsb_exists. exists (a xj). rewrite <-Hx.
    split; [|done]. apply list_elem_of_In. by apply Hin.
  - rewrite lookup_insert_ne by done. apply Hin.
Qed.

Lemma revise_keeps a xi xj c r c' :
  (∀ v d, domains c !! v = Some d → a v ∈ d) →
  constraints c xi (a xi) xj (a xj) = true →
  revise xi xj c = (r, c') →
  ∀ v d, domains c' !! v = Some d → a v ∈ d.
Proof.
  intros Hin Hp. unfold revise, bind. rewrite get_domain_eq.
  destruct (domains c !! xi); [|by intros [= <- <-]].
  by apply revise_loop_keeps.
Qed.

Lemma ac3_loop_keeps a fuel q c r c' :
  ac3_solution c a →
  (∀ xi xj, (xi, xj) ∈ q → is_arc c xi xj ∨ is_arc c xj xi) →
  ac3_loop fuel q c = (r, c') →
  r ≠ Ret false ∧ ac3_solution c' a.
Proof.
  revert q c. induction fuel as [|fuel IH];
    intros [|[xi xj] rest] c Hsol Hq; cbn [ac3_loop];
    try (by intros [= <- <-]).
  unfold bind.
  destruct (ac3_body xi xj rest c) as [s c1] eqn:Hbody.
  pose proof Hbody as (Hsh & _ & Hcont)%ac3_body_frame.
  assert (ac3_solution c1 a) as Hsol1.
  { destruct Hsol as [Hin Hp]. destruct Hsh as (_ & Hn & Hc & _).
    split.
    - unfold ac3_body, bind at 1 in Hbody.
      destruct (revise xi xj c) as [rr c2] eqn:Hrev.
      assert (∀ v d, domains c2 !! v = Some d → a v ∈ d) as Hin2.
      { eapply revise_keeps; [done| |done].
        destruct (Hq xi xj) as [Harc|Harc]; [by left|..];
          apply Hp in Harc; tauto. }
      assert (c1 = c2) as ->; [|done].
      destruct rr as [[]| |]; try (by injection Hbody as _ <-).
      unfold bind at 1 in Hbody. rewrite get_domain_eq in Hbody.
      destruct (domains c2 !! xi) as [[|]|]; try (by injection Hbody as _ <-).
      unfold bind in Hbody. rewrite get_neighbors_eq in Hbody.
      destruct (neighbors c2 !! xi); by injection Hbody as _ <-.
    - unfold is_arc. rewrite Hn, Hc. apply Hp. }
  destruct s as [[b|q']| |]; try (by intros [= <- <-]).
  - intros [= <- <-]. split; [|done]. intros [= ->].
    apply ac3_body_cases in Hbody as (? & _ & _ & _ & Hempty).
    destruct Hsol1 as [Hin _]. by apply Hin, elem_of_nil in Hempty.
  - apply IH; [done|]. intros xk xl Hkl.
    assert (∀ x y, is_arc c x y → is_arc c1 x y) as Hmono.
    { intros x y. by apply is_arc_shrinks. }
    destruct (Hcont q' eq_refl) as [[-> _]|(_ & ns & Hns & ->)].
    + destruct (Hq xk xl) as [?|?]; [by right|auto..].
    + apply elem_of_app in Hkl as [Hkl|Hkl].
      { destruct (Hq xk xl) as [?|?]; [by right|auto..]. }
      unfold requeue in Hkl.
      apply list_elem_of_fmap in Hkl as (xm & [= -> ->] & Hxm).
      apply list_elem_of_filter in Hxm as [_ Hxm].
      right. apply Hmono. by exists ns.
Qed.


Lemma arcs_of_raises vs c v :
  v ∈ vs → neighbors c !! v = None → arcs_of vs c = (Raise KeyError, c).
Proof.
  induction vs as [|x vs IH]; [by intros ?%elem_of_nil|].
  intros Hin Hv. cbn [arcs_of]. unfold bind at 1. rewrite get_neighbors_eq.
  destruct (neighbors c !! x) as [ns|] eqn:Hns; [|done].
  apply elem_of_cons in Hin as [->|Hin]; [congruence|].
  unfold bind. by rewrite IH.
Qed.

(** With a list to each key, a run of [ac3] never removes the value a
    solution gives to a variable, and it does not return [False] when
    there is a solution. *)
Lemma ac3_keeps_solutions c a :
  ac3_solution c a →
  (ac3 c).1 ≠ Ret false ∧ ac3_solution (ac3 c).2 a.
Proof.
  intros Hsol. rewrite ac3_eq.
  destruct (arcs_of (variables c) c) as [[q| |] c0] eqn:Harcs; try done.
  pose proof (arcs_of_state (variables c) c) as Hst.
  rewrite Harcs in Hst. simpl in Hst. subst c0.
  destruct (ac3_loop (ac3_fuel c q) q c) as [r c'] eqn:Hrun.
  apply (ac3_loop_keeps a) in Hrun; [done..|].
  intros xi xj Hin. left. by eapply arcs_of_is_arc.
Qed.


(** On an instance in which every value already has its supports, [ac3]
    returns [True] and changes nothing, whether or not a domain is
    empty. *)
Theorem ac3_consistent_unchanged c :
  (∀ xi, xi ∈ variables c → is_Some (neighbors c !! xi)) →
  (∀ xi xj, xi ∈ variables c → is_arc c xi xj → arc_consistent c xi xj) →
  ac3 c = (Ret true, c).
Proof.
  intros Hn Hcons. rewrite ac3_eq.
  destruct (arcs_of_ret (variables c) c Hn) as (q & -> & Hq).
  apply ac3_loop_consistent; [unfold ac3_fuel; lia|].
  intros x y Hxy. destruct (Hq x y Hxy). by apply Hcons.
Qed.

(** A variable without an entry in [csp['neighbors']] makes [ac3] raise
    [KeyError] while it builds the queue, before any domain is touched. *)
Theorem ac3_raises_without_neighbors c v :
  v ∈ variables c → neighbors c !! v = None →
  ac3 c = (Raise KeyError, c).
Proof.
  intros Hin Hv. by rewrite ac3_eq, (arcs_of_raises _ _ v).
Qed.

(** [revise] at the edges: no domain for [xi] is a [KeyError]; an empty
    domain of [xi] is [False] without a look at [xj]; a value to check
    and no domain for [xj] is a [KeyError]; and with both domains there
    [revise] returns, without an exception. *)
Theorem revise_edge_cases c xi xj :
  (domains c !! xi = None → revise xi xj c = (Raise KeyError, c)) ∧
  (domains c !! xi = Some [] → revise xi xj c = (Ret false, c)) ∧
  (∀ x d, domains c !! xi = Some (x :: d) → domains c !! xj = None →
          revise xi xj c = (Raise KeyError, c)) ∧
  (is_Some (domains c !! xi) → is_Some (domains c !! xj) →
   ∃ b c', revise xi xj c = (Ret b, c')).
Proof.
  split; [|split; [|split]].
  - intros Hi. unfold revise, bind. by rewrite get_domain_eq, Hi.
  - intros Hi. unfold revise, bind. by rewrite get_domain_eq, Hi.
  - intros x d Hi Hj. unfold revise, bind at 1. rewrite get_domain_eq, Hi.
    cbn [revise_loop]. unfold bind at 1. by rewrite get_domain_eq, Hj.
  - apply revise_ret.
Qed.

End laws.



Lemma chain_solution : ac3_solution example chain.
Proof.
  split.
  - intros v d. unfold example. simpl. intros Hd.
    destruct (decide (v = "A")) as [->|]; simplify_map_eq; [set_solver|].
    destruct (decide (v = "B")) as [->|]; simplify_map_eq; [set_solver|].
    destruct (decide (v = "C")) as [->|]; simplify_map_eq. set_solver.
  - intros xi xj (ns & Hns & Hin). unfold example in *. simpl in *.
    destruct (decide (xi = "A")) as [->|]; simplify_map_eq.
    { set_unfold. by destruct Hin as [->|[]]. }
    destruct (decide (xi = "B")) as [->|]; simplify_map_eq.
    { set_unfold. by destruct Hin as [->|[->|[]]]. }
    destruct (decide (xi = "C")) as [->|]; simplify_map_eq.
    set_unfold. by destruct Hin as [->|[]].
Qed.

Lemma ac3_consistent_unchanged_witness : ac3 hollow = (Ret true, hollow).
Proof.
  apply (ac3_consistent_unchanged hollow).
  - intros xi Hxi. unfold hollow in *. simpl in *. set_unfold.
    destruct Hxi as [->|[->|[]]]; by simplify_map_eq.
  - intros xi xj Hxi _. exists []. unfold hollow in *. simpl in *.
    set_unfold. split; [|by intros ? []].
    destruct Hxi as [->|[->|[]]]; by simplify_map_eq.
Defined.

Lemma ac3_raises_without_neighbors_witness :
  ac3 orphan = (Raise KeyError, orphan).
Proof.
  apply (ac3_raises_without_neighbors orphan "B").
  - set_solver.
  - reflexivity.
Defined.

End AC3Laws.

(** ** More on the search *)

Module SearchLaws.
Import Backtracking BacktrackingTheory.
Section laws.
Context {Var : Type} {Var_eq : EqDecision Var} {Var_count : Countable Var}.
Implicit Types (st : store Var) (c : CSP Var) (a : gmap Var Z).
Implicit Types (var n u v : Var) (value : Z).

(** *** The constructor *)

Lemma add_constraints_lookup cs (nb0 nb : gmap Var (list Var)) :
  add_constraints cs nb0 = (Ret tt, nb) →
  ∀ u, nb !! u = (λ l, l ++ neighbors_of u cs) <$> nb0 !! u.
Proof.
  revert nb0. induction cs as [|[v1 v2] cs IH]; intros nb0;
    cbn [add_constraints].
  { intros [= <-] u. destruct (nb0 !! u); simpl; by rewrite ?app_nil_r. }
  unfold bind at 1. rewrite append_neighbor_eq.
  destruct (nb0 !! v1) as [l1|] eqn:H1; [|done].
  unfold bind at 1. rewrite append_neighbor_eq.
  destruct (<[v1:=l1 ++ [v2]]> nb0 !! v2) as [l2|] eqn:H2; [|done].
  intros Hrest u. rewrite (IH _ Hrest u). cbn [neighbors_of flat_map fst snd].
  fold (neighbors_of u cs).
  destruct (decide (v1 = u)) as [->|?], (decide (v2 = u)) as [->|?];
    simplify_map_eq; try done; simpl; by rewrite <-?app_assoc.
Qed.

Lemma add_constraints_outcome cs (nb0 nb : gmap Var (list Var)) r :
  add_constraints cs nb0 = (r, nb) → r = Ret tt ∨ r = Raise KeyError.
Proof.
  revert nb0. induction cs as [|[v1 v2] cs IH]; intros nb0;
    cbn [add_constraints].
  { intros [= <- <-]. by left. }
  unfold bind at 1. rewrite append_neighbor_eq.
  destruct (nb0 !! v1) as [l1|]; [|intros [= <- <-]; by right].
  unfold bind at 1. rewrite append_neighbor_eq.
  destruct (_ !! v2) as [l2|]; [|intros [= <- <-]; by right].
  apply IH.
Qed.

(** [CSP(variables, domains, constraints)] keeps its three arguments and
    gives every variable the list of the other ends of its constraints, in
    the order of the constraints; nothing else has a neighbour list. *)
Theorem new_CSP_neighbors (vs : list Var) ds cs c :
  new_CSP vs ds cs = Ret c →
  variables c = vs ∧ domains c = ds ∧ constraints c = cs ∧
  ∀ u, neighbors c !! u =
       if decide (u ∈ vs) then Some (neighbors_of u cs) else None.
Proof.
  unfold new_CSP, build_neighbors.
  destruct (add_constraints cs (empty_neighbors vs)) as [[[]| |] nb] eqn:Hadd;
    try done.
  intros [= <-]. simpl. do 3 (split; [done|]). intros u.
  rewrite (add_constraints_lookup _ _ _ Hadd u), empty_neighbors_lookup.
  by case_decide.
Qed.

(** The constructor raises [KeyError] exactly when a constraint names
    something that is not in [variables]; otherwise it builds the
    instance. *)
Theorem new_CSP_outcome (vs : list Var) ds cs :
  ((∀ u v, (u, v) ∈ cs → u ∈ vs ∧ v ∈ vs) →
   ∃ c, new_CSP vs ds cs = Ret c) ∧
  (¬ (∀ u v, (u, v) ∈ cs → u ∈ vs ∧ v ∈ vs) →
   new_CSP vs ds cs = Raise KeyError).
Proof.
  split; [apply new_CSP_ret|]. intros Hbad.
  destruct (new_CSP vs ds cs) as [c|e|] eqn:Hnew.
  - apply new_CSP_spec in Hnew as (_&_&_&_&Hcs&_). by destruct Hbad.
  - unfold new_CSP, build_neighbors in Hnew.
    destruct (add_constraints cs (empty_neighbors vs)) as [r nb] eqn:Hadd.
    apply add_constraints_outcome in Hadd as [->| ->]; congruence.
  - unfold new_CSP, build_neighbors in Hnew.
    destruct (add_constraints cs (empty_neighbors vs)) as [r nb] eqn:Hadd.
    apply add_constraints_outcome in Hadd as [->| ->]; congruence.
Qed.

(** *** The checks *)

(** [is_consistent] reads and never writes: without a neighbour list for
    [var] it raises [KeyError]; otherwise it answers [False] exactly when
    a neighbour of [var] is assigned [value]. *)
Theorem is_consistent_spec var value st :
  (neighbors (csp st) !! var = None →
   is_consistent var value st = (Raise KeyError, st)) ∧
  (∀ ns, neighbors (csp st) !! var = Some ns →
     ∃ b, is_consistent var value st = (Ret b, st) ∧
          (b = false ↔ ∃ n, n ∈ ns ∧ assignment st !! n = Some value)).
Proof.
  split.
  - intros Hn. by rewrite is_consistent_eq, Hn.
  - intros ns Hn. rewrite is_consistent_eq, Hn. eexists. split; [done|].
    fold (agrees (assignment st) value ns). split.
    + apply agrees_false.
    + intros (n & Hin & Ha). apply not_true_iff_false.
      rewrite agrees_spec. intros Hall. by apply (Hall n).
Qed.

Lemma with_keys_raises (vs : list Var) st v :
  v ∈ vs → domains (csp st) !! v = None →
  with_keys vs st = (Raise KeyError, st).
Proof.
  induction vs as [|x vs IH]; [by intros ?%elem_of_nil|].
  intros Hin Hv. cbn [with_keys]. unfold bind at 1.
  rewrite store_get_domain_eq.
  destruct (domains (csp st) !! x) as [d|] eqn:Hx; [|done].
  apply elem_of_cons in Hin as [->|Hin]; [congruence|].
  unfold bind. by rewrite IH.
Qed.

(** [select_unassigned_variable] at the edges: with every variable
    assigned, [min] of the empty list raises [ValueError]; an unassigned
    variable without a domain makes the key function raise [KeyError]. *)
Theorem select_unassigned_variable_errors st :
  (unassigned st = [] →
   select_unassigned_variable st = (Raise ValueError, st)) ∧
  (∀ v, v ∈ unassigned st → domains (csp st) !! v = None →
        select_unassigned_variable st = (Raise KeyError, st)).
Proof.
  split.
  - intros Hnone. by rewrite select_unassigned_variable_eq, Hnone.
  - intros v Hin Hv.
    by rewrite select_unassigned_variable_eq, (with_keys_raises _ _ v).
Qed.

(** *** Pruning and undoing *)

(** [forward_checking] with a list to each variable, over domains that
    name no value twice.  When it returns a record, the domain of every unassigned neighbour of [var] is
    its old domain without [value], none of them is empty unless it was
    before, every other domain is as it was, and the record maps exactly
    the neighbours that held [value] to [[value]].  When it returns
    [None], an unassigned neighbour had [value] as its only value, and is
    empty now.  The assignment is left alone. *)
Lemma forward_checking_prunes var value st r st' :
  unique_values st →
  forward_checking var value st = (Ret r, st') →
  assignment st' = assignment st ∧
  ∃ ns, neighbors (csp st) !! var = Some ns ∧
    match r with
    | Some inf =>
        (∀ n, domains (csp st') !! n =
              if decide (n ∈ ns ∧ assignment st !! n = None)
              then without value <$> domains (csp st) !! n
              else domains (csp st) !! n) ∧
        (∀ n vals, (n, vals) ∈ inf ↔
           vals = [value] ∧ n ∈ ns ∧ assignment st !! n = None ∧
           ∃ d, domains (csp st) !! n = Some d ∧ value ∈ d) ∧
        NoDup inf.*1 ∧
        (∀ n, n ∈ inf.*1 → domains (csp st') !! n ≠ Some [])
    | None =>
        ∃ n, n ∈ ns ∧ assignment st !! n = None ∧
             domains (csp st) !! n = Some [value] ∧
             domains (csp st') !! n = Some []
    end.
Proof.
  intros Hu Hfc.
  pose proof (forward_checking_frame _ _ _ _ _ Hfc) as (Ha & _).
  split; [done|].
  apply forward_checking_spec in Hfc as (ns & Hns & Hspec); [|done].
  exists ns. split; [done|]. destruct r as [inf|].
  - destruct Hspec as (Hd & Hne & Hin & Hnd & Hvals).
    split; [done|]. split; [|split; [done|]].
    + intros n vals. split.
      * intros Hnv. split; [by eapply Hvals|]. apply Hin.
        apply list_elem_of_fmap. by exists (n, vals).
      * intros (-> & Hrest).
        apply Hin, list_elem_of_fmap in Hrest as ([n' vals] & -> & Hnv).
        simpl. by rewrite <-(Hvals _ _ Hnv).
    + intros n (Hn & Hna & d & Hdn & Hv)%Hin.
      rewrite Hd, decide_True, Hdn by done. simpl. intros [= Hw].
      by apply (Hne n d).
  - destruct Hspec as (n & d & Hn & Hna & Hd & Hv & Hw & Hd').
    exists n. do 2 (split; [done|]). split; [|done].
    rewrite Hd. f_equal. apply without_nil; eauto.
Qed.

(** Pruning and undoing at once, with a list to each variable: after a
    [forward_checking] that returned a record, [remove_inference] with that record returns, and
    every domain holds the values it held before the pruning; the pruned
    ones are sorted now, the others are the very lists they were. *)
Lemma prune_then_restore var value st inf st1 :
  unique_values st →
  forward_checking var value st = (Ret (Some inf), st1) →
  ∃ st2, remove_inference (Some inf) st1 = (Ret tt, st2) ∧
         assignment st2 = assignment st ∧
         ∀ n, match domains (csp st) !! n with
              | Some d =>
                  ∃ d', domains (csp st2) !! n = Some d' ∧ d' ≡ₚ d ∧
                        if decide (n ∈ inf.*1) then Sorted Z.le d' else d' = d
              | None => domains (csp st2) !! n = None
              end.
Proof.
  intros Hu Hfc.
  pose proof (forward_checking_frame _ _ _ _ _ Hfc) as (Ha & _).
  apply forward_checking_spec in Hfc as (ns & Hns & Hspec); [|done].
  destruct Hspec as (Hd & Hne & Hin & Hnd & Hvals).
  destruct (restore_all_ret inf st1) as [st2 Hres].
  { intros n (_ & Hna & d & Hdn & _)%Hin.
    rewrite Hd, Hdn. by case_decide. }
  exists st2. split; [done|].
  pose proof (restore_all_frame _ _ _ _ Hres) as (Ha2 & _).
  split; [congruence|].
  pose proof (restore_all_spec value inf st1 st2 Hnd Hvals Hres) as Hd2.
  intros n. rewrite Hd2, Hd.
  destruct (domains (csp st) !! n) as [d|] eqn:Hdn; [|by repeat case_decide].
  destruct (decide (n ∈ inf.*1)) as [Hn|Hn].
  - pose proof Hn as (Hnn & Hna & d0 & Hd0 & Hv)%Hin. simplify_eq.
    rewrite decide_True by done. simpl. eexists. split; [done|].
    split; [apply put_back_without; eauto|]. apply Sorted_merge_sort, _.
  - exists d. split; [|done]. case_decide as Hcase; [|done]. simpl.
    rewrite without_notin; [done|]. intros Hv. apply Hn, Hin.
    destruct Hcase. eauto.
Qed.

(** *** What a search leaves behind *)




End laws.

Lemma ties_unique_values value :
  unique_values (assign "X" value (start ties)).
Proof.
  intros v d. unfold ties. simpl. intros Hd.
  destruct (decide (v = "X")) as [->|]; simplify_map_eq; [compute_done|].
  destruct (decide (v = "Y")) as [->|]; simplify_map_eq; [compute_done|].
  destruct (decide (v = "Z")) as [->|]; simplify_map_eq. compute_done.
Qed.

Lemma new_CSP_neighbors_witness :
  variables ties = ["X"; "Y"; "Z"] ∧
  domains ties = domains ties ∧
  constraints ties = [("X", "Y"); ("X", "Z"); ("Y", "Z")] ∧
  ∀ u, neighbors ties !! u =
       if decide (u ∈ ["X"; "Y"; "Z"])
       then Some (neighbors_of u [("X", "Y"); ("X", "Z"); ("Y", "Z")])
       else None.
Proof.
  apply (new_CSP_neighbors ["X"; "Y"; "Z"] (domains ties)
           [("X", "Y"); ("X", "Z"); ("Y", "Z")] ties).
  vm_compute. reflexivity.
Defined.


End SearchLaws.

(** ** The Sudoku front end *)

Module SudokuTheory.
Import Sudoku.

Lemma variables_NoDup : NoDup variables.
Proof. compute_done. Qed.

Lemma variables_bounds (c : cell) : c ∈ variables ↔ c.1 < 9 ∧ c.2 < 9.
Proof.
  split.
  - assert (Forall (λ c : cell, c.1 < 9 ∧ c.2 < 9) variables) as Hall
      by compute_done.
    rewrite Forall_forall in Hall. apply Hall.
  - assert (Forall (λ i, Forall (λ j, (i, j) ∈ variables) (seq 0 9)) (seq 0 9))
      as Hall by compute_done.
    destruct c as [i j]. simpl. intros [Hi Hj].
    rewrite Forall_forall in Hall.
    specialize (Hall i ltac:(apply elem_of_seq; lia)).
    rewrite Forall_forall in Hall. apply Hall, elem_of_seq. lia.
Qed.

Lemma constraints_sound (u v : cell) :
  (u, v) ∈ constraints →
  u ∈ variables ∧ v ∈ variables ∧ u ≠ v ∧ same_unit u v.
Proof.
  assert (Forall (λ p : cell * cell,
                    (p.1.1 < 9 ∧ p.1.2 < 9) ∧ (p.2.1 < 9 ∧ p.2.2 < 9) ∧
                    p.1 ≠ p.2 ∧ same_unit p.1 p.2) constraints) as Hall
    by compute_done.
  rewrite Forall_forall in Hall. intros (?&?&?&?)%Hall.
  by rewrite !variables_bounds.
Qed.

Lemma elem_of_range (n a b : nat) : n ∈ range a b ↔ a ≤ n < b.
Proof. unfold range. rewrite elem_of_seq. lia. Qed.

Lemma elem_of_flat_map {A B} (f : A → list B) (l : list A) (y : B) :
  y ∈ flat_map f l ↔ ∃ x, x ∈ l ∧ y ∈ f x.
Proof.
  rewrite list_elem_of_In, in_flat_map. setoid_rewrite list_elem_of_In. done.
Qed.

Lemma row_pair (i j1 j2 : nat) :
  i < 9 → j1 < j2 → j2 < 9 → ((i, j1), (i, j2)) ∈ constraints.
Proof.
  intros Hi H12 Hj2. apply elem_of_app. left.
  apply elem_of_flat_map. exists i. split; [apply elem_of_range; lia|].
  apply elem_of_flat_map. exists j1. split; [apply elem_of_range; lia|].
  apply elem_of_flat_map. exists j2. split; [apply elem_of_range; lia|].
  by left.
Qed.

Lemma column_pair (j i1 i2 : nat) :
  j < 9 → i1 < i2 → i2 < 9 → ((i1, j), (i2, j)) ∈ constraints.
Proof.
  intros Hj H12 Hi2. apply elem_of_app. left.
  apply elem_of_flat_map. exists j. split; [apply elem_of_range; lia|].
  apply elem_of_flat_map. exists i1. split; [apply elem_of_range; lia|].
  apply elem_of_flat_map. exists i2. split; [apply elem_of_range; lia|].
  right. by left.
Qed.

Lemma box_pair (bi bj : nat) (u v : cell) :
  bi ∈ [0; 3; 6] → bj ∈ [0; 3; 6] → (u, v) ∈ pairs (box bi bj) →
  (u, v) ∈ constraints.
Proof.
  intros Hbi Hbj Huv. apply elem_of_app. right.
  apply elem_of_flat_map. exists bi. split; [done|].
  apply elem_of_flat_map. by exists bj.
Qed.

(** Where the box of a cell starts. *)
Lemma box_of_cell (c : cell) :
  c ∈ variables →
  3 * (c.1 / 3) ∈ [0; 3; 6] ∧ 3 * (c.2 / 3) ∈ [0; 3; 6] ∧
  c ∈ box (3 * (c.1 / 3)) (3 * (c.2 / 3)).
Proof.
  assert (Forall (λ c : cell,
                    3 * (c.1 / 3) ∈ [0; 3; 6] ∧ 3 * (c.2 / 3) ∈ [0; 3; 6] ∧
                    c ∈ box (3 * (c.1 / 3)) (3 * (c.2 / 3))) variables)
    as Hall by compute_done.
  rewrite Forall_forall in Hall. apply Hall.
Qed.

Lemma box_pairs_complete (bi bj : nat) (u v : cell) :
  bi ∈ [0; 3; 6] → bj ∈ [0; 3; 6] →
  u ∈ box bi bj → v ∈ box bi bj → u ≠ v →
  (u, v) ∈ pairs (box bi bj) ∨ (v, u) ∈ pairs (box bi bj).
Proof.
  assert (Forall (λ bi, Forall (λ bj,
            Forall (λ u : cell, Forall (λ v : cell,
              u ≠ v →
              (u, v) ∈ pairs (box bi bj) ∨ (v, u) ∈ pairs (box bi bj))
              (box bi bj)) (box bi bj)) [0; 3; 6]) [0; 3; 6]) as Hall
    by compute_done.
  intros Hbi Hbj Hu Hv.
  rewrite Forall_forall in Hall. specialize (Hall bi Hbi).
  rewrite Forall_forall in Hall. specialize (Hall bj Hbj).
  rewrite Forall_forall in Hall. specialize (Hall u Hu).
  rewrite Forall_forall in Hall. by apply Hall.
Qed.

Lemma constraints_complete (u v : cell) :
  u ∈ variables → v ∈ variables → u ≠ v → same_unit u v →
  (u, v) ∈ constraints ∨ (v, u) ∈ constraints.
Proof.
  intros Hu Hv Hne Hunit.
  pose proof (proj1 (variables_bounds u) Hu) as [Hu1 Hu2].
  pose proof (proj1 (variables_bounds v) Hv) as [Hv1 Hv2].
  destruct u as [i1 j1], v as [i2 j2]. unfold same_unit in Hunit. simpl in *.
  destruct Hunit as [->|[->|[Hi Hj]]].
  - destruct (decide (j1 < j2)); [left|right]; apply row_pair; try lia.
    destruct (decide (j1 = j2)) as [->|]; [done|lia].
  - destruct (decide (i1 < i2)); [left|right]; apply column_pair; try lia.
    destruct (decide (i1 = i2)) as [->|]; [done|lia].
  - destruct (box_of_cell (i1, j1) Hu) as (Hbi & Hbj & Hbu).
    destruct (box_of_cell (i2, j2) Hv) as (_ & _ & Hbv).
    simpl in *. rewrite <-Hi, <-Hj in Hbv.
    destruct (box_pairs_complete _ _ _ _ Hbi Hbj Hbu Hbv Hne) as [Hp|Hp];
      [left|right]; apply (box_pair _ _ _ _ Hbi Hbj Hp).
Qed.

Lemma same_unit_sym (u v : cell) : same_unit u v → same_unit v u.
Proof. unfold same_unit. naive_solver. Qed.

(** The constraint list joins two cells, from one end or the other,
    exactly when they are two different cells of the grid in one row, one
    column or one three-by-three box. *)
Theorem constraints_join_units (u v : cell) :
  ((u, v) ∈ constraints ∨ (v, u) ∈ constraints) ↔
  (u ∈ variables ∧ v ∈ variables ∧ u ≠ v ∧ same_unit u v).
Proof.
  split.
  - intros [(?&?&?&?)%constraints_sound|(?&?&?&?)%constraints_sound];
      auto using same_unit_sym.
  - intros (?&?&?&?). by apply constraints_complete.
Qed.

Lemma domains_loop_None g cells acc :
  domains_loop g cells acc = None ↔
  ∃ c, c ∈ cells ∧ entry g c.1 c.2 = None.
Proof.
  revert acc. induction cells as [|[i j] cells IH]; intros acc; simpl.
  { split; [done|]. by intros (? & ?%elem_of_nil & _). }
  destruct (entry g i j) as [x|] eqn:Hx.
  - rewrite IH. split.
    + intros (c & ? & ?). exists c. split; [by right|done].
    + intros (c & [->|?]%elem_of_cons & Hc); [simpl in Hc; congruence|eauto].
  - split; [|done]. intros _. exists (i, j). split; [by left|done].
Qed.

Lemma domains_loop_Some g cells acc ds :
  domains_loop g cells acc = Some ds →
  ∀ c, ds !! c = if decide (c ∈ cells)
                 then initial_domain <$> entry g c.1 c.2 else acc !! c.
Proof.
  revert acc. induction cells as [|[i j] cells IH]; intros acc;
    cbn [domains_loop].
  { intros [= <-] c. rewrite decide_False; [done|]. by intros ?%elem_of_nil. }
  destruct (entry g i j) as [x|] eqn:Hx; [|done].
  intros Hrest c. rewrite (IH _ Hrest c).
  destruct (decide (c ∈ cells)) as [Hin|Hnin].
  - rewrite decide_True; [done|by right].
  - destruct (decide (c = (i, j))) as [->|Hne].
    + rewrite lookup_insert_eq, decide_True by (by left). simpl.
      by rewrite Hx.
    + rewrite lookup_insert_ne by done. rewrite decide_False; [done|].
      by intros [?|?]%elem_of_cons.
Qed.

Lemma set_entry_spec i j val (r : grid) :
  nine_by_nine r → i < 9 → j < 9 →
  ∃ r', set_entry i j val r = Some r' ∧ nine_by_nine r' ∧
        ∀ i' j', entry r' i' j' =
                 if decide ((i', j') = (i, j)) then Some val
                 else entry r i' j'.
Proof.
  intros [Hlen Hrows] Hi Hj. unfold set_entry.
  destruct (lookup_lt_is_Some_2 r i) as [row Hrow]; [lia|].
  assert (length row = 9) as Hrowlen.
  { rewrite Forall_lookup in Hrows. by eapply Hrows. }
  rewrite Hrow, decide_True by lia. eexists. split; [done|]. split.
  - split; [by rewrite length_insert|].
    apply Forall_insert; [done|]. by rewrite length_insert.
  - intros i' j'. unfold entry.
    destruct (decide (i' = i)) as [->|Hne].
    + rewrite list_lookup_insert_eq by lia.
      destruct (decide (j' = j)) as [->|Hnej].
      * rewrite list_lookup_insert_eq by lia. by rewrite decide_True.
      * rewrite list_lookup_insert_ne by done. rewrite Hrow.
        rewrite decide_False; [done|congruence].
    + rewrite list_lookup_insert_ne by done.
      rewrite decide_False; [done|congruence].
Qed.

Lemma fill_spec (items : list (cell * Z)) (r : grid) :
  nine_by_nine r →
  (∀ c val, (c, val) ∈ items → c.1 < 9 ∧ c.2 < 9) →
  NoDup items.*1 →
  ∃ r', fill items r = Some r' ∧ nine_by_nine r' ∧
        ∀ i j, entry r' i j =
               match (list_to_map items : gmap cell Z) !! (i, j) with
               | Some val => Some val
               | None => entry r i j
               end.
Proof.
  revert r. induction items as [|[[i j] val] items IH]; intros r Hr Hin Hnd.
  { exists r. do 2 (split; [done|]). intros i j. simpl.
    by rewrite lookup_empty. }
  simpl. apply NoDup_cons in Hnd as [Hnotin Hnd].
  destruct (Hin (i, j) val) as [Hi Hj]; [by left|]. simpl in Hi, Hj.
  destruct (set_entry_spec i j val r Hr Hi Hj) as (r1 & -> & Hr1 & Hentry).
  destruct (IH r1 Hr1) as (r' & Hfill & Hr' & Hentry'); [|done|].
  { intros c v Hc. apply (Hin c v). by right. }
  exists r'. do 2 (split; [done|]). intros i' j'.
  rewrite Hentry', Hentry. simpl.
  destruct (decide ((i', j') = (i, j))) as [[= -> ->]|Hne].
  - rewrite lookup_insert_eq.
    by rewrite (not_elem_of_list_to_map_1 items (i, j)).
  - by rewrite lookup_insert_ne.
Qed.

Lemma blank_nine_by_nine : nine_by_nine blank.
Proof. compute_done. Qed.

(** What [solve_sudoku] does with any list of lists [g].  It raises
    [IndexError] exactly when [g] lacks one of the 81 entries; no other
    exception comes out of it, and the search does not run out of depth.
    A grid it returns has nine rows of nine entries, keeps every entry of
    [g] that is not 0, has a number from 1 to 9 where [g] has 0, and has
    different numbers in any two cells of a row, a column or a box. *)
Theorem solve_sudoku_spec (g : grid) :
  (solve_sudoku g = IndexError ↔
   ∃ i j, i < 9 ∧ j < 9 ∧ entry g i j = None) ∧
  (∀ e, solve_sudoku g ≠ Raised e) ∧
  solve_sudoku g ≠ OutOfDepth ∧
  ∀ result, solve_sudoku g = Solved result →
    nine_by_nine result ∧
    (∀ i j, i < 9 → j < 9 →
       ∃ x val, entry g i j = Some x ∧ entry result i j = Some val ∧
                (x ≠ 0%Z → val = x) ∧ (x = 0%Z → (1 ≤ val ≤ 9)%Z)) ∧
    (∀ u v val val',
       u ∈ variables → v ∈ variables → u ≠ v → same_unit u v →
       entry result u.1 u.2 = Some val → entry result v.1 v.2 = Some val' →
       val ≠ val').
Proof.
  unfold solve_sudoku, domains.
  destruct (domains_loop g variables ∅) as [ds|] eqn:Hds.
  2: { split; [|done]. split; [|done]. intros _.
       apply domains_loop_None in Hds as ([i j] & Hc%variables_bounds & Hnone).
       exists i, j. by destruct Hc. }
  pose proof (domains_loop_Some _ _ _ _ Hds) as Hlookup.
  assert (∀ c, c ∈ variables →
               ∃ x, entry g c.1 c.2 = Some x ∧
                    ds !! c = Some (initial_domain x)) as Hentries.
  { intros c Hc. specialize (Hlookup c). rewrite decide_True in Hlookup by done.
    destruct (entry g c.1 c.2) as [x|] eqn:Hx; [by eauto|].
    assert (domains_loop g variables ∅ = None) as Hnone; [|congruence].
    apply domains_loop_None. eauto. }
  assert (¬ ∃ i j, i < 9 ∧ j < 9 ∧ entry g i j = None) as Hfull.
  { intros (i & j & Hi & Hj & Hnone).
    destruct (Hentries (i, j)) as (x & Hx & _); [by apply variables_bounds|].
    simpl in Hx. congruence. }
  destruct (BacktrackingTheory.new_CSP_ret variables ds constraints)
    as [csp Hnew].
  { intros u v (?&?&_)%constraints_sound. done. }
  rewrite Hnew.
  destruct (BacktrackingTheory.backtrack_new_CSP_ret variables ds constraints
              csp Hnew variables_NoDup) as (r & st' & Hrun).
  { intros c (x & _ & ->)%Hentries. done. }
  rewrite Hrun. cbn [fst]. destruct r as [a|].
  2: { clear Hnew Hrun.
       split; [split; [done|by intros ?%Hfull]|]. by do 2 (split; [done|]). }
  destruct (BacktrackingTheory.backtrack_new_CSP_sound variables ds constraints
              csp _ a st' Hnew Hrun) as (Hkeys & Hdrawn & Hdiff).
  clear Hnew Hrun.
  destruct (fill_spec (map_to_list a) blank blank_nine_by_nine)
    as (result & -> & Hshape & Hresult).
  { intros c val Hc%elem_of_map_to_list. apply variables_bounds, Hkeys.
    by eexists. }
  { apply NoDup_fst_map_to_list. }
  rewrite list_to_map_to_list in Hresult.
  assert (∀ c, c ∈ variables →
               ∃ val, a !! c = Some val ∧ entry result c.1 c.2 = Some val)
    as Hcell.
  { intros [i j] [val Hval]%Hkeys. exists val. split; [done|].
    simpl. by rewrite Hresult, Hval. }
  split; [split; [done|by intros ?%Hfull]|]. do 2 (split; [done|]).
  intros ? [= <-]. split; [done|]. split.
  - intros i j Hi Hj.
    assert ((i, j) ∈ variables) as Hc by (by apply variables_bounds).
    destruct (Hentries _ Hc) as (x & Hx & Hdx).
    destruct (Hcell _ Hc) as (val & Hval & Hres).
    exists x, val. do 2 (split; [done|]).
    destruct (Hdrawn _ _ Hval) as (d & Hd & Hin).
    rewrite Hdx in Hd. injection Hd as <-. unfold initial_domain in Hin.
    split.
    + intros Hx0. rewrite decide_False in Hin by done.
      by apply list_elem_of_singleton in Hin.
    + intros Hx0. rewrite decide_True in Hin by done.
      apply list_elem_of_fmap in Hin as (n & -> & Hn).
      unfold range in Hn. apply elem_of_seq in Hn. lia.
  - intros u v val val' Hu Hv Hne Hunit Hru Hrv ->.
    destruct (Hcell _ Hu) as (x & Hau & Hru').
    destruct (Hcell _ Hv) as (y & Hav & Hrv').
    assert (a !! u = a !! v) as Heq by congruence.
    destruct (constraints_complete u v Hu Hv Hne Hunit) as [Hc|Hc].
    + by apply (Hdiff u v Hc).
    + by apply (Hdiff v u Hc).
Qed.

End SudokuTheory.

(** ** AC-3 on list objects *)

Module AC3ObjectsTheory.
Import AC3Objects.
Section theory.
Context {Var : Type} {Var_eq : EqDecision Var} {Var_count : Countable Var}.
Context {Val : Type} {Val_eq : EqDecision Val}.
Implicit Types (c : csp Var Val) (xi xj v : Var) (l li lj : loc).


Lemma object_get_domain_eq x c :
  get_domain x c =
    match domains c !! x with
    | Some l => (Ret l, c)
    | None => (Raise KeyError, c)
    end.
Proof. unfold get_domain, bind, gets, subscript. by destruct (domains c !! x). Qed.

Lemma object_get_neighbors_eq x c :
  get_neighbors x c =
    match neighbors c !! x with
    | Some ns => (Ret ns, c)
    | None => (Raise KeyError, c)
    end.
Proof.
  unfold get_neighbors, bind, gets, subscript. by destruct (neighbors c !! x).
Qed.

Lemma elements_eq l c :
  elements l c =
    match lists c !! l with
    | Some d => (Ret d, c)
    | None => (Raise KeyError, c)
    end.
Proof. unfold elements, bind, gets, subscript. by destruct (lists c !! l). Qed.

Lemma object_remove_value_eq l (x : Val) c :
  remove_value l x c =
    match lists c !! l with
    | None => (Raise KeyError, c)
    | Some d =>
        match list_remove x d with
        | None => (Raise ValueError, c)
        | Some d' => (Ret tt, set_lists c (<[l := d']> (lists c)))
        end
    end.
Proof.
  unfold remove_value, bind. rewrite elements_eq.
  destruct (lists c !! l) as [d|]; [|done]. by destruct (list_remove x d).
Qed.

(** What one pass of the loop of [revise] does, whichever objects the two
    keys hold. *)
Lemma revise_loop_step xi xj (x : Val) rest b c :
  revise_loop xi xj (x :: rest) b c =
    match domains c !! xj with
    | None => (Raise KeyError, c)
    | Some lj =>
        match lists c !! lj with
        | None => (Raise KeyError, c)
        | Some dj =>
            if existsb (λ y, constraints c xi x xj y) dj
            then revise_loop xi xj rest b c
            else
              match domains c !! xi with
              | None => (Raise KeyError, c)
              | Some li =>
                  match lists c !! li with
                  | None => (Raise KeyError, c)
                  | Some di =>
                      match list_remove x di with
                      | None => (Raise ValueError, c)
                      | Some di' =>
                          revise_loop xi xj rest true
                            (set_lists c (<[li := di']> (lists c)))
                      end
                  end
              end
        end
    end.
Proof.
  cbn [revise_loop]. unfold bind at 1. rewrite object_get_domain_eq.
  destruct (domains c !! xj) as [lj|]; [|done].
  unfold bind at 1. rewrite elements_eq.
  destruct (lists c !! lj) as [dj|]; [|done].
  unfold bind at 1, gets at 1. destruct (existsb _ dj); [done|].
  unfold bind at 1, bind at 1. rewrite object_get_domain_eq.
  destruct (domains c !! xi) as [li|]; [|done].
  rewrite object_remove_value_eq.
  destruct (lists c !! li) as [di|]; [|done].
  by destruct (list_remove x di).
Qed.

Lemma revise_unfold xi xj c :
  revise xi xj c =
    match domains c !! xi with
    | None => (Raise KeyError, c)
    | Some li =>
        match lists c !! li with
        | None => (Raise KeyError, c)
        | Some di => revise_loop xi xj di false c
        end
    end.
Proof.
  unfold revise, bind at 1. rewrite object_get_domain_eq.
  destruct (domains c !! xi) as [li|]; [|done].
  unfold bind. rewrite elements_eq. by destruct (lists c !! li).
Qed.

Lemma object_shrinks_refl c : shrinks c c.
Proof. repeat split; try done. intros l d ->. eauto. Qed.

Lemma object_shrinks_trans c1 c2 c3 :
  shrinks c1 c2 → shrinks c2 c3 → shrinks c1 c3.
Proof.
  intros (Hv & Hr & Hn & Hp & Hd & Hs) (Hv' & Hr' & Hn' & Hp' & Hd' & Hs').
  repeat split; try congruence.
  intros l d Hx. destruct (Hs _ _ Hx) as (d2 & Hx2 & Hs2).
  destruct (Hs' _ _ Hx2) as (d3 & Hx3 & Hs3).
  exists d3. split; [done|]. by etrans.
Qed.

Lemma object_shrinks_remove c l (d d' : list Val) :
  lists c !! l = Some d → sublist d' d →
  shrinks c (set_lists c (<[l := d']> (lists c))).
Proof.
  intros Hl Hsub. repeat split; simpl.
  - rewrite dom_insert_L. apply elem_of_dom_2 in Hl.
    apply set_eq. intros v. rewrite elem_of_union, elem_of_singleton.
    split; [by intros [->|?]|by right].
  - intros l' d0 Hx. destruct (decide (l' = l)) as [->|Hne].
    + rewrite lookup_insert_eq. exists d'. split; [done|congruence].
    + rewrite lookup_insert_ne by done. eauto.
Qed.

Lemma object_revise_loop_frame xi xj copy b c r c' :
  revise_loop xi xj copy b c = (r, c') →
  shrinks c c' ∧
  (∀ l, domains c !! xi ≠ Some l → lists c' !! l = lists c !! l) ∧
  (r = Ret false → b = false ∧ c' = c) ∧
  (r = Ret true →
   b = true ∨ total_length (lists c') < total_length (lists c)) ∧
  total_length (lists c') ≤ total_length (lists c) ∧
  r ≠ Timeout.
Proof.
  revert b c. induction copy as [|x rest IH]; intros b c.
  { intros [= <- <-]. split; [apply object_shrinks_refl|].
    repeat split; try done; try congruence. intros [= ->]. by left. }
  rewrite revise_loop_step.
  assert (∀ e, (Raise e, c) = (r, c') →
    shrinks c c' ∧
    (∀ l, domains c !! xi ≠ Some l → lists c' !! l = lists c !! l) ∧
    (r = Ret false → b = false ∧ c' = c) ∧
    (r = Ret true →
     b = true ∨ total_length (lists c') < total_length (lists c)) ∧
    total_length (lists c') ≤ total_length (lists c) ∧ r ≠ Timeout) as Hraise.
  { intros e [= <- <-]. split; [apply object_shrinks_refl|]. by repeat split. }
  destruct (domains c !! xj) as [lj|]; [|apply Hraise].
  destruct (lists c !! lj) as [dj|]; [|apply Hraise].
  destruct (existsb _ dj); [by apply IH|].
  destruct (domains c !! xi) as [li|] eqn:Hri; [|apply Hraise].
  destruct (lists c !! li) as [di|] eqn:Hi; [|apply Hraise].
  destruct (list_remove x di) as [di'|] eqn:Hrm; [|apply Hraise].
  apply list_remove_sublist in Hrm as [Hsub Hlen].
  intros Hrun. apply IH in Hrun as (Hsh & Hfr & Hf & Ht & Hle & Hnt).
  pose proof (total_length_insert (lists c) li di di' Hi) as Htot.
  simpl in *.
  split; [eapply object_shrinks_trans; [by eapply object_shrinks_remove|done]|].
  split.
  { intros l Hl. rewrite Hfr by (by rewrite Hri).
    rewrite lookup_insert_ne; [done|congruence]. }
  split; [intros ->; by destruct Hf|].
  split; [intros _; right; lia|]. split; [lia|done].
Qed.

Lemma object_revise_frame xi xj c r c' :
  revise xi xj c = (r, c') →
  shrinks c c' ∧
  (∀ l, domains c !! xi ≠ Some l → lists c' !! l = lists c !! l) ∧
  (r = Ret false → c' = c) ∧
  (r = Ret true → total_length (lists c') < total_length (lists c)) ∧
  total_length (lists c') ≤ total_length (lists c) ∧
  r ≠ Timeout.
Proof.
  rewrite revise_unfold.
  assert (∀ e, (Raise e, c) = (r, c') →
    shrinks c c' ∧
    (∀ l, domains c !! xi ≠ Some l → lists c' !! l = lists c !! l) ∧
    (r = Ret false → c' = c) ∧
    (r = Ret true → total_length (lists c') < total_length (lists c)) ∧
    total_length (lists c') ≤ total_length (lists c) ∧ r ≠ Timeout) as Hraise.
  { intros e [= <- <-]. split; [apply object_shrinks_refl|]. by repeat split. }
  destruct (domains c !! xi) as [li|] eqn:Hri; [|apply Hraise].
  destruct (lists c !! li) as [di|]; [|apply Hraise].
  intros (Hsh & Hfr & Hf & Ht & Hle & Hnt)%object_revise_loop_frame.
  rewrite Hri in Hfr.
  split; [done|]. split; [done|]. split; [intros Hr; by destruct (Hf Hr)|].
  split; [|done]. intros Hr. by destruct (Ht Hr).
Qed.

(** With both lists there, [revise] comes back without an exception, also
    when the two keys hold one list. *)
Lemma object_revise_loop_ret xi xj copy b c li lj kept :
  domains c !! xi = Some li → domains c !! xj = Some lj →
  is_Some (lists c !! lj) → lists c !! li = Some (kept ++ copy) →
  ∃ b' c', revise_loop xi xj copy b c = (Ret b', c').
Proof.
  intros Hri Hrj. revert kept b c Hri Hrj.
  induction copy as [|x rest IH]; intros kept b c Hri Hrj [dj Hj] Hi;
    [by eexists _, _|].
  rewrite revise_loop_step, Hrj, Hj, Hri, Hi.
  destruct (existsb _ dj).
  - apply (IH (kept ++ [x])); [done..|by eauto|]. by rewrite <-(assoc_L (++)).
  - destruct (AC3Theory.list_remove_app_cons x kept rest) as (k' & ->).
    apply (IH k'); simpl; [done..| |by rewrite lookup_insert_eq].
    destruct (decide (lj = li)) as [->|Hne].
    + rewrite lookup_insert_eq. eauto.
    + rewrite lookup_insert_ne by done. eauto.
Qed.

Lemma object_ac3_body_frame xi xj rest c r c' :
  ac3_body xi xj rest c = (r, c') →
  shrinks c c' ∧ r ≠ Timeout ∧
  ∀ q', r = Ret (AC3.Continue q') →
    (q' = rest ∧ c' = c) ∨
    (total_length (lists c') < total_length (lists c) ∧
     ∃ ns, neighbors c !! xi = Some ns ∧ q' = rest ++ AC3.requeue xi xj ns).
Proof.
  unfold ac3_body, bind at 1.
  destruct (revise xi xj c) as [[[]| |] c1] eqn:Hrev;
    apply object_revise_frame in Hrev as (Hsh & _ & Hf & Ht & _ & Hnt);
    try done.
  - specialize (Ht eq_refl).
    unfold bind at 1. rewrite object_get_domain_eq.
    destruct (domains c1 !! xi) as [li|]; [|by intros [= <- <-]].
    unfold bind at 1. rewrite elements_eq.
    destruct (lists c1 !! li) as [[|x di]|]; try by intros [= <- <-].
    unfold bind. rewrite object_get_neighbors_eq.
    destruct Hsh as (? & ? & Hn & ?). rewrite Hn.
    destruct (neighbors c !! xi) as [ns|] eqn:Hns; intros [= <- <-].
    + split; [done|]. split; [done|]. intros q' [= <-]. right. eauto.
    + done.
  - intros [= <- <-]. split; [done|]. split; [done|].
    intros q' [= <-]. left. auto.
  - by intros [= <- <-].
Qed.


(** The bound on the iterations holds whatever the keys share. *)
Lemma ac3_loop_terminates_objects fuel q c :
  length q + S (max_length (neighbors c)) * total_length (lists c) ≤ fuel →
  (ac3_loop fuel q c).1 ≠ Timeout.
Proof.
  revert q c. induction fuel as [|fuel IH]; intros [|[xi xj] rest] c Hfuel;
    cbn [ac3_loop]; try done.
  { simpl in Hfuel. lia. }
  unfold bind.
  destruct (ac3_body xi xj rest c) as [[[b|q']| |] c1] eqn:Hbody;
    apply object_ac3_body_frame in Hbody as (Hsh & Hnt & Hq); try done.
  destruct Hsh as (_ & _ & Hn & _).
  apply IH. rewrite Hn. simpl in Hfuel.
  destruct (Hq _ eq_refl) as [[-> ->]|(Hlt & ns & Hns & ->)]; [lia|].
  rewrite length_app. unfold AC3.requeue. rewrite length_fmap.
  pose proof (length_filter (λ xk, xk ≠ xj) ns).
  pose proof (max_length_lookup _ _ _ Hns). nia.
Qed.

Lemma object_arcs_of_state vs c : (arcs_of vs c).2 = c.
Proof.
  induction vs as [|xi vs IH]; [done|]. cbn [arcs_of]. unfold bind at 1.
  rewrite object_get_neighbors_eq.
  destruct (neighbors c !! xi); [|done]. unfold bind.
  by destruct (arcs_of vs c) as [[]?].
Qed.

Lemma object_ac3_eq c :
  ac3 c =
    match arcs_of (variables c) c with
    | (Ret q, _) => ac3_loop (ac3_fuel c q) q c
    | (Raise e, _) => (Raise e, c)
    | (Timeout, _) => (Timeout, c)
    end.
Proof.
  unfold ac3, bind, gets. pose proof (object_arcs_of_state (variables c) c) as Hst.
  by destruct (arcs_of (variables c) c) as [[]?]; simpl in Hst; subst.
Qed.




(** *** Keys with a list each: the run is that of [AC3] *)

Lemma flat_lookup c x : AC3.domains (flat c) !! x = domain c x.
Proof. unfold flat, domain. simpl. apply lookup_omap. Qed.

Lemma flat_set_lists c xi li (d' : list Val) :
  separate c → domains c !! xi = Some li →
  flat (set_lists c (<[li := d']> (lists c)))
  = AC3.set_domains (flat c) (<[xi := d']> (AC3.domains (flat c))).
Proof.
  intros Hsep Hri. unfold flat, AC3.set_domains. simpl. f_equal.
  apply map_eq. intros y. rewrite lookup_omap.
  destruct (decide (y = xi)) as [->|Hne].
  - rewrite Hri. simpl. by rewrite !lookup_insert_eq.
  - rewrite lookup_insert_ne, lookup_omap by done.
    destruct (domains c !! y) as [l|] eqn:Hy; [|done]. simpl.
    rewrite lookup_insert_ne; [done|]. intros <-. apply Hne. by eapply Hsep.
Qed.

Lemma separate_shrinks c c' : shrinks c c' → separate c → separate c'.
Proof. intros (_ & Hr & _) Hsep. unfold separate. by rewrite Hr. Qed.

Lemma flat_revise_loop_step xi xj (x : Val) rest b (f : AC3.csp Var Val) :
  AC3.revise_loop xi xj (x :: rest) b f =
    match AC3.domains f !! xj with
    | None => (Raise KeyError, f)
    | Some dj =>
        if existsb (λ y, AC3.constraints f xi x xj y) dj
        then AC3.revise_loop xi xj rest b f
        else
          match AC3.domains f !! xi with
          | None => (Raise KeyError, f)
          | Some di =>
              match list_remove x di with
              | None => (Raise ValueError, f)
              | Some di' =>
                  AC3.revise_loop xi xj rest true
                    (AC3.set_domains f (<[xi := di']> (AC3.domains f)))
              end
          end
    end.
Proof.
  cbn [AC3.revise_loop]. unfold bind at 1. rewrite AC3Theory.get_domain_eq.
  destruct (AC3.domains f !! xj) as [dj|]; [|done].
  unfold bind at 1, gets at 1. destruct (existsb _ dj); [done|].
  unfold bind at 1. rewrite AC3Theory.remove_value_eq.
  destruct (AC3.domains f !! xi) as [di|]; [|done].
  by destruct (list_remove x di).
Qed.

Lemma revise_loop_flat xi xj copy b c r c' :
  separate c →
  revise_loop xi xj copy b c = (r, c') →
  AC3.revise_loop xi xj copy b (flat c) = (r, flat c').
Proof.
  revert b c. induction copy as [|x rest IH]; intros b c Hsep.
  { by intros [= <- <-]. }
  rewrite revise_loop_step, flat_revise_loop_step, !flat_lookup.
  unfold domain.
  destruct (domains c !! xj) as [lj|]; simpl; [|by intros [= <- <-]].
  destruct (lists c !! lj) as [dj|]; simpl; [|by intros [= <- <-]].
  destruct (existsb _ dj); [by apply IH|].
  destruct (domains c !! xi) as [li|] eqn:Hri; simpl; [|by intros [= <- <-]].
  destruct (lists c !! li) as [di|] eqn:Hi; simpl; [|by intros [= <- <-]].
  destruct (list_remove x di) as [di'|] eqn:Hrm; [|by intros [= <- <-]].
  intros Hrun. rewrite <-(flat_set_lists c xi li) by done.
  apply IH; [|done].
  eapply separate_shrinks; [|done]. eapply object_shrinks_remove; [done|].
  by apply list_remove_sublist in Hrm as [? _].
Qed.

Lemma revise_flat xi xj c r c' :
  separate c →
  revise xi xj c = (r, c') → AC3.revise xi xj (flat c) = (r, flat c').
Proof.
  intros Hsep. rewrite revise_unfold. unfold AC3.revise, bind.
  rewrite AC3Theory.get_domain_eq, flat_lookup. unfold domain.
  destruct (domains c !! xi) as [li|]; simpl; [|by intros [= <- <-]].
  destruct (lists c !! li) as [di|]; simpl; [|by intros [= <- <-]].
  by apply revise_loop_flat.
Qed.

Lemma ac3_body_flat xi xj rest c r c' :
  separate c →
  ac3_body xi xj rest c = (r, c') →
  AC3.ac3_body xi xj rest (flat c) = (r, flat c').
Proof.
  intros Hsep Hbody. unfold ac3_body, bind at 1 in Hbody.
  unfold AC3.ac3_body, bind at 1.
  destruct (revise xi xj c) as [rr c1] eqn:Hrev.
  rewrite (revise_flat _ _ _ _ _ Hsep Hrev).
  destruct rr as [[]| |]; try (by injection Hbody as <- <-).
  unfold bind at 1 in Hbody. unfold bind at 1.
  rewrite object_get_domain_eq in Hbody.
  rewrite AC3Theory.get_domain_eq, flat_lookup. unfold domain.
  destruct (domains c1 !! xi) as [li|]; simpl; [|by injection Hbody as <- <-].
  unfold bind at 1 in Hbody. rewrite elements_eq in Hbody.
  destruct (lists c1 !! li) as [[|x di]|]; simpl;
    try (by injection Hbody as <- <-).
  unfold bind in Hbody. unfold bind.
  rewrite object_get_neighbors_eq in Hbody.
  rewrite AC3Theory.get_neighbors_eq. simpl.
  by destruct (neighbors c1 !! xi); injection Hbody as <- <-.
Qed.

Lemma arcs_of_flat vs c :
  (AC3.arcs_of vs (flat c)).1 = (arcs_of vs c).1.
Proof.
  induction vs as [|xi vs IH]; [done|]. cbn [arcs_of AC3.arcs_of].
  unfold bind.
  rewrite object_get_neighbors_eq, AC3Theory.get_neighbors_eq. simpl.
  destruct (neighbors c !! xi) as [ns|]; [|done].
  pose proof (AC3Theory.arcs_of_state vs (flat c)) as Hf.
  pose proof (object_arcs_of_state vs c) as Hc.
  destruct (AC3.arcs_of vs (flat c)) as [r1 f1], (arcs_of vs c) as [r2 c2].
  simpl in *. subst. by destruct r2.
Qed.

Lemma ac3_loop_flat fuel q c r c' :
  separate c →
  ac3_loop fuel q c = (r, c') → AC3.ac3_loop fuel q (flat c) = (r, flat c').
Proof.
  revert q c. induction fuel as [|fuel IH]; intros [|[xi xj] rest] c Hsep;
    cbn [ac3_loop AC3.ac3_loop]; try (by intros [= <- <-]).
  unfold bind.
  destruct (ac3_body xi xj rest c) as [s c1] eqn:Hbody.
  rewrite (ac3_body_flat _ _ _ _ _ _ Hsep Hbody).
  destruct s as [[b|q']| |]; try (by intros [= <- <-]).
  apply IH. apply object_ac3_body_frame in Hbody as (Hsh & _).
  by eapply separate_shrinks.
Qed.

(** More iterations than needed change nothing. *)
Lemma flat_ac3_loop_fuel fuel fuel' q (f : AC3.csp Var Val) r f' :
  AC3.ac3_loop fuel q f = (r, f') → r ≠ Timeout → fuel ≤ fuel' →
  AC3.ac3_loop fuel' q f = (r, f').
Proof.
  revert fuel' q f. induction fuel as [|fuel IH];
    intros fuel' [|[xi xj] rest] f; cbn [AC3.ac3_loop].
  - destruct fuel'; by intros [= <- <-].
  - by intros [= <- <-].
  - destruct fuel'; by intros [= <- <-].
  - destruct fuel' as [|fuel']; [lia|]. cbn [AC3.ac3_loop]. unfold bind.
    destruct (AC3.ac3_body xi xj rest f) as [[[b|q']| |] f1]; try done.
    intros Hrun Hnt Hle. apply IH; [done..|lia].
Qed.

Lemma ac3_flat c r c' :
  separate c → ac3 c = (r, c') → AC3.ac3 (flat c) = (r, flat c').
Proof.
  intros Hsep. rewrite object_ac3_eq, AC3Theory.ac3_eq.
  pose proof (arcs_of_flat (variables c) c) as Harcs.
  pose proof (AC3Theory.arcs_of_state (variables c) (flat c)) as Hf.
  pose proof (object_arcs_of_state (variables c) c) as Hc.
  change (AC3.variables (flat c)) with (variables c).
  destruct (AC3.arcs_of (variables c) (flat c)) as [r1 f1],
    (arcs_of (variables c) c) as [r2 c2]. simpl in *. subst.
  destruct r2 as [q| |]; try (by intros [= <- <-]).
  intros Hrun.
  pose proof (ac3_loop_terminates_objects (ac3_fuel c q) q c (Nat.le_refl _))
    as Hnt. rewrite Hrun in Hnt. simpl in Hnt.
  apply (ac3_loop_flat _ _ _ _ _ Hsep) in Hrun.
  pose proof (AC3Theory.ac3_loop_terminates (AC3.ac3_fuel (flat c) q) q (flat c)
                (Nat.le_refl _)) as Hnt'.
  destruct (AC3.ac3_loop (AC3.ac3_fuel (flat c) q) q (flat c)) as [r' f'] eqn:Hrun'.
  simpl in Hnt'.
  pose proof (flat_ac3_loop_fuel _ (ac3_fuel c q `max` AC3.ac3_fuel (flat c) q)
                _ _ _ _ Hrun Hnt ltac:(lia)) as H1.
  pose proof (flat_ac3_loop_fuel _ (ac3_fuel c q `max` AC3.ac3_fuel (flat c) q)
                _ _ _ _ Hrun' Hnt' ltac:(lia)) as H2.
  congruence.
Qed.





Lemma separate_NoDup c :
  NoDup (map_to_list (domains c)).*2 → separate c.
Proof.
  intros Hnd x y l Hx%elem_of_map_to_list Hy%elem_of_map_to_list.
  apply list_elem_of_lookup in Hx as [i Hi], Hy as [j Hj].
  assert (i = j) as ->.
  { eapply NoDup_lookup; [done|..]; rewrite list_lookup_fmap.
    - by rewrite Hi.
    - by rewrite Hj. }
  congruence.
Qed.

Lemma flat_solution c (a : Var → Val) : solution c a ↔ ac3_solution (flat c) a.
Proof.
  unfold solution, ac3_solution. by setoid_rewrite flat_lookup.
Qed.


(** *** The loop, arc by arc *)

Lemma object_ac3_body_eq xi xj rest c :
  ac3_body xi xj rest c =
    match revise xi xj c with
    | (Ret true, c1) =>
        match domain c1 xi with
        | None => (Raise KeyError, c1)
        | Some [] => (Ret (AC3.Return false), c1)
        | Some (_ :: _) =>
            match neighbors c1 !! xi with
            | None => (Raise KeyError, c1)
            | Some ns =>
                (Ret (AC3.Continue (rest ++ AC3.requeue xi xj ns)), c1)
            end
        end
    | (Ret false, c1) => (Ret (AC3.Continue rest), c1)
    | (Raise e, c1) => (Raise e, c1)
    | (Timeout, c1) => (Timeout, c1)
    end.
Proof.
  unfold ac3_body, bind at 1.
  destruct (revise xi xj c) as [[[]| |] c1]; try done.
  unfold bind at 1. rewrite object_get_domain_eq. unfold domain.
  destruct (domains c1 !! xi) as [li|]; simpl; [|done].
  unfold bind at 1. rewrite elements_eq.
  destruct (lists c1 !! li) as [[|x di]|]; try done.
  unfold bind. rewrite object_get_neighbors_eq.
  by destruct (neighbors c1 !! xi).
Qed.

Lemma ac3_loop_run fuel q c b c' :
  ac3_loop fuel q c = (Ret b, c') → run q c b c'.
Proof.
  revert q c. induction fuel as [|fuel IH]; intros [|[xi xj] rest] c;
    cbn [ac3_loop]; try (by intros [= <- <-]; constructor); try done.
  unfold bind. rewrite object_ac3_body_eq.
  destruct (revise xi xj c) as [[[]| |] c1] eqn:Hrev; try done.
  - destruct (domain c1 xi) as [[|x d]|] eqn:Hd; try done.
    + intros [= <- <-]. by eapply run_wipeout.
    + destruct (neighbors c1 !! xi) as [ns|] eqn:Hns; [|done].
      intros Hrun%IH. by eapply run_requeue.
  - intros Hrun%IH. by eapply run_skip.
Qed.

Lemma run_ac3_loop q c b c' :
  run q c b c' →
  ∀ fuel, (ac3_loop fuel q c).1 ≠ Timeout → ac3_loop fuel q c = (Ret b, c').
Proof.
  induction 1 as [c|xi xj rest c c1 Hrev Hd|xi xj rest c c1 x d ns b c' Hrev Hd
                    Hns _ IH|xi xj rest c c1 b c' Hrev _ IH];
    intros [|fuel]; cbn [ac3_loop]; try done; unfold bind;
    rewrite object_ac3_body_eq, Hrev; try rewrite Hd; try rewrite Hns;
    try done; apply IH.
Qed.

Lemma run_shrinks q c b c' : run q c b c' → shrinks c c'.
Proof.
  induction 1 as [c|xi xj rest c c1 Hrev Hd|xi xj rest c c1 x d ns b c' Hrev Hd
                    Hns _ IH|xi xj rest c c1 b c' Hrev _ IH];
    [apply object_shrinks_refl|..];
    apply object_revise_frame in Hrev as (Hsh & _); [done|..];
    by eapply object_shrinks_trans.
Qed.

Lemma object_revise_true_nonempty xi xj c c' :
  revise xi xj c = (Ret true, c') → domain c xi ≠ Some [].
Proof.
  rewrite revise_unfold. unfold domain.
  destruct (domains c !! xi) as [li|]; simpl; [|done].
  by destruct (lists c !! li) as [[|]|].
Qed.

(** A run that returned [True] emptied no list. *)
Lemma run_true_keeps q c c' :
  run q c true c' → ∀ l, lists c' !! l = Some [] → lists c !! l = Some [].
Proof.
  remember true as b eqn:Hb.
  induction 1 as [c|xi xj rest c c1 Hrev Hd|xi xj rest c c1 x d ns b c' Hrev Hd
                    Hns _ IH|xi xj rest c c1 b c' Hrev _ IH];
    intros l Hl; try done.
  - specialize (IH Hb l Hl).
    apply object_revise_frame in Hrev as ((_ & Hr & _) & Hfr & _).
    rewrite <-Hfr; [done|]. intros Hri. unfold domain in Hd.
    rewrite Hr, Hri in Hd. simpl in Hd. congruence.
  - specialize (IH Hb l Hl).
    apply object_revise_frame in Hrev as (_ & _ & Hf & _).
    by rewrite <-(Hf eq_refl).
Qed.

(** A run that returned [False] stopped at the revision that emptied a
    list, with the store that revision left. *)
Lemma run_false_wipeout q c c' :
  run q c false c' →
  ∃ c0 xi xj, shrinks c c0 ∧ revise xi xj c0 = (Ret true, c') ∧
              domain c' xi = Some [].
Proof.
  remember false as b eqn:Hb.
  induction 1 as [c|xi xj rest c c1 Hrev Hd|xi xj rest c c1 x d ns b c' Hrev Hd
                    Hns _ IH|xi xj rest c c1 b c' Hrev _ IH]; try done.
  - exists c, xi, xj. split; [apply object_shrinks_refl|done].
  - destruct (IH Hb) as (c0 & a & a' & Hsh & ?).
    apply object_revise_frame in Hrev as (Hsh1 & _).
    exists c0, a, a'. split; [by eapply object_shrinks_trans|done].
  - destruct (IH Hb) as (c0 & a & a' & Hsh & ?).
    apply object_revise_frame in Hrev as (Hsh1 & _).
    exists c0, a, a'. split; [by eapply object_shrinks_trans|done].
Qed.

Lemma object_ac3_result c b c' :
  ac3 c = (Ret b, c') ↔
  ∃ q, arcs_of (variables c) c = (Ret q, c) ∧ run q c b c'.
Proof.
  rewrite object_ac3_eq.
  pose proof (object_arcs_of_state (variables c) c) as Hst.
  destruct (arcs_of (variables c) c) as [[q| |] c0]; simpl in Hst; subst.
  - split.
    + intros Hrun%ac3_loop_run. eauto.
    + intros (q' & [= <-] & Hrun). apply run_ac3_loop; [done|].
      by apply ac3_loop_terminates_objects.
  - split; [done|]. by intros (? & ? & _).
  - split; [done|]. by intros (? & ? & _).
Qed.

End theory.

Section claims.
Context {Var : Type} {Var_eq : EqDecision Var} {Var_count : Countable Var}.
Context {Val : Type} {Val_eq : EqDecision Val}.
Implicit Types (c : csp Var Val) (xi xj v : Var) (l li lj : loc).


(** C4 (early exit, and success only on an exhausted queue): a revision
    that empties the list of [xi] makes the loop return [False] at once,
    with the store that revision left and whatever is still queued; a run
    of [ac3] returns a boolean exactly as the worklist of all arcs runs to
    it: [True] when the queue has run empty with a value left after every
    removal, [False] at the first removal that left none; and [False]
    comes exactly when a key whose list was not empty holds an empty one
    at the end, the store being the one the emptying revision left.  All
    of it holds whichever keys share a list. *)
Theorem ac3_false_at_wipeout_true_when_drained :
  (∀ fuel xi xj rest c c1,
     revise xi xj c = (Ret true, c1) → domain c1 xi = Some [] →
     ac3_loop (S fuel) ((xi, xj) :: rest) c = (Ret false, c1)) ∧
  (∀ c b c',
     ac3 c = (Ret b, c') ↔
     ∃ q, arcs_of (variables c) c = (Ret q, c) ∧ run q c b c') ∧
  (∀ c b c',
     ac3 c = (Ret b, c') →
     (b = false ↔ ∃ v, domain c' v = Some [] ∧ domain c v ≠ Some []) ∧
     (b = false →
      ∃ c0 xi xj, revise xi xj c0 = (Ret true, c') ∧
                  domain c' xi = Some [])).
Proof.
  split; [|split].
  - intros fuel xi xj rest c c1 Hrev Hd. cbn [ac3_loop]. unfold bind.
    by rewrite object_ac3_body_eq, Hrev, Hd.
  - apply object_ac3_result.
  - intros c b c' (q & _ & Hrun)%object_ac3_result. destruct b.
    + split; [|done]. split; [done|]. intros (v & Hv & Hne).
      destruct Hne. unfold domain in *.
      pose proof (run_shrinks _ _ _ _ Hrun) as (_ & Hr & _).
      rewrite Hr in Hv. destruct (domains c !! v) as [l|]; [|done].
      simpl in *. by eapply run_true_keeps.
    + destruct (run_false_wipeout _ _ _ Hrun) as (c0 & xi & xj & Hsh & Hrev & Hd).
      split; [|eauto]. split; [|done]. intros _. exists xi.
      split; [done|]. intros Hc.
      apply (object_revise_true_nonempty _ _ _ _ Hrev).
      destruct Hsh as (_ & Hr & _ & _ & _ & Hsub). unfold domain in *.
      rewrite Hr. destruct (domains c !! xi) as [li|]; [|done]. simpl in *.
      by destruct (Hsub _ _ Hc) as (d0 & -> & ->%sublist_nil_r).
Qed.


(** With a list to each key, [ac3] never removes the value a solution
    gives to a variable, and it does not return [False] when there is a
    solution. *)
Theorem ac3_keeps_solutions_separate c (a : Var → Val) :
  separate c → solution c a →
  (ac3 c).1 ≠ Ret false ∧ solution (ac3 c).2 a.
Proof.
  intros Hsep Hsol%flat_solution.
  destruct (ac3 c) as [r c'] eqn:Hrun.
  apply (ac3_flat _ _ _ Hsep) in Hrun.
  destruct (AC3Laws.ac3_keeps_solutions _ _ Hsol) as [Hr Hs].
  rewrite Hrun in Hr, Hs. simpl in *. by rewrite flat_solution.
Qed.


(** [revise] on any arc, whichever keys share a list: the keys keep their
    lists, and no list but the one under [xi] changes; [False] comes with
    the store as it was; [True] comes with a list under [xi] that lost at
    least one value and gained none; an exception is a [KeyError], raised
    before anything was removed. *)
Theorem revise_changes_one_list c xi xj :
  let r := (revise xi xj c).1 in
  let c' := (revise xi xj c).2 in
  domains c' = domains c ∧
  (∀ l, domains c !! xi ≠ Some l → lists c' !! l = lists c !! l) ∧
  (r = Ret false → c' = c) ∧
  (r = Ret true →
   ∃ li di di', domains c !! xi = Some li ∧ lists c !! li = Some di ∧
                lists c' !! li = Some di' ∧ sublist di' di ∧ di' ≠ di) ∧
  (∀ e, r = Raise e → e = KeyError ∧ c' = c).
Proof.
  destruct (revise xi xj c) as [r c'] eqn:Hrev. simpl.
  pose proof (object_revise_frame _ _ _ _ _ Hrev) as (Hsh & Hfr & Hf & Ht & _).
  split; [by destruct Hsh as (_ & ? & _)|]. split; [done|]. split; [done|].
  split.
  - intros ->. specialize (Ht eq_refl). rewrite revise_unfold in Hrev.
    destruct (domains c !! xi) as [li|] eqn:Hri; [|done].
    destruct (lists c !! li) as [di|] eqn:Hi; [|done].
    destruct Hsh as (_ & _ & _ & _ & _ & Hsub).
    destruct (Hsub li di Hi) as (di' & Hi' & Hsl).
    exists li, di, di'. do 4 (split; [done|]). intros ->.
    assert (lists c' = lists c) as Heq; [|rewrite Heq in Ht; lia].
    apply map_eq. intros l. destruct (decide (l = li)) as [->|Hl].
    + by rewrite Hi, Hi'.
    + apply Hfr. congruence.
  - intros e ->. rewrite revise_unfold in Hrev.
    destruct (domains c !! xi) as [li|] eqn:Hri; [|by injection Hrev as <- <-].
    destruct (lists c !! li) as [[|x di]|] eqn:Hi; try done;
      [|by injection Hrev as <- <-].
    rewrite revise_loop_step in Hrev.
    destruct (domains c !! xj) as [lj|] eqn:Hrj; [|by injection Hrev as <- <-].
    destruct (lists c !! lj) as [dj|] eqn:Hj; [|by injection Hrev as <- <-].
    destruct (object_revise_loop_ret xi xj (x :: di) false c li lj [])
      as (b & c1 & Hret); [done..|by eauto|done|].
    rewrite revise_loop_step, Hrj, Hj in Hret. congruence.
Qed.

End claims.



Lemma example_separate : separate example.
Proof. apply separate_NoDup. vm_compute. repeat constructor; set_solver. Qed.



Lemma object_chain_solution : solution example chain.
Proof.
  apply flat_solution.
  replace (flat example) with AC3.example by (vm_compute; reflexivity).
  apply AC3Laws.chain_solution.
Qed.


Lemma ac3_false_at_wipeout_true_when_drained_witness :
  (∃ q, arcs_of (variables example) example = (Ret q, example) ∧
        run q example true (ac3 example).2) ∧
  (∃ q, arcs_of (variables late_clash) late_clash = (Ret q, late_clash) ∧
        run q late_clash false (ac3 late_clash).2) ∧
  (false = false ↔
   ∃ v, domain (ac3 late_clash).2 v = Some [] ∧
        domain late_clash v ≠ Some []) ∧
  ac3_loop 1 [("A", "B"); ("A", "C"); ("B", "A")] clash
  = (Ret false, (revise "A" "B" clash).2).
Proof.
  pose proof (@ac3_false_at_wipeout_true_when_drained string _ _ Z _)
    as (Hstop & Hrun & Hres).
  split; [|split; [|split]].
  - apply (Hrun example true). vm_compute. reflexivity.
  - apply (Hrun late_clash false). vm_compute. reflexivity.
  - apply (Hres late_clash false). vm_compute. reflexivity.
  - apply Hstop; vm_compute; reflexivity.
Defined.



Lemma ac3_keeps_solutions_separate_witness :
  (ac3 example).1 ≠ Ret false ∧ solution (ac3 example).2 chain.
Proof.
  apply (ac3_keeps_solutions_separate example chain).
  - apply example_separate.
  - apply object_chain_solution.
Defined.


End AC3ObjectsTheory.

(** ** Backtracking search on list objects *)

Module BacktrackingObjectsTheory.
Import BacktrackingObjects.
Section theory.
Context {Var : Type} {Var_eq : EqDecision Var} {Var_count : Countable Var}.
Implicit Types (s : store Var) (var v n x : Var) (value : Z) (d : list Z).
Implicit Types (l : loc) (inf removed : list (Var * list Z)).

(** *** The operations on a list object *)

Lemma read_eq x s :
  read x s =
    match domain s x with
    | Some d => (Ret d, s)
    | None => (Raise KeyError, s)
    end.
Proof.
  unfold read, get_domain, elements, domain, bind, gets, subscript.
  destruct (domains (csp s) !! x) as [l|]; simpl; [|done].
  by destruct (lists s !! l).
Qed.

Lemma store_remove_value_eq x value s :
  remove_value x value s =
    match domains (csp s) !! x with
    | None => (Raise KeyError, s)
    | Some l =>
        match lists s !! l with
        | None => (Raise KeyError, s)
        | Some d =>
            match list_remove value d with
            | None => (Raise ValueError, s)
            | Some d' => (Ret tt, set_list l d' s)
            end
        end
    end.
Proof.
  unfold remove_value, get_domain, elements, bind, gets, subscript.
  destruct (domains (csp s) !! x) as [l|]; simpl; [|done].
  destruct (lists s !! l) as [d|]; simpl; [|done].
  by destruct (list_remove value d).
Qed.

Lemma append_value_eq x value s :
  append_value x value s =
    match domains (csp s) !! x with
    | None => (Raise KeyError, s)
    | Some l =>
        match lists s !! l with
        | None => (Raise KeyError, s)
        | Some d => (Ret tt, set_list l (d ++ [value]) s)
        end
    end.
Proof.
  unfold append_value, get_domain, elements, bind, gets, subscript.
  destruct (domains (csp s) !! x) as [l|]; simpl; [|done].
  by destruct (lists s !! l).
Qed.

Lemma sort_values_eq x s :
  sort_values x s =
    match domains (csp s) !! x with
    | None => (Raise KeyError, s)
    | Some l =>
        match lists s !! l with
        | None => (Raise KeyError, s)
        | Some d => (Ret tt, set_list l (merge_sort Z.le d) s)
        end
    end.
Proof.
  unfold sort_values, get_domain, elements, bind, gets, subscript.
  destruct (domains (csp s) !! x) as [l|]; simpl; [|done].
  by destruct (lists s !! l).
Qed.

(** *** Variables with a list each: the search is that of [Backtracking] *)

Lemma store_flat_lookup s x :
  Backtracking.domains (Backtracking.csp (flat s)) !! x = domain s x.
Proof. unfold flat, domain. simpl. apply lookup_omap. Qed.

Lemma flat_set_list s x l d :
  separate s → domains (csp s) !! x = Some l →
  flat (set_list l d s) = Backtracking.set_domain x d (flat s).
Proof.
  intros Hsep Hx. unfold flat, Backtracking.set_domain. simpl. do 2 f_equal.
  apply map_eq. intros y. rewrite lookup_omap.
  destruct (decide (y = x)) as [->|Hne].
  - rewrite Hx. simpl. by rewrite !lookup_insert_eq.
  - rewrite lookup_insert_ne, lookup_omap by done.
    destruct (domains (csp s) !! y) as [l'|] eqn:Hy; [|done]. simpl.
    rewrite lookup_insert_ne; [done|]. intros <-. apply Hne. by eapply Hsep.
Qed.

Lemma sim_bind {A B} s (m : M (store Var) A) m' (f : A → M (store Var) B) f' :
  sim s m m' →
  (∀ a s1, m s = (Ret a, s1) → csp s1 = csp s → sim s1 (f a) (f' a)) →
  sim s (bind m f) (bind m' f').
Proof.
  unfold sim, bind. destruct (m s) as [r s1]. simpl. intros [-> Hc] Hf.
  destruct r as [a| |]; try done.
  destruct (Hf a s1 eq_refl Hc) as [-> Hc']. split; [done|congruence].
Qed.

Lemma sim_ret {A} s (a : A) : sim s (ret a) (ret a).
Proof. done. Qed.

Lemma sim_gets {A} s (g : store Var → A) (g' : Backtracking.store Var → A) :
  g' (flat s) = g s → sim s (gets g) (gets g').
Proof. intros Hg. unfold sim, gets. simpl. by rewrite Hg. Qed.

Lemma sim_set_assignment s a :
  sim s (modify (set_assignment a)) (modify (Backtracking.set_assignment a)).
Proof. done. Qed.

Lemma sim_read s x : sim s (read x) (Backtracking.get_domain x).
Proof.
  unfold sim. rewrite read_eq, BacktrackingTheory.store_get_domain_eq,
    store_flat_lookup.
  by destruct (domain s x).
Qed.

Lemma read_inv s x d s1 :
  read x s = (Ret d, s1) →
  s1 = s ∧ ∃ l, domains (csp s) !! x = Some l ∧ lists s !! l = Some d.
Proof.
  rewrite read_eq. unfold domain.
  destruct (domains (csp s) !! x) as [l|]; simpl; [|done].
  destruct (lists s !! l) as [d'|] eqn:Hl; [|done].
  intros [= <- <-]. eauto.
Qed.

Lemma sim_get_neighbors s x :
  sim s (get_neighbors x) (Backtracking.get_neighbors x).
Proof.
  unfold sim, get_neighbors, Backtracking.get_neighbors, bind, gets, subscript.
  simpl. by destruct (neighbors (csp s) !! x).
Qed.

Lemma sim_remove_value s x l d d' value :
  separate s → domains (csp s) !! x = Some l → lists s !! l = Some d →
  list_remove value d = Some d' →
  sim s (remove_value x value) (modify (Backtracking.set_domain x d')).
Proof.
  intros Hsep Hx Hl Hrm. unfold sim.
  rewrite store_remove_value_eq, Hx, Hl, Hrm. simpl.
  unfold modify. by rewrite (flat_set_list s x l).
Qed.

Lemma sim_append_value s x l d value :
  separate s → domains (csp s) !! x = Some l → lists s !! l = Some d →
  sim s (append_value x value)
        (modify (Backtracking.set_domain x (d ++ [value]))).
Proof.
  intros Hsep Hx Hl. unfold sim. rewrite append_value_eq, Hx, Hl. simpl.
  unfold modify. by rewrite (flat_set_list s x l).
Qed.

Lemma sim_sort_values s x :
  separate s →
  sim s (sort_values x)
        (bind (Backtracking.get_domain x)
              (λ d, modify (Backtracking.set_domain x (merge_sort Z.le d)))).
Proof.
  intros Hsep. unfold sim, bind.
  rewrite sort_values_eq, BacktrackingTheory.store_get_domain_eq,
    store_flat_lookup. unfold domain.
  destruct (domains (csp s) !! x) as [l|] eqn:Hx; simpl; [|done].
  destruct (lists s !! l) as [d|]; simpl; [|done].
  unfold modify. by rewrite (flat_set_list s x l).
Qed.

Lemma sim_assoc {A B C} s (m : M (store Var) C) (a : M (Backtracking.store Var) A)
    (f : A → M (Backtracking.store Var) B) (g : B → M (Backtracking.store Var) C) :
  sim s m (bind (bind a f) g) → sim s m (bind a (λ b, bind (f b) g)).
Proof.
  unfold sim, bind. intros [<- Hc]. split; [|done].
  by destruct (a (flat s)) as [[]?].
Qed.

Lemma separate_csp s s' : csp s' = csp s → separate s → separate s'.
Proof. unfold separate. by intros ->. Qed.

(** **** [select_unassigned_variable] and [is_consistent] *)

Lemma sim_with_keys vs s :
  sim s (with_keys vs) (Backtracking.with_keys vs).
Proof.
  induction vs as [|v vs IH]; [done|].
  cbn [with_keys Backtracking.with_keys].
  apply sim_bind; [apply sim_read|].
  intros d s1 [-> _]%read_inv _.
  apply sim_bind; [done|]. intros rest s1 _ _. apply sim_ret.
Qed.

Lemma with_keys_store vs s : (with_keys vs s).2 = s.
Proof.
  induction vs as [|v vs IH]; [done|]. cbn [with_keys]. unfold bind at 1.
  rewrite read_eq. destruct (domain s v); [|done]. unfold bind.
  by destruct (with_keys vs s) as [[]?].
Qed.

Lemma sim_select_unassigned_variable s :
  sim s select_unassigned_variable Backtracking.select_unassigned_variable.
Proof.
  apply sim_bind; [by apply sim_gets|]. intros candidates s1 [= <- <-] _.
  apply sim_bind; [apply sim_with_keys|].
  intros [|first others] s1 _ _; [done|apply sim_ret].
Qed.

Lemma sim_is_consistent s var value :
  sim s (is_consistent var value) (Backtracking.is_consistent var value).
Proof.
  apply sim_bind; [apply sim_get_neighbors|]. intros ns s1 _ _.
  apply sim_bind; [by apply sim_gets|]. intros a s2 _ _. apply sim_ret.
Qed.

Lemma sim_del_assignment s var :
  sim s (del_assignment var) (Backtracking.del_assignment var).
Proof.
  apply sim_bind; [by apply sim_gets|]. intros a s1 _ _.
  destruct (a !! var); [apply sim_set_assignment|done].
Qed.

(** **** [forward_checking] and [remove_inference] *)

Lemma sim_forward_checking_loop value ns removed s :
  separate s →
  sim s (forward_checking_loop value ns removed)
        (Backtracking.forward_checking_loop value ns removed).
Proof.
  revert removed s. induction ns as [|n ns IH]; intros removed s Hsep; [done|].
  cbn [forward_checking_loop Backtracking.forward_checking_loop].
  apply sim_bind; [by apply sim_gets|]. intros a s1 [= <- <-] _.
  destruct (assignment s !! n); [by apply IH|].
  apply sim_bind; [apply sim_read|].
  intros d s1 [-> (l & Hn & Hl)]%read_inv _.
  case_bool_decide as Hin; [|by apply IH].
  destruct (list_remove_elem_of value d Hin) as [d' Hrm]. rewrite Hrm.
  apply sim_bind; [by eapply sim_remove_value|]. intros [] s1 _ Hc.
  apply sim_bind; [apply sim_read|]. intros d'' s2 [-> _]%read_inv _.
  destruct d''; [done|]. apply IH. by eapply separate_csp.
Qed.

Lemma sim_forward_checking var value s :
  separate s →
  sim s (forward_checking var value) (Backtracking.forward_checking var value).
Proof.
  intros Hsep. apply sim_bind; [apply sim_get_neighbors|].
  intros ns s1 _ Hc. apply sim_forward_checking_loop. by eapply separate_csp.
Qed.

Lemma sim_restore_values n values s :
  separate s →
  sim s (restore_values n values) (Backtracking.restore_values n values).
Proof.
  revert s. induction values as [|val values IH]; intros s Hsep; [done|].
  cbn [restore_values Backtracking.restore_values].
  apply sim_bind; [apply sim_read|].
  intros d s1 [-> (l & Hn & Hl)]%read_inv _.
  apply sim_bind.
  - case_bool_decide; [apply sim_ret|by eapply sim_append_value].
  - intros [] s1 _ Hc. apply IH. by eapply separate_csp.
Qed.

Lemma sim_restore_all inf s :
  separate s → sim s (restore_all inf) (Backtracking.restore_all inf).
Proof.
  revert s. induction inf as [|[n values] inf IH]; intros s Hsep; [done|].
  cbn [restore_all Backtracking.restore_all].
  apply sim_bind; [by apply sim_restore_values|]. intros [] s1 _ Hc.
  assert (separate s1) as Hsep1 by (by eapply separate_csp).
  apply sim_assoc, sim_bind; [by apply sim_sort_values|].
  intros [] s2 _ Hc2. apply IH. by eapply separate_csp.
Qed.

Lemma sim_remove_inference inferences s :
  separate s →
  sim s (remove_inference inferences) (Backtracking.remove_inference inferences).
Proof. destruct inferences; [apply sim_restore_all|done]. Qed.

(** **** The loop over the values *)

Lemma sim_try_value recurse recurse' var value s :
  (∀ s1, separate s1 → sim s1 recurse recurse') →
  separate s →
  sim s (try_value recurse var value)
        (Backtracking.try_value recurse' var value).
Proof.
  intros Hrec Hsep. unfold try_value, Backtracking.try_value.
  apply sim_bind; [apply sim_is_consistent|]. intros [] s1 _ Hc1; [|done].
  assert (separate s1) as Hsep1 by (by eapply separate_csp).
  apply sim_bind; [by apply sim_gets|]. intros a s2 [= <- <-] _.
  apply sim_bind; [apply sim_set_assignment|]. intros [] s2 [= <-] _.
  apply sim_bind; [by apply sim_forward_checking|]. intros inferences s3 _ Hc3.
  assert (separate s3) as Hsep3 by (by eapply separate_csp).
  apply sim_bind; [destruct inferences; [by apply Hrec|done]|].
  intros [res|] s4 _ Hc4; [done|].
  assert (separate s4) as Hsep4 by (by eapply separate_csp).
  apply sim_bind; [by apply sim_remove_inference|]. intros [] s5 _ Hc5.
  apply sim_bind; [apply sim_del_assignment|]. intros [] s6 _ _. done.
Qed.

Lemma try_values_step rounds (recurse : M (store Var) (option (gmap Var Z)))
    var l index s :
  try_values (S rounds) recurse var l index s =
    match lists s !! l with
    | None => (Raise KeyError, s)
    | Some d =>
        match d !! index with
        | None => (Ret None, s)
        | Some value =>
            match try_value recurse var value s with
            | (Ret None, s1) => try_values rounds recurse var l (S index) s1
            | (Ret (Some res), s1) => (Ret (Some res), s1)
            | (Raise e, s1) => (Raise e, s1)
            | (Timeout, s1) => (Timeout, s1)
            end
        end
    end.
Proof.
  cbn [try_values]. unfold bind at 1, elements, bind at 1, gets, subscript.
  destruct (lists s !! l) as [d|]; [|done]. unfold ret at 1.
  destruct (d !! index) as [value|]; [|done]. unfold bind.
  by destruct (try_value recurse var value s) as [[[]| |] ?].
Qed.

(** With a list to each variable no round changes the list the loop runs
    over, so the loop over the list object sees, index by index, the
    elements the list had when the loop started. *)
Lemma sim_try_values recurse recurse' var l d rounds index s :
  (∀ s1, separate s1 → sim s1 recurse recurse') →
  (∀ st r st', recurse' st = (r, st') → Backtracking.search_post st r st') →
  separate s → domains (csp s) !! var = Some l → lists s !! l = Some d →
  assignment s !! var = None →
  index ≤ length d → length d < rounds + index →
  sim s (try_values rounds recurse var l index)
        (Backtracking.try_values recurse' var (drop index d)) ∧
  lists (try_values rounds recurse var l index s).2 !! l = Some d.
Proof.
  intros Hrec Hpost. revert index s.
  induction rounds as [|rounds IH]; intros index s Hsep Hvar Hl Ha Hle Hlt;
    [lia|].
  unfold sim. rewrite try_values_step, Hl.
  destruct (d !! index) as [value|] eqn:Hi.
  2: { apply lookup_ge_None in Hi. by rewrite drop_ge by done. }
  rewrite (drop_S _ _ _ Hi). cbn [Backtracking.try_values]. unfold bind.
  pose proof (sim_try_value recurse recurse' var value s Hrec Hsep)
    as [Hflat Hc].
  destruct (try_value recurse var value s) as [r s1] eqn:Htry.
  simpl in Hflat, Hc. rewrite Hflat.
  apply BacktrackingTheory.try_value_frame in Hflat as [[_ Hres] Hd];
    [|done..].
  rewrite !store_flat_lookup in Hd. unfold domain in Hd.
  rewrite Hc, Hvar in Hd. simpl in Hd. rewrite Hl in Hd.
  apply lookup_lt_Some in Hi.
  destruct r as [[res|]| |]; try done.
  destruct (IH (S index) s1) as [[Hflat' Hc'] Hl'];
    [by eapply separate_csp|by rewrite Hc|done|simpl in Hres; congruence
    |lia..|].
  split; [split; [done|congruence]|done].
Qed.

Lemma sim_backtrack depth s :
  separate s → sim s (backtrack depth) (Backtracking.backtrack depth).
Proof.
  revert s. induction depth as [|depth IH]; intros s Hsep; [done|].
  cbn [backtrack Backtracking.backtrack].
  apply sim_bind; [by apply sim_gets|]. intros a s1 [= <- <-] _.
  apply sim_bind; [by apply sim_gets|]. intros vs s1 [= <- <-] _.
  destruct (_ =? _); [done|].
  pose proof (sim_select_unassigned_variable s) as Hsel.
  apply sim_bind; [done|]. intros var s1 Hrun Hc1.
  destruct Hsel as [Hflat _]. rewrite Hrun in Hflat. simpl in Hflat.
  apply BacktrackingTheory.select_unassigned_variable_ret in Hflat
    as [_ [Hvar _]%BacktrackingTheory.elem_of_unassigned].
  assert (separate s1) as Hsep1 by (by eapply separate_csp).
  assert (assignment s1 !! var = None) as Ha1.
  { unfold select_unassigned_variable, bind, gets in Hrun.
    pose proof (with_keys_store (unassigned s) s) as Hst.
    destruct (with_keys (unassigned s) s) as [[[|??]| |] s']; simpl in Hst;
      subst s'; try done.
    injection Hrun as _ <-. exact Hvar. }
  unfold sim, domain_values, Backtracking.domain_values, bind.
  rewrite BacktrackingTheory.store_get_domain_eq, store_flat_lookup.
  unfold get_domain, elements, bind, gets, subscript, domain.
  destruct (domains (csp s1) !! var) as [l|] eqn:Hl; [|done]. simpl.
  destruct (lists s1 !! l) as [d|] eqn:Hd; [|done]. simpl.
  destruct (sim_try_values (backtrack depth) (Backtracking.backtrack depth)
              var l d (S (length d)) 0 s1) as [Hsim _]; try done; try lia.
  intros ???. apply BacktrackingTheory.backtrack_frame.
Qed.

Lemma backtrack_flat depth s :
  separate s →
  Backtracking.backtrack depth (flat s)
  = ((backtrack depth s).1, flat (backtrack depth s).2).
Proof. intros Hsep. by apply sim_backtrack. Qed.

Lemma flat_start_triangle (x y z : Var) (vs : list Var) cs nb lx ly lz
    dx dy dz (h : gmap loc (list Z)) :
  NoDup [lx; ly; lz] →
  h !! lx = Some dx → h !! ly = Some dy → h !! lz = Some dz →
  flat (start (Csp vs (<[x := lx]> (<[y := ly]> (<[z := lz]> ∅))) cs nb) h)
  = Backtracking.start
      (Backtracking.Csp vs (<[x := dx]> (<[y := dy]> (<[z := dz]> ∅))) cs nb).
Proof.
  intros _ Hx Hy Hz. unfold flat, start, Backtracking.start. simpl.
  do 2 f_equal. apply map_eq. intros v. rewrite lookup_omap.
  destruct (decide (v = x)) as [->|]; [by rewrite !lookup_insert_eq|].
  rewrite !(lookup_insert_ne _ x) by done.
  destruct (decide (v = y)) as [->|]; [by rewrite !lookup_insert_eq|].
  rewrite !(lookup_insert_ne _ y) by done.
  destruct (decide (v = z)) as [->|]; [by rewrite !lookup_insert_eq|].
  by rewrite !(lookup_insert_ne _ z), !lookup_empty by done.
Qed.

Lemma separate_start_triangle (x y z : Var) (vs : list Var) cs nb lx ly lz
    (h : gmap loc (list Z)) :
  NoDup [lx; ly; lz] →
  separate (start (Csp vs (<[x := lx]> (<[y := ly]> (<[z := lz]> ∅))) cs nb) h).
Proof.
  intros Hnd u v l. unfold start. simpl.
  assert (lx ≠ ly ∧ lx ≠ lz ∧ ly ≠ lz) as (? & ? & ?).
  { apply NoDup_cons in Hnd as [? [? _]%NoDup_cons]. set_solver. }
  assert (∀ w k, (<[x := lx]> (<[y := ly]> (<[z := lz]> ∅)) : gmap Var loc)
                   !! w = Some k →
                 (w = x ∧ k = lx) ∨ (w = y ∧ k = ly) ∨ (w = z ∧ k = lz))
    as Hkeys.
  { intros w k Hw.
    apply lookup_insert_Some in Hw as [[<- <-]|[_ Hw]]; [auto|].
    apply lookup_insert_Some in Hw as [[<- <-]|[_ Hw]]; [auto|].
    apply lookup_insert_Some in Hw as [[<- <-]|[_ Hw]]; [auto|]. done. }
  intros Hu%Hkeys Hv%Hkeys. naive_solver.
Qed.

(** The all-different triangle with a list to each variable, none naming
    a value twice: [backtrack({}, csp)] returns an assignment of three
    distinct values of the lists when there is one, and [None] only when
    there is none. *)
Lemma backtrack_complete_on_separate_lists (x y z : Var) (vs : list Var) cs
    lx ly lz dx dy dz (h : gmap loc (list Z)) :
  NoDup [x; y; z] → vs ≡ₚ [x; y; z] →
  Backtracking.one_constraint_per_pair x y z cs →
  NoDup [lx; ly; lz] →
  h !! lx = Some dx → h !! ly = Some dy → h !! lz = Some dz →
  NoDup dx → NoDup dy → NoDup dz →
  ∃ c r s',
    new_CSP vs (<[x := lx]> (<[y := ly]> (<[z := lz]> ∅))) cs = Ret c ∧
    backtrack 4 (start c h) = (Ret r, s') ∧
    (∀ a, r = Some a → Backtracking.solves_triangle x y z dx dy dz a) ∧
    ((∃ a, Backtracking.solves_triangle x y z dx dy dz a) → ∃ a, r = Some a) ∧
    (r = None → ∀ a, ¬ Backtracking.solves_triangle x y z dx dy dz a).
Proof.
  intros Hnd Hperm Hpairs Hl Hx Hy Hz Hndx Hndy Hndz.
  destruct (BacktrackingTheory.backtrack_triangle x y z vs cs dx dy dz)
    as (c' & Hnew & r & st' & Hrun & Hres); try done.
  pose proof Hnew as (Hv & _)%BacktrackingTheory.new_CSP_spec.
  rewrite Hv, Hperm in Hrun. change (S (length [x; y; z])) with 4 in Hrun.
  unfold Backtracking.new_CSP in Hnew. unfold new_CSP.
  destruct (Backtracking.build_neighbors vs cs) as [nb| |]; try done.
  injection Hnew as <-.
  set (c := Csp vs (<[x := lx]> (<[y := ly]> (<[z := lz]> ∅))) cs nb).
  pose proof (backtrack_flat 4 (start c h)
                (separate_start_triangle x y z vs cs nb lx ly lz h Hl)) as Hflat.
  unfold c in Hflat at 1.
  rewrite (flat_start_triangle x y z vs cs nb lx ly lz dx dy dz h) in Hflat
    by done.
  rewrite Hrun in Hflat.
  destruct (backtrack 4 (start c h)) as [r' s'] eqn:Hobj. simpl in Hflat.
  injection Hflat as <- _.
  exists c, r, s'. do 2 (split; [done|]).
  destruct r as [a|].
  - split; [by intros ? [= <-]|]. split; [by eauto|done].
  - split; [done|]. split; [|done]. intros [a Ha]. by destruct (Hres a).
Qed.

End theory.

Section claims.
Context {Var : Type} {Var_eq : EqDecision Var} {Var_count : Countable Var}.
Implicit Types (s : store Var) (var v n x : Var) (value : Z) (d : list Z).
Implicit Types (l : loc) (inf removed : list (Var * list Z)).

(** [forward_checking] with a list to each variable, none naming a value
    twice.  When it returns a record, the list of every unassigned
    neighbour of [var] is what it was without [value], none of them is
    empty unless it was before, every other list is as it was, and the
    record maps exactly the neighbours that held [value] to [[value]].
    When it returns [None], an unassigned neighbour had [value] as its
    only value, and is empty now.  The assignment is left alone. *)
Theorem forward_checking_prunes_separate var value s r s' :
  separate s → (∀ v d, domain s v = Some d → NoDup d) →
  forward_checking var value s = (Ret r, s') →
  assignment s' = assignment s ∧ csp s' = csp s ∧
  ∃ ns, neighbors (csp s) !! var = Some ns ∧
    match r with
    | Some inf =>
        (∀ n, domain s' n =
              if decide (n ∈ ns ∧ assignment s !! n = None)
              then Backtracking.without value <$> domain s n
              else domain s n) ∧
        (∀ n vals, (n, vals) ∈ inf ↔
           vals = [value] ∧ n ∈ ns ∧ assignment s !! n = None ∧
           ∃ d, domain s n = Some d ∧ value ∈ d) ∧
        NoDup inf.*1 ∧
        (∀ n, n ∈ inf.*1 → domain s' n ≠ Some [])
    | None =>
        ∃ n, n ∈ ns ∧ assignment s !! n = None ∧
             domain s n = Some [value] ∧ domain s' n = Some []
    end.
Proof.
  intros Hsep Hu Hrun.
  destruct (sim_forward_checking var value s Hsep) as [Hflat Hc].
  rewrite Hrun in Hflat, Hc. simpl in Hflat, Hc.
  apply SearchLaws.forward_checking_prunes in Hflat as (Ha & ns & Hns & Hres).
  2: { intros v d. rewrite store_flat_lookup. apply Hu. }
  split; [done|]. split; [done|]. exists ns. split; [done|].
  destruct r as [inf|].
  - destruct Hres as (Hd & Hin & Hnd & Hne).
    split; [|split; [|split; [done|]]].
    + intros n. specialize (Hd n). by rewrite !store_flat_lookup in Hd.
    + intros n vals. specialize (Hin n vals).
      by setoid_rewrite store_flat_lookup in Hin.
    + intros n Hn. specialize (Hne n Hn). by rewrite store_flat_lookup in Hne.
  - destruct Hres as (n & Hn & Han & Hd & Hd').
    rewrite store_flat_lookup in Hd, Hd'. eauto.
Qed.

(** Pruning and undoing at once, with a list to each variable, none
    naming a value twice: after a [forward_checking] that returned a
    record, [remove_inference] with that record returns, and every list
    holds the values it held before the pruning; the pruned ones are
    sorted now, the others are as they were. *)
Theorem prune_then_restore_separate var value s inf s1 :
  separate s → (∀ v d, domain s v = Some d → NoDup d) →
  forward_checking var value s = (Ret (Some inf), s1) →
  ∃ s2, remove_inference (Some inf) s1 = (Ret tt, s2) ∧
        assignment s2 = assignment s ∧ csp s2 = csp s ∧
        ∀ n, match domain s n with
             | Some d =>
                 ∃ d', domain s2 n = Some d' ∧ d' ≡ₚ d ∧
                       if decide (n ∈ inf.*1) then Sorted Z.le d' else d' = d
             | None => domain s2 n = None
             end.
Proof.
  intros Hsep Hu Hrun.
  destruct (sim_forward_checking var value s Hsep) as [Hflat Hc].
  rewrite Hrun in Hflat, Hc. simpl in Hflat, Hc.
  apply SearchLaws.prune_then_restore in Hflat as (st2 & Hres & Ha & Hd).
  2: { intros v d. rewrite store_flat_lookup. apply Hu. }
  destruct (sim_remove_inference (Some inf) s1) as [Hflat2 Hc2];
    [by eapply separate_csp|].
  destruct (remove_inference (Some inf) s1) as [r2 s2].
  cbn [fst snd] in Hflat2, Hc2.
  rewrite Hres in Hflat2. injection Hflat2 as <- ->.
  exists s2. split; [done|]. split; [done|]. split; [congruence|].
  intros n. specialize (Hd n). by rewrite !store_flat_lookup in Hd.
Qed.


(** With a list to each variable, the list [backtrack] iterates over,
    [csp.domains[var]] itself, holds the same elements before and after
    any number of rounds of the loop for an unassigned [var]; the loop
    over the list object is the loop over the elements it had at the
    start. *)
Theorem loop_leaves_list depth var l d rounds index s :
  separate s → assignment s !! var = None →
  domains (csp s) !! var = Some l → lists s !! l = Some d →
  index ≤ length d → length d < rounds + index →
  let run := try_values rounds (backtrack depth) var l index s in
  lists run.2 !! l = Some d ∧
  Backtracking.try_values (Backtracking.backtrack depth) var (drop index d)
    (flat s) = (run.1, flat run.2).
Proof.
  intros Hsep Ha Hvar Hl Hle Hlt.
  destruct (sim_try_values (backtrack depth) (Backtracking.backtrack depth)
              var l d rounds index s) as [[Hflat _] Hd]; try done.
  - intros ??. by apply sim_backtrack.
  - intros ???. apply BacktrackingTheory.backtrack_frame.
Qed.

End claims.

(** **** Concrete runs *)

(** C2 (completeness on the all-different triangle) does not hold of the
    code.  X = [1, 2], and Y and Z given one list [[1, 3]]; the triangle
    has the solution X = 2, Y = 1, Z = 3.  Under X = 1 the list loses 1;
    then 3 for Y takes 3 from the list, which is the list of Z and is
    empty now: [forward_checking] answers [None], its record of that
    removal is gone and [remove_inference(None)] puts nothing back.  The 3
    is lost for good: under X = 2 the list is [1], and 1 for Y empties it.
    The search returns [None] and leaves the list empty. *)
Theorem backtrack_misses_solution_on_shared_list :
  new_CSP ["X"; "Y"; "Z"] (<["X" := 0]> (<["Y" := 1]> (<["Z" := 1]> ∅)))
          [("X", "Y"); ("X", "Z"); ("Y", "Z")] = Ret shared_triangle ∧
  (let s := start shared_triangle shared_lists in
   domain s "X" = Some [1; 2]%Z ∧ domain s "Y" = Some [1; 3]%Z ∧
   domain s "Z" = Some [1; 3]%Z) ∧
  Backtracking.solves_triangle "X" "Y" "Z" [1; 2]%Z [1; 3]%Z [1; 3]%Z
    (<["X" := 2%Z]> (<["Y" := 1%Z]> (<["Z" := 3%Z]> ∅))) ∧
  (let s := set_assignment (<["Y" := 3%Z]> (<["X" := 1%Z]> ∅))
              (set_list 1 [3%Z] (start shared_triangle shared_lists)) in
   let check := forward_checking "Y" 3 s in
   check.1 = Ret None ∧ lists check.2 !! 1 = Some [] ∧
   remove_inference None check.2 = (Ret tt, check.2)) ∧
  (let run := backtrack 4 (start shared_triangle shared_lists) in
   run.1 = Ret None ∧
   domain run.2 "X" = Some [1; 2]%Z ∧ domain run.2 "Y" = Some [] ∧
   domain run.2 "Z" = Some []).
Proof.
  split; [vm_compute; reflexivity|].
  split; [repeat split; vm_compute; reflexivity|].
  split.
  { exists 2%Z, 1%Z, 3%Z. split; [done|]. set_unfold. lia. }
  split; repeat split; vm_compute; reflexivity.
Qed.

Lemma separate_triangle_separate :
  separate (start separate_triangle separate_lists).
Proof. apply (separate_start_triangle "X" "Y" "Z"). compute_done. Qed.

Lemma separate_triangle_unique s :
  lists s = separate_lists → csp s = separate_triangle →
  ∀ v d, domain s v = Some d → NoDup d.
Proof.
  intros Hl Hc v d. unfold domain. rewrite Hl, Hc.
  destruct (domains separate_triangle !! v) as [l|] eqn:Hv; [|done]. simpl.
  unfold separate_lists. intros Hd.
  destruct (decide (l = 0)) as [->|]; simplify_map_eq; [compute_done|].
  destruct (decide (l = 1)) as [->|]; simplify_map_eq; [compute_done|].
  destruct (decide (l = 2)) as [->|]; simplify_map_eq. compute_done.
Qed.

Lemma forward_checking_prunes_separate_witness :
  let s := set_assignment (<["X" := 1%Z]> ∅)
             (start separate_triangle separate_lists) in
  let run := forward_checking "X" 1 s in
  assignment run.2 = assignment s ∧ csp run.2 = csp s ∧
  ∃ ns, neighbors separate_triangle !! "X" = Some ns ∧
    (∀ n, domain run.2 n =
          if decide (n ∈ ns ∧ assignment s !! n = None)
          then Backtracking.without 1 <$> domain s n
          else domain s n) ∧
    (∀ n vals, (n, vals) ∈ [("Y", [1%Z]); ("Z", [1%Z])] ↔
       vals = [1%Z] ∧ n ∈ ns ∧ assignment s !! n = None ∧
       ∃ d, domain s n = Some d ∧ 1%Z ∈ d) ∧
    NoDup [("Y", [1%Z]); ("Z", [1%Z])].*1 ∧
    (∀ n, n ∈ [("Y", [1%Z]); ("Z", [1%Z])].*1 → domain run.2 n ≠ Some []).
Proof.
  apply (forward_checking_prunes_separate "X" 1
           (set_assignment (<["X" := 1%Z]> ∅)
              (start separate_triangle separate_lists))
           (Some [("Y", [1%Z]); ("Z", [1%Z])])).
  - apply separate_triangle_separate.
  - by apply separate_triangle_unique.
  - vm_compute. reflexivity.
Defined.

Lemma prune_then_restore_separate_witness :
  let s := set_assignment (<["X" := 1%Z]> ∅)
             (start separate_triangle separate_lists) in
  ∃ s2,
    remove_inference (Some [("Y", [1%Z]); ("Z", [1%Z])])
      (forward_checking "X" 1 s).2 = (Ret tt, s2) ∧
    assignment s2 = assignment s ∧ csp s2 = csp s ∧
    ∀ n, match domain s n with
         | Some d =>
             ∃ d', domain s2 n = Some d' ∧ d' ≡ₚ d ∧
                   if decide (n ∈ [("Y", [1%Z]); ("Z", [1%Z])].*1)
                   then Sorted Z.le d' else d' = d
         | None => domain s2 n = None
         end.
Proof.
  apply (prune_then_restore_separate "X" 1
           (set_assignment (<["X" := 1%Z]> ∅)
              (start separate_triangle separate_lists))
           [("Y", [1%Z]); ("Z", [1%Z])]).
  - apply separate_triangle_separate.
  - by apply separate_triangle_unique.
  - vm_compute. reflexivity.
Defined.


Lemma loop_leaves_list_witness :
  let s := start separate_triangle separate_lists in
  let run := try_values 3 (backtrack 3) "Y" 1 0 s in
  lists run.2 !! 1 = Some [1; 3]%Z ∧
  Backtracking.try_values (Backtracking.backtrack 3) "Y" [1; 3]%Z (flat s)
  = (run.1, flat run.2).
Proof.
  apply (loop_leaves_list 3 "Y" 1 [1; 3]%Z 3 0
           (start separate_triangle separate_lists)).
  - apply separate_triangle_separate.
  - reflexivity.
  - reflexivity.
  - reflexivity.
  - simpl. lia.
  - simpl. lia.
Defined.

End BacktrackingObjectsTheory.
